(** * cpp-dataflow: the broadcast queue, its views and the component facets

    A shallow embedding of
    - [include/utils/synchronized_multi_queue.h] ([SynchronizationMultiQueue]
      and its nested [View]),
    - [include/dataflow/Producer.h], [include/dataflow/Consumer.h] and
      [include/dataflow/ComponentFactory.h],
    followed by the properties of the specification that concern them.

    Objects live in a heap: a queue is reached through the [shared_ptr] of its
    owner, a view is a C++ object identified by its address, and the queue's
    [m_views] holds raw addresses of views.  A [weak_ptr] is the address of the
    queue it was made from; locking it succeeds exactly when that queue is
    still in the heap.  Addresses are handed out by a bump allocator and never
    reused.

    The code is read sequentially (one thread): a wait on the condition
    variable whose predicate is false never returns, since nobody else can
    push. *)

From Stdlib Require Import NArith List Lia.
From stdpp Require Import base option list numbers gmap fin_sets.

Local Open Scope N_scope.

(** ** [std::size_t] *)

Definition size_t_max : N := 18446744073709551615.

(** [++n] and [--n] on a [std::size_t]: both wrap. *)
Definition incr (n : N) : N := if n =? size_t_max then 0 else n + 1.
Definition decr (n : N) : N := if n =? 0 then size_t_max else n - 1.

(** ** Outcomes of a call *)

(** The exceptions the code can raise: the [std::runtime_error] of a dangling
    view and the [std::out_of_range] of [deque::at]. *)
Inductive exn := DanglingView | OutOfRange.

(** A call returns, throws (the state at the throw is kept: nothing is rolled
    back), waits forever, or has undefined behaviour. *)
Inductive result (S A : Type) : Type :=
| Ok (a : A) (s : S)
| Throw (e : exn) (s : S)
| Blocked (s : S)
| Undefined.
Arguments Ok {S A} a s.
Arguments Throw {S A} e s.
Arguments Blocked {S A} s.
Arguments Undefined {S A}.

Definition M (S A : Type) : Type := S → result S A.

Definition ret {S A} (a : A) : M S A := λ s, Ok a s.

Definition bind {S A B} (m : M S A) (k : A → M S B) : M S B := λ s,
  match m s with
  | Ok a s' => k a s'
  | Throw e s' => Throw e s'
  | Blocked s' => Blocked s'
  | Undefined => Undefined
  end.

Definition throw {S A} (e : exn) : M S A := λ s, Throw e s.
Definition undefined {S A} : M S A := λ _, Undefined.

Notation "x ←' m ; k" := (bind m (λ x, k))
  (at level 20, m at level 100, k at level 200, right associativity,
   format "x  ←'  m ;  '/' k").
Notation "m ;;' k" := (bind m (λ _, k))
  (at level 100, k at level 200, right associativity).

(** Run a computation on a component of the state. *)
Definition zoom {S1 S2 A} (get : S1 → S2) (set : S2 → S1 → S1) (m : M S2 A) : M S1 A :=
  λ s, match m (get s) with
       | Ok a s' => Ok a (set s' s)
       | Throw e s' => Throw e (set s' s)
       | Blocked s' => Blocked (set s' s)
       | Undefined => Undefined
       end.

(** ** The heap *)

(** [SynchronizationMultiQueue<T, Impl>::View]: [m_queue] is the [weak_ptr]
    ([None] when empty), [m_idx] the offset. *)
Record View := mkView { m_queue : option positive; m_idx : N }.

Section MultiQueue.
Context {T : Type}.

(** [SynchronizationMultiQueue<T>] with [Impl = std::deque<T>]; the mutex and
    the condition variable carry no data. *)
Record Queue := mkQueue {
  m_impl : list T;
  m_referenceCounter : list N;
  m_views : gset positive
}.

Record heap := mkHeap {
  queues : gmap positive Queue;
  views : gmap positive View;
  brk : positive
}.

Definition empty_heap : heap := mkHeap ∅ ∅ 1%positive.

Definition set_queue (q : positive) (Q : Queue) (h : heap) : heap :=
  mkHeap (<[q := Q]> (queues h)) (views h) (brk h).

Definition set_view (v : positive) (V : View) (h : heap) : heap :=
  mkHeap (queues h) (<[v := V]> (views h)) (brk h).

Definition free_view (v : positive) (h : heap) : heap :=
  mkHeap (queues h) (delete v (views h)) (brk h).

(** A new object: the next address. *)
Definition alloc : M heap positive := λ h,
  Ok (brk h) (mkHeap (queues h) (views h) (Pos.succ (brk h))).

(** [m_queue.lock()]: the queue, when it is still alive. *)
Definition lock (w : option positive) (h : heap) : option (positive * Queue) :=
  match w with
  | None => None
  | Some q => match queues h !! q with
              | Some Q => Some (q, Q)
              | None => None
              end
  end.

(** Reading a view object; touching a destroyed one is undefined. *)
Definition get_view (v : positive) : M heap View := λ h,
  match views h !! v with
  | Some V => Ok V h
  | None => Undefined
  end.

(** Calling a member of a queue; calling through a dead pointer is undefined. *)
Definition get_queue (q : positive) : M heap Queue := λ h,
  match queues h !! q with
  | Some Q => Ok Q h
  | None => Undefined
  end.

(** ** [SynchronizationMultiQueue] *)

(** [make()] *)
Definition make : M heap positive :=
  q ←' alloc;
  (λ h, Ok q (set_queue q (mkQueue [] [] ∅) h)).

(** The owner releases its [shared_ptr]: the queue is destroyed. *)
Definition destroy_queue (q : positive) : M heap unit := λ h,
  Ok tt (mkHeap (delete q (queues h)) (views h) (brk h)).

(** [size()] *)
Definition queue_size (Q : Queue) : N := N.of_nat (length (m_impl Q)).

Definition stalenessThreshold : N := 0.

(** [push(value)].  The [if constexpr (stalenessThreshold == 0)] branch is the
    one compiled. *)
Definition push (q : positive) (value : T) : M heap unit :=
  Q ←' get_queue q;
  if bool_decide (m_views Q = ∅) && (stalenessThreshold <=? queue_size Q)
  then ret tt
  else λ h, Ok tt (set_queue q
         (mkQueue (m_impl Q ++ [value])
                  (m_referenceCounter Q ++ [N.of_nat (size (m_views Q))])
                  (m_views Q)) h).

(** [registerView(view)] *)
Definition registerView (q v : positive) : M heap unit :=
  Q ←' get_queue q;
  λ h, Ok tt (set_queue q (mkQueue (m_impl Q) (m_referenceCounter Q) ({[v]} ∪ m_views Q)) h).

(** [swapView(oldView, newView)] *)
Definition swapView (q old new : positive) : M heap unit :=
  Q ←' get_queue q;
  λ h, Ok tt (set_queue q
         (mkQueue (m_impl Q) (m_referenceCounter Q) (({[new]} ∪ m_views Q) ∖ {[old]})) h).

(** [for (auto view : m_views) --view->m_idx;] on the view objects. *)
Definition shift_views (X : gset positive) (vs : gmap positive View) : gmap positive View :=
  map_imap (λ v V, Some (if bool_decide (v ∈ X) then mkView (m_queue V) (decr (m_idx V)) else V)) vs.

(** [decreaseReferenceCount(idx)].  [at] throws past the end of the counter;
    [pop_front] on an empty deque and a write through the address of a
    destroyed view are undefined. *)
Definition decreaseReferenceCount (q : positive) (idx : N) : M heap unit :=
  Q ←' get_queue q;
  match m_referenceCounter Q !! N.to_nat idx with
  | None => throw OutOfRange
  | Some c =>
      let counter := <[N.to_nat idx := decr c]> (m_referenceCounter Q) in
      if decr c =? 0 then
        match m_impl Q with
        | [] => undefined
        | _ :: impl' =>
            λ h, if bool_decide (m_views Q ⊆ dom (views h))
                 then Ok tt (mkHeap (<[q := mkQueue impl' (tail counter) (m_views Q)]> (queues h))
                                    (shift_views (m_views Q) (views h))
                                    (brk h))
                 else Undefined
        end
      else λ h, Ok tt (set_queue q (mkQueue (m_impl Q) counter (m_views Q)) h)
  end.

(** The loop of [unregisterView]:
    [while (view.m_idx != m_impl.size()) decreaseReferenceCount(view.m_idx++);]
    A round that does not throw either shortens the counter (an eviction,
    which also moves the offset of the registered [view] back) or moves the
    offset one step up, and [at] throws once the offset is past the counter:
    [release_fuel] rounds are enough, and the result does not depend on the
    fuel beyond that (see [release_loop_fuel]). *)
Fixpoint release_loop (fuel : nat) (q v : positive) : M heap unit :=
  V ←' get_view v;
  Q ←' get_queue q;
  if m_idx V =? queue_size Q then ret tt
  else match fuel with
       | O => undefined
       | S fuel' =>
           (λ h, Ok tt (set_view v (mkView (m_queue V) (incr (m_idx V))) h)) ;;'
           decreaseReferenceCount q (m_idx V) ;;'
           release_loop fuel' q v
       end.

Definition release_fuel (Q : Queue) (V : View) : nat :=
  S (length (m_referenceCounter Q) - N.to_nat (m_idx V)).

(** [unregisterView(view)] *)
Definition unregisterView (q v : positive) : M heap unit :=
  Q ←' get_queue q;
  if bool_decide (v ∈ m_views Q) then
    V ←' get_view v;
    release_loop (release_fuel Q V) q v ;;'
    Q' ←' get_queue q;
    λ h, Ok tt (set_queue q (mkQueue (m_impl Q') (m_referenceCounter Q') (m_views Q' ∖ {[v]})) h)
  else ret tt.

(** ** [SynchronizationMultiQueue::View] *)

(** [explicit View(Queue& queue)], the constructor behind [Queue::view()]. *)
Definition view (q : positive) : M heap positive :=
  Q ←' get_queue q;
  v ←' alloc;
  (λ h, Ok tt (set_view v (mkView (Some q) (queue_size Q)) h)) ;;'
  registerView q v ;;'
  ret v.

(** [View() = default] *)
Definition View_default : M heap positive :=
  v ←' alloc;
  (λ h, Ok tt (set_view v (mkView None 0) h)) ;;'
  ret v.

(** [View(const View& other)] *)
Definition View_copy (other : positive) : M heap positive :=
  O ←' get_view other;
  v ←' alloc;
  (λ h, Ok tt (set_view v (mkView (m_queue O) (m_idx O)) h)) ;;'
  (λ h, match lock (m_queue O) h with
        | Some (q, _) => registerView q v h
        | None => Ok tt h
        end) ;;'
  ret v.

(** [View& operator=(const View& other)] *)
Definition View_assign (this other : positive) : M heap unit :=
  V ←' get_view this;
  (λ h, match lock (m_queue V) h with
        | Some (q, _) => unregisterView q this h
        | None => Ok tt h
        end) ;;'
  O ←' get_view other;
  (λ h, Ok tt (set_view this (mkView (m_queue O) (m_idx O)) h)) ;;'
  (λ h, match lock (m_queue O) h with
        | Some (q, _) => registerView q this h
        | None => Ok tt h
        end).

(** [View(View&& other)] *)
Definition View_move (other : positive) : M heap positive :=
  O ←' get_view other;
  v ←' alloc;
  (λ h, Ok tt (set_view v (mkView (m_queue O) (m_idx O))
                 (set_view other (mkView None (m_idx O)) h))) ;;'
  (λ h, match lock (m_queue O) h with
        | Some (q, _) => swapView q other v h
        | None => Ok tt h
        end) ;;'
  ret v.

(** [View& operator=(View&& other)].  The source registers [this] and leaves
    [other] in [m_views]. *)
Definition View_move_assign (this other : positive) : M heap unit :=
  V ←' get_view this;
  (λ h, match lock (m_queue V) h with
        | Some (q, _) => unregisterView q this h
        | None => Ok tt h
        end) ;;'
  O ←' get_view other;
  (λ h, Ok tt (set_view this (mkView (m_queue O) (m_idx O))
                 (set_view other (mkView None (m_idx O)) h))) ;;'
  (λ h, match lock (m_queue O) h with
        | Some (q, _) => registerView q this h
        | None => Ok tt h
        end).

(** [~View()], after which the object is gone.  (An exception leaving a
    destructor ends the program; it is reported here as the exception.) *)
Definition View_destroy (v : positive) : M heap unit :=
  V ←' get_view v;
  (λ h, match lock (m_queue V) h with
        | Some (q, _) => unregisterView q v h
        | None => Ok tt h
        end) ;;'
  (λ h, Ok tt (free_view v h)).

(** The private [begin(Queue&)] is [std::next(m_impl.begin(), m_idx)]: a
    position in the deque, undefined past its end. *)
Definition view_begin (Q : Queue) (V : View) : option N :=
  if m_idx V <=? queue_size Q then Some (m_idx V) else None.

(** The private [end(Queue&)] *)
Definition view_end (Q : Queue) : N := queue_size Q.

(** [begin() const] *)
Definition View_begin (v : positive) : M heap N :=
  V ←' get_view v;
  λ h, match lock (m_queue V) h with
       | None => Throw DanglingView h
       | Some (_, Q) => match view_begin Q V with
                        | Some b => Ok b h
                        | None => Undefined
                        end
       end.

(** [end() const] *)
Definition View_end (v : positive) : M heap N :=
  V ←' get_view v;
  λ h, match lock (m_queue V) h with
       | None => Throw DanglingView h
       | Some (_, Q) => Ok (view_end Q) h
       end.

(** [size() const]: the distance from [begin] to [end] *)
Definition View_size (v : positive) : M heap N :=
  V ←' get_view v;
  λ h, match lock (m_queue V) h with
       | None => Throw DanglingView h
       | Some (_, Q) => match view_begin Q V with
                        | Some b => Ok (view_end Q - b) h
                        | None => Undefined
                        end
       end.

(** [clear()] *)
Definition View_clear (v : positive) : M heap unit :=
  V ←' get_view v;
  λ h, match lock (m_queue V) h with
       | None => Throw DanglingView h
       | Some (q, _) => (unregisterView q v ;;' registerView q v) h
       end.

(** [waitFor(duration)]: the predicate is evaluated at once and, nobody else
    pushing, has the same value at the timeout. *)
Definition View_waitFor (v : positive) : M heap bool :=
  V ←' get_view v;
  λ h, match lock (m_queue V) h with
       | None => Throw DanglingView h
       | Some (_, Q) => match view_begin Q V with
                        | Some b => Ok (negb (b =? view_end Q)) h
                        | None => Undefined
                        end
       end.

(** [pop()] *)
Definition View_pop (v : positive) : M heap T :=
  V ←' get_view v;
  λ h, match lock (m_queue V) h with
       | None => Throw DanglingView h
       | Some (q, Q) =>
           match view_begin Q V with
           | None => Undefined
           | Some b =>
               match m_impl Q !! N.to_nat b with
               | None => Blocked h
               | Some value =>
                   ((λ h, Ok tt (set_view v (mkView (m_queue V) (incr (m_idx V))) h)) ;;'
                    decreaseReferenceCount q (m_idx V) ;;'
                    ret value) h
               end
           end
       end.

End MultiQueue.
Arguments Queue : clear implicits.
Arguments heap : clear implicits.

(** ** Component state: facets next to the heap *)

(** A facet's members live in the component object [C]; the state a member
    function runs on is the component together with the heap. *)
Definition on_heap {S C A} (m : M S A) : M (C * S) A :=
  zoom snd (λ h s, (s.1, h)) m.

Definition get_self {S C} : M (C * S) C := λ s, Ok s.1 s.
Definition put_self {S C} (c : C) : M (C * S) unit := λ s, Ok tt (c, s.2).

(** Run [f] on every element, left to right, collecting the results. *)
Fixpoint for_each {S A B} (f : A → M S B) (l : list A) : M S (list B) :=
  match l with
  | [] => ret []
  | a :: l' => b ←' f a; bs ←' for_each f l'; ret (b :: bs)
  end.

(** ** [dataflow::Producer] *)

(** [Producer<Out>]: one output.  [pushOutput] has two overloads, a template
    taking the value as it is and a function taking [std::optional<Out>].
    The argument type selects one: a value of type [Out] goes to the
    template, also when [Out] is itself an optional type (the other overload
    would need a conversion to an optional of an optional); a
    [std::optional<Out>] goes to the second one, which is an exact match and
    not a template.  The two are two functions here, told apart by the type
    of the argument in the same way. *)
Module Producer1.
Section Producer1.
Context {Out : Type}.

Record t := mk { m_outputPipe : positive }.

(** [Producer()] *)
Definition ctor : M (heap Out) t :=
  q ←' make; ret (mk q).

(** [getOutputPipe()] *)
Definition getOutputPipe (p : t) : M (heap Out) positive :=
  view (m_outputPipe p).

(** [template<typename T> void pushOutput(T&& value)] *)
Definition pushOutput (p : t) (value : Out) : M (heap Out) unit :=
  push (m_outputPipe p) value.

(** [void pushOutput(std::optional<Out> value)] *)
Definition pushOutput_optional (p : t) (value : option Out) : M (heap Out) unit :=
  match value with
  | Some x => pushOutput p x
  | None => ret tt
  end.

End Producer1.
Arguments t : clear implicits.
End Producer1.

(** [Producer<Out[]>]: a bus of outputs.  [m_outputPipes] is [mutable] and
    grows inside the [const] accessors.  The overloads of [pushOutput] are
    selected as for one output: a vector of [Out] is pushed element by
    element as it is, a vector of [std::optional<Out>] through the overload
    that drops the absent elements. *)
Module ProducerBus.
Section ProducerBus.
Context {Out : Type}.

Record t := mk { m_outputPipes : list positive }.

Definition ctor : t := mk [].

(** The body of the loop of [getOutputPipeSource], [n] times. *)
Fixpoint grow (n : nat) : M (t * heap Out) unit :=
  match n with
  | O => ret tt
  | S n' =>
      q ←' on_heap make;
      p ←' get_self;
      put_self (mk (m_outputPipes p ++ [q])) ;;'
      grow n'
  end.

(** [getOutputPipeSource(int idx)]:
    [for (auto i = m_outputPipes.size(); i <= idx; ++i) push_back(make());]
    then [*m_outputPipes[idx]].  The loop compares as [std::size_t]: a
    negative [idx] makes it allocate until memory runs out, which is not
    modelled further. *)
Definition getOutputPipeSource (idx : Z) : M (t * heap Out) positive :=
  if (idx <? 0)%Z then undefined
  else
    p ←' get_self;
    grow (S (Z.to_nat idx) - length (m_outputPipes p)) ;;'
    p' ←' get_self;
    match m_outputPipes p' !! Z.to_nat idx with
    | Some q => ret q
    | None => undefined
    end.

(** [getOutputPipe(int idx)] *)
Definition getOutputPipe (idx : Z) : M (t * heap Out) positive :=
  q ←' getOutputPipeSource idx;
  on_heap (view q).

(** [template<typename T> void pushOutput(int idx, T&& value)] *)
Definition pushOutput_at (idx : Z) (value : Out) : M (t * heap Out) unit :=
  q ←' getOutputPipeSource idx;
  on_heap (push q value).

(** [void pushOutput(int idx, std::optional<Out> value)] *)
Definition pushOutput_at_optional (idx : Z) (value : option Out) : M (t * heap Out) unit :=
  match value with
  | Some x => pushOutput_at idx x
  | None => ret tt
  end.

(** The loop [for (auto i = 0; i != values.size(); ++i) pushOutput(i, values[i]);]
    from [i] on, [push_one] being the overload the element type selects. *)
Fixpoint pushOutput_from {A} (push_one : Z → A → M (t * heap Out) unit)
    (i : Z) (values : list A) : M (t * heap Out) unit :=
  match values with
  | [] => ret tt
  | x :: rest => push_one i x ;;' pushOutput_from push_one (i + 1)%Z rest
  end.

(** [pushOutput(std::vector<T>)] for [T = Out] *)
Definition pushOutput (values : list Out) : M (t * heap Out) unit :=
  pushOutput_from pushOutput_at 0%Z values.

(** [pushOutput(std::vector<T>)] for [T = std::optional<Out>] *)
Definition pushOutput_optional (values : list (option Out)) : M (t * heap Out) unit :=
  pushOutput_from pushOutput_at_optional 0%Z values.

End ProducerBus.
Arguments t : clear implicits.
End ProducerBus.

(** ** [dataflow::Consumer] *)

(** [Consumer<In>]: one input. *)
Module Consumer1.
Section Consumer1.
Context {In : Type}.

Record t := mk { m_inputPipe : positive }.

(** The implicit constructor: [m_inputPipe] is default-constructed. *)
Definition ctor : M (heap In) t :=
  v ←' View_default; ret (mk v).

(** [setInputPipe(View inputPipe)]: the by-value parameter is moved from and
    destroyed when the call is over. *)
Definition setInputPipe (c : t) (inputPipe : positive) : M (heap In) unit :=
  View_move_assign (m_inputPipe c) inputPipe ;;'
  View_destroy inputPipe.

(** [pullInput()] *)
Definition pullInput (c : t) : M (heap In) (option In) :=
  n ←' View_size (m_inputPipe c);
  if 0 <? n then x ←' View_pop (m_inputPipe c); ret (Some x)
  else ret None.

End Consumer1.
Arguments t : clear implicits.
End Consumer1.

(** [Consumer<Ins...>]: a fixed number of inputs.  The tuple of views is a
    list; the element types of the queues are taken to be one type (a sum
    type, when they differ). *)
Module ConsumerN.
Section ConsumerN.
Context {In : Type}.

Record t := mk { m_inputPipes : list positive }.

(** The implicit constructor for [n] inputs. *)
Definition ctor (n : nat) : M (heap In) t :=
  vs ←' for_each (λ _, View_default) (replicate n tt); ret (mk vs).

(** [setInputPipes(View... inputPipes)]:
    [m_inputPipes = std::tuple{std::move(inputPipes)...};] builds a temporary
    tuple by move construction, move-assigns it member by member, and
    destroys the temporary and the parameters. *)
Fixpoint move_assign_each (dst src : list positive) : M (heap In) unit :=
  match dst, src with
  | d :: dst', s :: src' => View_move_assign d s ;;' move_assign_each dst' src'
  | _, _ => ret tt
  end.

Definition setInputPipes (c : t) (inputPipes : list positive) : M (heap In) unit :=
  tmp ←' for_each View_move inputPipes;
  move_assign_each (m_inputPipes c) tmp ;;'
  for_each View_destroy tmp ;;'
  for_each View_destroy inputPipes ;;'
  ret tt.

(** [allInputsReady()]: [(... && (std::get<indices>(m_inputPipes).size() > 0))],
    a left fold of [&&], which evaluates left to right and stops at the first
    [false]. *)
Fixpoint allInputsReady_from (ready : bool) (pipes : list positive) : M (heap In) bool :=
  match pipes with
  | [] => ret ready
  | v :: pipes' =>
      if ready then n ←' View_size v; allInputsReady_from (0 <? n) pipes'
      else ret false
  end.

Definition allInputsReady (c : t) : M (heap In) bool :=
  allInputsReady_from true (m_inputPipes c).

(** [getInputs()]: [{std::get<indices>(m_inputPipes).pop()...}], a braced
    list, evaluated left to right. *)
Definition getInputs (c : t) : M (heap In) (list In) :=
  for_each View_pop (m_inputPipes c).

(** [pullInput()] *)
Definition pullInput (c : t) : M (heap In) (option (list In)) :=
  ready ←' allInputsReady c;
  if ready then xs ←' getInputs c; ret (Some xs)
  else ret None.

End ConsumerN.
Arguments t : clear implicits.
End ConsumerN.

(** [Consumer<In[]>]: a bus of inputs. *)
Module ConsumerBus.
Section ConsumerBus.
Context {In : Type}.

Record t := mk { m_inputPipes : list positive; m_inputs : list In }.

Definition ctor : t := mk [] [].

(** [addInputPipe(View inputPipe)]: [m_inputPipes.push_back(std::move(inputPipe))].
    The new element is move-constructed.  When the vector has to reallocate
    ([realloc]; the growth policy is the library's), the old elements are
    copied into the new storage, [View]'s move constructor not being
    [noexcept], and then destroyed.  The parameter is destroyed when the call
    is over. *)
Definition addInputPipe (realloc : bool) (inputPipe : positive) : M (t * heap In) unit :=
  c ←' get_self;
  v ←' on_heap (View_move inputPipe);
  (if realloc then
     copies ←' on_heap (for_each View_copy (m_inputPipes c));
     on_heap (for_each View_destroy (m_inputPipes c)) ;;'
     put_self (mk (copies ++ [v]) (m_inputs c))
   else put_self (mk (m_inputPipes c ++ [v]) (m_inputs c))) ;;'
  on_heap (View_destroy inputPipe).

(** The loop of [pullInput] over the pipes from [m_inputs.size()] on; [true]
    when it ran to the end, [false] when it left through
    [return std::nullopt]. *)
Fixpoint pull_loop (pipes : list positive) : M (t * heap In) bool :=
  match pipes with
  | [] => ret true
  | pipe :: pipes' =>
      n ←' on_heap (View_size pipe);
      if 0 <? n then
        x ←' on_heap (View_pop pipe);
        c ←' get_self;
        put_self (mk (m_inputPipes c) (m_inputs c ++ [x])) ;;'
        pull_loop pipes'
      else ret false
  end.

(** [pullInput()].  Were [m_inputs] longer than [m_inputPipes], the loop
    would index past the end of the vector. *)
Definition pullInput : M (t * heap In) (option (list In)) :=
  c ←' get_self;
  if bool_decide (length (m_inputs c) ≤ length (m_inputPipes c))%nat then
    done ←' pull_loop (drop (length (m_inputs c)) (m_inputPipes c));
    if done then
      c' ←' get_self;
      put_self (mk (m_inputPipes c') []) ;;'
      ret (Some (m_inputs c'))
    else ret None
  else undefined.

End ConsumerBus.
Arguments t : clear implicits.
End ConsumerBus.

(** ** [dataflow::ComponentAdaptor::tick] and [dataflow::Circuit::tick] *)

(** The three compiled bodies of [tick], by facets.  The behaviour [impl] is
    user code: it may have effects on the state ([M S]). *)
Definition tick_consumer_producer {S I O}
    (pullInput : M S (option I)) (impl : I → M S O) (pushOutput : O → M S unit) : M S unit :=
  input ←' pullInput;
  match input with
  | Some i => o ←' impl i; pushOutput o
  | None => ret tt
  end.

Definition tick_consumer {S I} (pullInput : M S (option I)) (impl : I → M S unit) : M S unit :=
  input ←' pullInput;
  match input with
  | Some i => impl i
  | None => ret tt
  end.

Definition tick_producer {S O} (impl : M S O) (pushOutput : O → M S unit) : M S unit :=
  o ←' impl; pushOutput o.

(** [Circuit::tick()] *)
Fixpoint Circuit_tick {S} (m_components : list (M S unit)) : M S unit :=
  match m_components with
  | [] => ret tt
  | component :: rest => component ;;' Circuit_tick rest
  end.

(** * Properties *)

(** ** Reading the state *)

Section Observations.
Context {T : Type}.
Implicit Types (h : heap T) (Q : Queue T) (V : View).

(** The range a view covers: the elements of its queue from its offset on;
    nothing when the view is gone or dangling. *)
Definition covered h (v : positive) : list T :=
  match views h !! v with
  | Some V => match lock (m_queue V) h with
              | Some (_, Q) => drop (N.to_nat (m_idx V)) (m_impl Q)
              | None => []
              end
  | None => []
  end.

(** The view object [v] is alive and its [weak_ptr] points to [q]. *)
Definition attached h (q v : positive) : Prop :=
  ∃ V, views h !! v = Some V ∧ m_queue V = Some q.

(** Whether the registered address [v] accounts for one unit of the owed
    count of slot [i] of queue [q]: a view of [q] does when its offset is at
    or before the slot; an address in [m_views] that is not a view of [q] any
    more (a moved-from or destroyed object that was never unregistered) can
    only have been counted. *)
Definition counted h (q : positive) (i : nat) (v : positive) : bool :=
  match views h !! v with
  | Some V => if decide (m_queue V = Some q) then m_idx V <=? N.of_nat i else true
  | None => true
  end.

(** The state invariant: addresses come from the allocator, the two deques
    of a queue have the same length, a view of a live queue is registered
    with an offset within the queue, and every owed count is positive and is
    the number of registered addresses that account for it. *)
Record wf h : Prop := mk_wf {
  wf_queue_addr : ∀ q Q, queues h !! q = Some Q → (q < brk h)%positive;
  wf_view_addr : ∀ v V, views h !! v = Some V → (v < brk h)%positive;
  wf_weak_addr : ∀ v V q, views h !! v = Some V → m_queue V = Some q → (q < brk h)%positive;
  wf_reg_addr : ∀ q Q v, queues h !! q = Some Q → v ∈ m_views Q → (v < brk h)%positive;
  wf_lengths : ∀ q Q, queues h !! q = Some Q →
    length (m_impl Q) = length (m_referenceCounter Q);
  wf_max : ∀ q Q, queues h !! q = Some Q → queue_size Q ≤ size_t_max;
  wf_registered : ∀ q Q v V, queues h !! q = Some Q →
    views h !! v = Some V → m_queue V = Some q →
    v ∈ m_views Q ∧ m_idx V ≤ queue_size Q;
  wf_counts : ∀ q Q i c, queues h !! q = Some Q →
    m_referenceCounter Q !! i = Some c →
    1 ≤ c ∧ c = N.of_nat (size (filter (λ v, counted h q i v) (m_views Q)))
}.

(** The state of a pop that keeps the slot. *)
Definition pop_kept h (q v : positive) Q V (c : N) : heap T :=
  set_queue q
    (mkQueue (m_impl Q) (<[N.to_nat (m_idx V) := c - 1]> (m_referenceCounter Q)) (m_views Q))
    (set_view v (mkView (m_queue V) (m_idx V + 1)) h).

(** The state of a pop that evicts the front slot. *)
Definition pop_evicted h (q v : positive) Q V : heap T :=
  mkHeap (<[q := mkQueue (tail (m_impl Q)) (tail (m_referenceCounter Q)) (m_views Q)]> (queues h))
         (shift_views (m_views Q) (<[v := mkView (m_queue V) (m_idx V + 1)]> (views h)))
         (brk h).

(** What an operation must leave alone for the views to stay what they are:
    the objects that exist, the queue each points to, and the queues alive. *)
Definition same_wiring h h' : Prop :=
  (∀ w, m_queue <$> views h' !! w = m_queue <$> views h !! w) ∧
  (∀ q, is_Some (queues h' !! q) ↔ is_Some (queues h !! q)).

(** The state after [view()] on the queue [q]. *)
Definition with_view h (q : positive) Q : heap T :=
  mkHeap (<[q := mkQueue (m_impl Q) (m_referenceCounter Q) ({[brk h]} ∪ m_views Q)]> (queues h))
         (<[brk h := mkView (Some q) (queue_size Q)]> (views h))
         (Pos.succ (brk h)).

(** The state after a [push] that buffers the value. *)
Definition with_slot h (q : positive) Q (value : T) : heap T :=
  set_queue q (mkQueue (m_impl Q ++ [value])
                       (m_referenceCounter Q ++ [N.of_nat (size (m_views Q))])
                       (m_views Q)) h.

(** The view has something to pop. *)
Definition ready h (v : positive) : bool :=
  match covered h v with [] => false | _ => true end.

(** The view [v] is alive and so is its queue. *)
Definition live_view h (v : positive) : Prop :=
  ∃ V q Q, views h !! v = Some V ∧ m_queue V = Some q ∧ queues h !! q = Some Q.

(** The queues alive were handed out by the allocator. *)
Definition queues_allocated h : Prop :=
  ∀ q, is_Some (queues h !! q) → (q < brk h)%positive.

(** What [push(value)] makes of a queue. *)
Definition pushed Q (value : T) : Queue T :=
  if decide (m_views Q = ∅) then Q
  else mkQueue (m_impl Q ++ [value])
               (m_referenceCounter Q ++ [N.of_nat (size (m_views Q))])
               (m_views Q).

(** What a queue becomes when it is given [o], if anything. *)
Definition deliver Q (o : option T) : Queue T :=
  match o with
  | Some value => pushed Q value
  | None => Q
  end.

(** The queues of a bus producer are distinct and alive: it made them and
    holds their [shared_ptr]s. *)
Definition owned (p : ProducerBus.t) h : Prop :=
  NoDup (ProducerBus.m_outputPipes p) ∧
  Forall (λ q, is_Some (queues h !! q)) (ProducerBus.m_outputPipes p).

(** The moves of a program that makes queues and views, pushes and pops:
    the states they lead to from the empty heap are well-formed (see
    [reachable_wf]).  Copying a view and assigning to one are not among
    them. *)
Inductive step : heap T → heap T → Prop :=
| step_make h q h' : make h = Ok q h' → step h h'
| step_view h q v h' : view q h = Ok v h' → step h h'
| step_push h q Q value h' :
    queues h !! q = Some Q → queue_size Q < size_t_max →
    push q value h = Ok tt h' → step h h'
| step_pop h v x h' : View_pop v h = Ok x h' → step h h'.

Inductive reachable : heap T → Prop :=
| reachable_empty : reachable empty_heap
| reachable_step h h' : reachable h → step h h' → reachable h'.

(** [wf] as a computation, for concrete states. *)
Definition wf_check h : bool :=
  bool_decide
    (map_Forall (λ q Q,
       (q < brk h)%positive ∧
       set_Forall (λ v, (v < brk h)%positive) (m_views Q) ∧
       length (m_impl Q) = length (m_referenceCounter Q) ∧
       queue_size Q ≤ size_t_max ∧
       map_Forall (λ v V, m_queue V = Some q →
                          v ∈ m_views Q ∧ m_idx V ≤ queue_size Q) (views h) ∧
       Forall (λ ic, 1 ≤ ic.2 ∧
                     ic.2 = N.of_nat (size (filter (λ v, counted h q ic.1 v) (m_views Q))))
              (imap pair (m_referenceCounter Q)))
      (queues h)) &&
  bool_decide
    (map_Forall (λ v V,
       (v < brk h)%positive ∧
       from_option (λ q, bool_decide (q < brk h)%positive) true (m_queue V))
      (views h)).

End Observations.


(** ** Concrete states and scripts *)

(** One queue (address 1) that holds [7], owed once, and its only view
    (address 2) at the front. *)
Definition one_reader_heap : heap N :=
  mkHeap {[1%positive := mkQueue [7] [1] {[2%positive]}]}
         {[2%positive := mkView (Some 1%positive) 0]} 3.

(** A queue (address 1) nobody reads. *)
Definition no_reader_heap : heap N :=
  mkHeap {[1%positive := mkQueue [] [] ∅]} ∅ 2.

(** The script that builds [one_reader_heap]. *)
Definition one_reader_script : M (heap N) unit :=
  q ←' make; _ ←' view q; push q 7.

(** [pop] read literally from the specification: the popping view ends one
    step further, and an eviction moves the other registered views back. *)
Definition pop_as_stated {T} (h : heap T) (v : positive) : Prop :=
  ∀ V q Q,
    views h !! v = Some V → m_queue V = Some q → queues h !! q = Some Q →
    m_idx V < queue_size Q →
    ∃ x c h',
      View_pop v h = Ok x h' ∧
      m_impl Q !! N.to_nat (m_idx V) = Some x ∧
      m_referenceCounter Q !! N.to_nat (m_idx V) = Some c ∧
      m_idx <$> views h' !! v = Some (m_idx V + 1) ∧
      if decide (c = 1) then
        m_idx V = 0 ∧
        queues h' !! q =
          Some (mkQueue (tail (m_impl Q)) (tail (m_referenceCounter Q)) (m_views Q)) ∧
        (∀ w W, w ∈ m_views Q → w ≠ v → views h !! w = Some W →
                m_idx <$> views h' !! w = Some (m_idx W - 1))
      else
        queues h' !! q =
          Some (mkQueue (m_impl Q)
                        (<[N.to_nat (m_idx V) := c - 1]> (m_referenceCounter Q))
                        (m_views Q)) ∧
        (∀ w, w ≠ v → views h' !! w = views h !! w).

(** A view is copied while it covers an element, and the original pops.
    Reported: what the copy covered right after the copy, the value popped,
    the queue afterwards, the offset of the copy afterwards, and what
    [size()] and [pop()] of the copy do then. *)
Definition copy_then_pop : M (heap N) (list N * N * list N * option N * bool * bool) :=
  q ←' make;
  a ←' view q;
  push q 7 ;;'
  b ←' View_copy a;
  before ←' (λ h, Ok (covered h b) h);
  x ←' View_pop a;
  Q ←' get_queue q;
  B ←' get_view b;
  λ h, Ok (before, x, m_impl Q,
           Some (m_idx B),
           match View_size b h with Undefined => true | _ => false end,
           match View_pop b h with Undefined => true | _ => false end) h.

(** A consumer with one input that was never wired: its input pipe (address
    1) is the default-constructed view. *)
Definition unwired_heap : heap N := mkHeap ∅ {[1%positive := mkView None 0]} 2.

(** The state a script ends in. *)
Definition final {S A} (m : M S A) (s : S) : S :=
  match m s with
  | Ok _ s' => s'
  | Throw _ s' => s'
  | Blocked s' => s'
  | Undefined => s
  end.

(** A [Consumer<int, int>] wired to two queues through [setInputPipes], as
    the tests do, with the arguments [view()] of each queue. *)
Definition join_wiring : M (heap N) (positive * positive * ConsumerN.t) :=
  q1 ←' make;
  q2 ←' make;
  c ←' ConsumerN.ctor 2;
  p1 ←' view q1;
  p2 ←' view q2;
  ConsumerN.setInputPipes c [p1; p2] ;;'
  ret (q1, q2, c).

(** Wired, and [123] pushed to the first queue only. *)
Definition join_half_fed : M (heap N) ConsumerN.t :=
  w ←' join_wiring;
  push w.1.1 123 ;;'
  ret w.2.

(** Wired, [123] pushed to the first queue and [456] to the second. *)
Definition join_fed : M (heap N) ConsumerN.t :=
  w ←' join_wiring;
  push w.1.1 123 ;;'
  push w.1.2 456 ;;'
  ret w.2.

(** A [Consumer<std::optional<int>>] wired to a queue of optionals (address
    1) through [setInputPipe]; its input pipe is at address 2. *)
Definition optional_consumer_wiring : M (heap (option N)) (positive * Consumer1.t) :=
  q ←' make;
  c ←' Consumer1.ctor;
  p ←' view q;
  Consumer1.setInputPipe c p ;;'
  ret (q, c).

(** A [Producer<std::optional<int>>] with one reader of its output. *)
Definition optional_producer_wiring : M (heap (option N)) (Producer1.t * positive) :=
  p ←' Producer1.ctor;
  v ←' Producer1.getOutputPipe p;
  ret (p, v).

(** A [Consumer<int[]>] wired to two queues through [addInputPipe], as the
    test [consumer/bus] does.  The flags say whether each [push_back]
    reallocates. *)
Definition bus_wiring (realloc1 realloc2 : bool)
  : M (ConsumerBus.t N * heap N) (positive * positive) :=
  q1 ←' on_heap make;
  q2 ←' on_heap make;
  p1 ←' on_heap (view q1);
  ConsumerBus.addInputPipe realloc1 p1 ;;'
  p2 ←' on_heap (view q2);
  ConsumerBus.addInputPipe realloc2 p2 ;;'
  ret (q1, q2).

(** The component of the test: its behaviour records the inputs it is
    invoked with. *)
Definition bus_tick : M (list (list N) * (ConsumerBus.t N * heap N)) unit :=
  tick_consumer (on_heap ConsumerBus.pullInput) (λ inputs s, Ok tt (s.1 ++ [inputs], s.2)).

(** The test [consumer/bus], with one more tick at the end: the record of
    invocations after each tick. *)
Definition bus_test (realloc1 realloc2 : bool)
  : M (list (list N) * (ConsumerBus.t N * heap N)) (list (list (list N))) :=
  w ←' on_heap (bus_wiring realloc1 realloc2);
  bus_tick ;;'
  log0 ←' get_self;
  on_heap (on_heap (push w.1 123)) ;;'
  bus_tick ;;'
  log1 ←' get_self;
  on_heap (on_heap (push w.2 456)) ;;'
  bus_tick ;;'
  log2 ←' get_self;
  bus_tick ;;'
  log3 ←' get_self;
  ret [log0; log1; log2; log3].

(** Wired, and [456] pushed to the second queue only. *)
Definition bus_second_fed : M (ConsumerBus.t N * heap N) unit :=
  w ←' bus_wiring false true;
  on_heap (push w.2 456).

(** Wired, [123] pushed to the first queue and [456] to the second. *)
Definition bus_both_fed : M (ConsumerBus.t N * heap N) unit :=
  w ←' bus_wiring false true;
  on_heap (push w.1 123) ;;'
  on_heap (push w.2 456).

(** [pullInput] of the bus consumer read literally from the specification:
    an attempt pops every input view that has not contributed to the round
    and is ready. *)
Definition bus_pull_as_stated {T} (c : ConsumerBus.t T) (h : heap T) : Prop :=
  ∀ r c' h' i pipe x rest,
    ConsumerBus.pullInput (c, h) = Ok r (c', h') →
    (length (ConsumerBus.m_inputs c) ≤ i)%nat →
    ConsumerBus.m_inputPipes c !! i = Some pipe →
    covered h pipe = x :: rest →
    covered h' pipe = rest.

(** [n] rounds of a tick. *)
Fixpoint ticks {S} (n : nat) (tick : M S unit) : M S unit :=
  match n with
  | O => ret tt
  | S n' => tick ;;' ticks n' tick
  end.

(** The test [producer/bus]: a [Producer<int[]>] whose behaviour returns
    [{1, 2}], and three output pipes obtained before any tick. *)
Definition bus_producer_wiring
  : M (ProducerBus.t * heap N) (positive * positive * positive) :=
  pipe1 ←' ProducerBus.getOutputPipe 0;
  pipe2 ←' ProducerBus.getOutputPipe 1;
  pipe3 ←' ProducerBus.getOutputPipe 2;
  ret (pipe1, pipe2, pipe3).

Definition bus_producer_tick : M (ProducerBus.t * heap N) unit :=
  tick_producer (ret [1; 2]) ProducerBus.pushOutput.

(** One tick of the circuit, then [pop] of the first two pipes and [size] of
    the third. *)
Definition bus_producer_test : M (ProducerBus.t * heap N) (N * N * N) :=
  w ←' bus_producer_wiring;
  Circuit_tick [bus_producer_tick] ;;'
  x ←' on_heap (View_pop w.1.1);
  y ←' on_heap (View_pop w.1.2);
  z ←' on_heap (View_size w.2);
  ret (x, y, z).

(** [n] ticks, then [size] of the third pipe. *)
Definition bus_producer_idle (n : nat) : M (ProducerBus.t * heap N) N :=
  w ←' bus_producer_wiring;
  ticks n bus_producer_tick ;;'
  on_heap (View_size w.2).

(** The same with a behaviour that returns [{1, std::nullopt}], for a
    [Producer<int[]>]: the pops and sizes of the test [producer/bus_optional]. *)
Definition bus_producer_optional_test : M (ProducerBus.t * heap N) (N * N * N) :=
  w ←' bus_producer_wiring;
  tick_producer (ret [Some 1; None]) ProducerBus.pushOutput_optional ;;'
  x ←' on_heap (View_pop w.1.1);
  y ←' on_heap (View_size w.1.2);
  z ←' on_heap (View_size w.2);
  ret (x, y, z).

(** Two views read a queue that holds [10] and [20]; the second view pops
    [10], is copied, and the original and the copy both pop [20].  Reported:
    the three values popped, the queue and its counts afterwards, and the
    offset of the first view, which has popped nothing. *)
Definition copy_then_pop_behind
  : M (heap N) (N * N * N * list N * list N * N) :=
  q ←' make;
  a ←' view q;
  b ←' view q;
  push q 10 ;;'
  push q 20 ;;'
  x ←' View_pop b;
  c ←' View_copy b;
  y ←' View_pop b;
  z ←' View_pop c;
  Q ←' get_queue q;
  A ←' get_view a;
  ret (x, y, z, m_impl Q, m_referenceCounter Q, m_idx A).

(** A queue holding one element, with its reader [2] and the address [3] of
    an object that was moved from and destroyed without being unregistered:
    the state [Consumer1.setInputPipe] leaves behind once a value has been
    pushed. *)
Definition stale_reader_heap : heap N :=
  mkHeap {[1%positive := mkQueue [7] [2] {[2%positive; 3%positive]}]}
         {[2%positive := mkView (Some 1%positive) 0]} 4.

(** The state [Consumer1.setInputPipe] ends in when the consumer's own view
    [d] has no live queue and the parameter [p] is a view of [q]. *)
Definition wired {T} (h : heap T) (d p q : positive) (Q : Queue T) (idx : N) : heap T :=
  free_view p
    (set_queue q (mkQueue (m_impl Q) (m_referenceCounter Q) ({[d]} ∪ m_views Q))
       (set_view d (mkView (Some q) idx) (set_view p (mkView None idx) h))).

(** A consumer's default-constructed view [1], and an empty queue [2] with a
    view [3] of it, as [getOutputPipe] returns it. *)
Definition wiring_heap : heap N :=
  mkHeap {[2%positive := mkQueue [] [] {[3%positive]}]}
         {[1%positive := mkView None 0; 3%positive := mkView (Some 2%positive) 0]} 4.

(** ** Components in a row *)

(** Three components over queues of one element type, as [makeComponent]
    builds them from a behaviour and its facets: a source whose behaviour
    returns [a], a transformer whose behaviour is the function [f], and a
    sink whose behaviour records what it is invoked with.  The record is the
    first component of the state. *)
Definition source_tick {T} (a : T) (p : Producer1.t) : M (list T * heap T) unit :=
  tick_producer (ret a) (λ o, on_heap (Producer1.pushOutput p o)).

Definition transform_tick {T} (f : T → T) (c : Consumer1.t) (p : Producer1.t)
  : M (list T * heap T) unit :=
  tick_consumer_producer (on_heap (Consumer1.pullInput c)) (λ i, ret (f i))
                         (λ o, on_heap (Producer1.pushOutput p o)).

Definition sink_tick {T} (c : Consumer1.t) : M (list T * heap T) unit :=
  tick_consumer (on_heap (Consumer1.pullInput c)) (λ i s, Ok tt (s.1 ++ [i], s.2)).

(** The components of a circuit to which the three were added in this
    order. *)
Definition pipeline {T} (a : T) (f : T → T)
    (p1 : Producer1.t) (c1 : Consumer1.t) (p2 : Producer1.t) (c2 : Consumer1.t)
  : list (M (list T * heap T) unit) :=
  [source_tick a p1; transform_tick f c1 p2; sink_tick c2].

(** Every queue of [h] is alive in [h'] and holds at most [k q] elements
    more. *)
Definition grown {T} (h h' : heap T) (k : positive → nat) : Prop :=
  ∀ q Q, queues h !! q = Some Q →
    ∃ Q', queues h' !! q = Some Q' ∧ (length (m_impl Q') ≤ length (m_impl Q) + k q)%nat.

(** One more element in the queue [q], none elsewhere. *)
Definition one_at (q : positive) : positive → nat :=
  λ q', if decide (q' = q) then 1%nat else 0%nat.

(** A source writing to the queue [1], read by the view [3] of a
    transformer that writes to the queue [2], read by the view [4] of a
    sink; nothing is buffered. *)
Definition pipeline_heap : heap N :=
  mkHeap {[1%positive := mkQueue [] [] {[3%positive]};
           2%positive := mkQueue [] [] {[4%positive]}]}
         {[3%positive := mkView (Some 1%positive) 0;
           4%positive := mkView (Some 2%positive) 0]} 5.

(** [Circuit::add]: [m_components.push_back(std::move(component))], on the
    component [makeComponent] built. *)
Definition Circuit_add {S} (component : M S unit) (m_components : list (M S unit))
  : list (M S unit) :=
  m_components ++ [component].

(** ** The life of views and queues *)


(** [consumer.setInputPipe(queue->view())], the way a consumer with one
    input is connected to a queue. *)
Definition connect {T} (q : positive) (c : Consumer1.t) : M (heap T) unit :=
  v ←' view q; Consumer1.setInputPipe c v.

(** A value is pushed to the queue and the consumer pulls, for every value
    of a list in turn. *)
Definition feed_and_pull {T} (q : positive) (c : Consumer1.t) (values : list T)
  : M (heap T) (list (option T)) :=
  for_each (λ x, push q x ;;' Consumer1.pullInput c) values.

(** A consumer's default-constructed view [1] and an empty queue [2]. *)
Definition unconnected_heap : heap N :=
  mkHeap {[2%positive := mkQueue [] [] ∅]} {[1%positive := mkView None 0]} 3.

(** The state the move assignment [d = std::move(p)] ends in when [d] has no
    live queue and [p] is a view of [q]. *)
Definition assigned {T} (h : heap T) (d p q : positive) (Q : Queue T) (idx : N) : heap T :=
  set_queue q (mkQueue (m_impl Q) (m_referenceCounter Q) ({[d]} ∪ m_views Q))
    (set_view d (mkView (Some q) idx) (set_view p (mkView None idx) h)).

(** The same queues are alive, with the same elements. *)
Definition same_elements {T} (h h' : heap T) : Prop :=
  ∀ q, m_impl <$> queues h' !! q = m_impl <$> queues h !! q.

(** The view has no live queue. *)
Definition unwired {T} (h : heap T) (d : positive) : Prop :=
  ∃ D, views h !! d = Some D ∧ lock (m_queue D) h = None.

(** The view is a view of a live queue that holds nothing. *)
Definition fresh_pipe {T} (h : heap T) (p : positive) : Prop :=
  ∃ P q Q, views h !! p = Some P ∧ m_queue P = Some q ∧
           queues h !! q = Some Q ∧ m_impl Q = [].

(** A consumer's two default-constructed views [1] and [2], and views [5]
    and [6] of two empty queues [3] and [4]. *)
Definition join_wiring_heap : heap N :=
  mkHeap {[3%positive := mkQueue [] [] {[5%positive]};
           4%positive := mkQueue [] [] {[6%positive]}]}
         {[1%positive := mkView None 0; 2%positive := mkView None 0;
           5%positive := mkView (Some 3%positive) 0;
           6%positive := mkView (Some 4%positive) 0]} 7.

(** The state after a view object at the address [a] is made a view of the
    queue [q], at its end, and registered: what [view()] does at a new
    address, and the copy assignment at the address of [this]. *)
Definition view_at {T} (h : heap T) (a q : positive) (Q : Queue T) : heap T :=
  mkHeap (<[q := mkQueue (m_impl Q) (m_referenceCounter Q) ({[a]} ∪ m_views Q)]> (queues h))
         (<[a := mkView (Some q) (queue_size Q)]> (views h))
         (brk h).

(** Two readers [2] and [3] of a queue holding [7]: [2] has it to read, [3]
    has read it. *)
Definition two_reader_heap : heap N :=
  mkHeap {[1%positive := mkQueue [7] [1] {[2%positive; 3%positive]}]}
         {[2%positive := mkView (Some 1%positive) 0;
           3%positive := mkView (Some 1%positive) 1]} 4.
(** ** Elementary facts *)

Lemma decr_pos n : 1 ≤ n → decr n = n - 1.
Proof. unfold decr. intros H. destruct (N.eqb_spec n 0); [lia | done]. Qed.

Lemma incr_lt n : n < size_t_max → incr n = n + 1.
Proof. unfold incr. intros H. destruct (N.eqb_spec n size_t_max); [lia | done]. Qed.

Lemma bind_ok {S A B} (m : M S A) (k : A → M S B) s a s' :
  m s = Ok a s' → bind m k s = k a s'.
Proof. unfold bind. by intros ->. Qed.

Lemma bind_throw {S A B} (m : M S A) (k : A → M S B) s e s' :
  m s = Throw e s' → bind m k s = Throw e s'.
Proof. unfold bind. by intros ->. Qed.

Lemma bind_ok_inv {S A B} (m : M S A) (k : A → M S B) s b s2 :
  bind m k s = Ok b s2 → ∃ a s1, m s = Ok a s1 ∧ k a s1 = Ok b s2.
Proof. unfold bind. destruct (m s); try done. eauto. Qed.

Section ViewFacts.
Context {T : Type}.
Implicit Types (h : heap T) (Q : Queue T) (V : View).

Lemma get_view_ok h v V : views h !! v = Some V → get_view v h = Ok V h.
Proof. unfold get_view. by intros ->. Qed.

Lemma get_queue_ok h q Q : queues h !! q = Some Q → get_queue q h = Ok Q h.
Proof. unfold get_queue. by intros ->. Qed.

Lemma lock_some h q Q : queues h !! q = Some Q → lock (Some q) h = Some (q, Q).
Proof. unfold lock. by intros ->. Qed.

Lemma lock_dead h q : queues h !! q = None → lock (Some q) h = None.
Proof. unfold lock. by intros ->. Qed.

(** Unregistering an address that is not registered does nothing. *)
Lemma unregisterView_absent h q Q v :
  queues h !! q = Some Q → v ∉ m_views Q → unregisterView q v h = Ok tt h.
Proof.
  intros Hq Hv. unfold unregisterView.
  rewrite (bind_ok _ _ _ _ _ (get_queue_ok _ _ _ Hq)).
  by rewrite bool_decide_eq_false_2.
Qed.

(** The members of a view whose [weak_ptr] does not lock. *)
Lemma dangling_members h v V :
  views h !! v = Some V → lock (m_queue V) h = None →
  View_pop v h = Throw DanglingView h ∧
  View_waitFor v h = Throw DanglingView h ∧
  View_size v h = Throw DanglingView h ∧
  View_clear v h = Throw DanglingView h ∧
  View_begin v h = Throw DanglingView h ∧
  View_end v h = Throw DanglingView h.
Proof.
  intros Hv Hl.
  unfold View_pop, View_waitFor, View_size, View_clear, View_begin, View_end.
  rewrite !(bind_ok _ _ _ _ _ (get_view_ok _ _ _ Hv)), Hl. done.
Qed.

Lemma dangling_pullInput h c V :
  views h !! Consumer1.m_inputPipe c = Some V → lock (m_queue V) h = None →
  Consumer1.pullInput c h = Throw DanglingView h.
Proof.
  intros Hv Hl. unfold Consumer1.pullInput.
  apply bind_throw. by apply (dangling_members h _ V).
Qed.

End ViewFacts.

(** ** Counting registered addresses *)

Section Counting.
Context {T : Type}.
Implicit Types (h : heap T) (Q : Queue T) (V : View) (X : gset positive).

Lemma counted_attached h q i v V :
  views h !! v = Some V → m_queue V = Some q →
  counted h q i v = (m_idx V <=? N.of_nat i).
Proof. unfold counted. intros -> Hq. by rewrite decide_True. Qed.

Lemma counted_elsewhere h q i v V :
  views h !! v = Some V → m_queue V ≠ Some q → counted h q i v = true.
Proof. unfold counted. intros -> Hq. by rewrite decide_False. Qed.

Lemma counted_gone h q i v : views h !! v = None → counted h q i v = true.
Proof. unfold counted. by intros ->. Qed.

Lemma counted_false h q i v :
  counted h q i v = false →
  ∃ V, views h !! v = Some V ∧ m_queue V = Some q ∧ N.of_nat i < m_idx V.
Proof.
  unfold counted. destruct (views h !! v) as [V|]; [|done].
  destruct (decide (m_queue V = Some q)); [|done].
  intros H%N.leb_gt. eauto.
Qed.

Lemma counted_mono h q i j v : (i ≤ j)%nat → counted h q i v → counted h q j v.
Proof.
  unfold counted. intros Hij. destruct (views h !! v) as [V|]; [|done].
  destruct (decide (m_queue V = Some q)); [|done].
  rewrite !Is_true_true, !N.leb_le. lia.
Qed.

Lemma filter_agree (P1 P2 : positive → Prop)
    `{!∀ x, Decision (P1 x)} `{!∀ x, Decision (P2 x)} X :
  (∀ x, x ∈ X → P1 x ↔ P2 x) → filter P1 X = filter P2 X.
Proof.
  intros Hagree. apply set_eq. intros x. rewrite !elem_of_filter.
  split; intros [Hp Hx]; (split; [by apply (Hagree x Hx)|done]).
Qed.

Lemma size_filter_drop_one (P1 P2 : positive → Prop)
    `{!∀ x, Decision (P1 x)} `{!∀ x, Decision (P2 x)} X x :
  x ∈ X → P1 x → ¬ P2 x → (∀ y, y ∈ X → y ≠ x → P1 y ↔ P2 y) →
  size (filter P1 X) = S (size (filter P2 X)).
Proof.
  intros Hx Hp1 Hp2 Hrest.
  assert (filter P1 X = {[x]} ∪ filter P2 X) as ->.
  { apply set_eq. intros y. rewrite elem_of_union, !elem_of_filter, elem_of_singleton.
    split.
    - intros [Hy ?]. destruct (decide (y = x)) as [->|]; [by left|].
      right. split; [|done]. by apply Hrest.
    - intros [->|[Hy ?]]; [done|]. split; [|done].
      destruct (decide (y = x)) as [->|]; [done|]. by apply Hrest. }
  rewrite size_union, size_singleton; [done|].
  intros y. rewrite elem_of_singleton, elem_of_filter. intros -> [Hq _]. done.
Qed.

Lemma size_one_unique X x y : size X = 1%nat → x ∈ X → y ∈ X → x = y.
Proof.
  intros Hsz Hx Hy. apply size_1_elem_of in Hsz as [z Hz].
  rewrite Hz in Hx, Hy. apply elem_of_singleton in Hx, Hy. congruence.
Qed.

Lemma lookup_shift_views X (vs : gmap positive View) v :
  shift_views X vs !! v =
  (λ V, if bool_decide (v ∈ X) then mkView (m_queue V) (decr (m_idx V)) else V) <$> vs !! v.
Proof. unfold shift_views. rewrite map_lookup_imap. by destruct (vs !! v). Qed.

End Counting.

(** ** [pop] on a well-formed state *)

Section Pop.
Context {T : Type}.
Implicit Types (h : heap T) (Q : Queue T) (V : View) (X : gset positive).

Lemma View_pop_unfold h v V q Q x :
  views h !! v = Some V → m_queue V = Some q → queues h !! q = Some Q →
  m_impl Q !! N.to_nat (m_idx V) = Some x →
  View_pop v h =
  (decreaseReferenceCount q (m_idx V) ;;' ret x)
    (set_view v (mkView (m_queue V) (incr (m_idx V))) h).
Proof.
  intros Hv HVq Hq Hx. unfold View_pop.
  rewrite (bind_ok _ _ _ _ _ (get_view_ok _ _ _ Hv)).
  rewrite HVq, (lock_some _ _ _ Hq). unfold view_begin, queue_size.
  apply lookup_lt_Some in Hx as Hlt.
  destruct (N.leb_spec (m_idx V) (N.of_nat (length (m_impl Q)))); [|lia].
  rewrite Hx. done.
Qed.

Lemma wf_counter_at h q Q i :
  wf h → queues h !! q = Some Q → (i < length (m_impl Q))%nat →
  ∃ c, m_referenceCounter Q !! i = Some c ∧ 1 ≤ c ∧
       c = N.of_nat (size (filter (λ v, counted h q i v) (m_views Q))).
Proof.
  intros Hwf Hq Hi.
  destruct (lookup_lt_is_Some_2 (m_referenceCounter Q) i) as [c Hc].
  { by rewrite <- (wf_lengths h Hwf q Q). }
  exists c. split; [done|]. by apply (wf_counts h Hwf q Q).
Qed.

(** When a view of [q] stands on a slot whose owed count is one, it is the
    only address registered that accounts for the slot: the slot is the front
    one, every registered address is a view of [q], and the other views are
    past the front. *)
Lemma wf_last_reader h q Q v V :
  wf h → queues h !! q = Some Q →
  views h !! v = Some V → m_queue V = Some q →
  m_referenceCounter Q !! N.to_nat (m_idx V) = Some 1 →
  m_idx V = 0 ∧
  ∀ w, w ∈ m_views Q → w ≠ v →
       ∃ W, views h !! w = Some W ∧ m_queue W = Some q ∧ 1 ≤ m_idx W.
Proof.
  intros Hwf Hq Hv HVq Hc.
  destruct (wf_registered h Hwf q Q v V Hq Hv HVq) as [Hreg Hle].
  destruct (wf_counts h Hwf q Q _ _ Hq Hc) as [_ Hsize].
  assert (size (filter (λ w, counted h q (N.to_nat (m_idx V)) w) (m_views Q)) = 1%nat)
    as Hone by lia.
  assert (v ∈ filter (λ w, counted h q (N.to_nat (m_idx V)) w) (m_views Q)) as Hvin.
  { apply elem_of_filter. split; [|done].
    rewrite (counted_attached h q _ v V Hv HVq). apply Is_true_true, N.leb_le. lia. }
  assert (∀ w, w ∈ m_views Q → w ≠ v → counted h q (N.to_nat (m_idx V)) w = false)
    as Hothers.
  { intros w Hw Hne. destruct (counted h q (N.to_nat (m_idx V)) w) eqn:E; [|done].
    exfalso. apply Hne. apply (size_one_unique _ _ _ Hone); [|done].
    apply elem_of_filter. by rewrite E. }
  split.
  - apply lookup_lt_Some in Hc as Hlt.
    destruct (wf_counter_at h q Q 0 Hwf Hq) as (c0 & Hc0 & Hpos & Hsz0).
    { rewrite (wf_lengths h Hwf q Q Hq). lia. }
    destruct (set_choose_L (filter (λ w, counted h q 0 w) (m_views Q))) as [w Hw].
    { intros Hempty. rewrite Hempty, size_empty in Hsz0. lia. }
    apply elem_of_filter in Hw as [Hcw Hwin].
    destruct (decide (w = v)) as [->|Hne].
    + rewrite (counted_attached h q _ v V Hv HVq) in Hcw.
      apply Is_true_true, N.leb_le in Hcw. lia.
    + apply (counted_mono h q 0 (N.to_nat (m_idx V))) in Hcw; [|lia].
      rewrite (Hothers w Hwin Hne) in Hcw. done.
  - intros w Hw Hne. destruct (counted_false h q _ w (Hothers w Hw Hne)) as (W & ? & ? & ?).
    exists W. split_and!; [done..|lia].
Qed.

Lemma decreaseReferenceCount_keep h q Q i c :
  queues h !! q = Some Q → m_referenceCounter Q !! N.to_nat i = Some c → 2 ≤ c →
  decreaseReferenceCount q i h =
  Ok tt (set_queue q
           (mkQueue (m_impl Q) (<[N.to_nat i := c - 1]> (m_referenceCounter Q)) (m_views Q)) h).
Proof.
  intros Hq Hc Hge. unfold decreaseReferenceCount.
  rewrite (bind_ok _ _ _ _ _ (get_queue_ok _ _ _ Hq)), Hc.
  rewrite decr_pos by lia.
  destruct (N.eqb_spec (c - 1) 0); [lia|done].
Qed.

Lemma decreaseReferenceCount_evict h q Q i x impl' :
  queues h !! q = Some Q → m_referenceCounter Q !! N.to_nat i = Some 1 →
  m_impl Q = x :: impl' → m_views Q ⊆ dom (views h) →
  decreaseReferenceCount q i h =
  Ok tt (mkHeap (<[q := mkQueue impl' (tail (<[N.to_nat i := 0]> (m_referenceCounter Q)))
                                (m_views Q)]> (queues h))
                (shift_views (m_views Q) (views h)) (brk h)).
Proof.
  intros Hq Hc Himpl Hdom. unfold decreaseReferenceCount.
  rewrite (bind_ok _ _ _ _ _ (get_queue_ok _ _ _ Hq)), Hc.
  rewrite decr_pos by lia. simpl. rewrite Himpl.
  by rewrite bool_decide_eq_true_2.
Qed.

End Pop.

Section PopOutcome.
Context {T : Type}.
Implicit Types (h : heap T) (Q : Queue T) (V : View) (X : gset positive).

Lemma View_pop_kept h q Q v V x c :
  wf h → queues h !! q = Some Q → views h !! v = Some V → m_queue V = Some q →
  m_impl Q !! N.to_nat (m_idx V) = Some x →
  m_referenceCounter Q !! N.to_nat (m_idx V) = Some c → 2 ≤ c →
  View_pop v h = Ok x (pop_kept h q v Q V c).
Proof.
  intros Hwf Hq Hv HVq Hx Hc Hge.
  rewrite (View_pop_unfold h v V q Q x) by done.
  apply lookup_lt_Some in Hx as Hlt.
  pose proof (wf_max h Hwf q Q Hq) as Hmax. unfold queue_size in Hmax.
  rewrite incr_lt by lia.
  erewrite bind_ok; [done|].
  by rewrite (decreaseReferenceCount_keep _ q Q _ c).
Qed.

Lemma View_pop_evicted h q Q v V x :
  wf h → queues h !! q = Some Q → views h !! v = Some V → m_queue V = Some q →
  m_impl Q !! N.to_nat (m_idx V) = Some x →
  m_referenceCounter Q !! N.to_nat (m_idx V) = Some 1 →
  View_pop v h = Ok x (pop_evicted h q v Q V).
Proof.
  intros Hwf Hq Hv HVq Hx Hc.
  rewrite (View_pop_unfold h v V q Q x) by done.
  apply lookup_lt_Some in Hx as Hlt.
  pose proof (wf_max h Hwf q Q Hq) as Hmax. unfold queue_size in Hmax.
  rewrite incr_lt by lia.
  destruct (wf_last_reader h q Q v V Hwf Hq Hv HVq Hc) as [Hzero Hothers].
  destruct (m_impl Q) as [|x0 impl'] eqn:Himpl; [simpl in Hlt; lia|].
  erewrite bind_ok; [done|].
  rewrite (decreaseReferenceCount_evict _ q Q _ x0 impl'); try done.
  - unfold pop_evicted. rewrite Himpl, Hzero. simpl.
    by destruct (m_referenceCounter Q).
  - simpl. intros w Hw. apply elem_of_dom.
    destruct (decide (w = v)) as [->|Hne].
    + rewrite lookup_insert_eq. eauto.
    + rewrite lookup_insert_ne by done.
      destruct (Hothers w Hw Hne) as (W & -> & _). eauto.
Qed.

End PopOutcome.

Section PopInvariant.
Context {T : Type}.
Implicit Types (h : heap T) (Q : Queue T) (V : View) (X : gset positive).

Lemma tail_length {A} (l : list A) : length (tail l) = pred (length l).
Proof. by destruct l. Qed.

Lemma counted_same_view h1 h2 q i w :
  views h1 !! w = views h2 !! w → counted h1 q i w = counted h2 q i w.
Proof. unfold counted. by intros ->. Qed.

Lemma wf_pop_kept h q Q v V c :
  wf h → queues h !! q = Some Q → views h !! v = Some V → m_queue V = Some q →
  m_idx V < queue_size Q →
  m_referenceCounter Q !! N.to_nat (m_idx V) = Some c → 2 ≤ c →
  wf (pop_kept h q v Q V c).
Proof.
  intros Hwf Hq Hv HVq Hlt Hc Hge.
  destruct (wf_registered h Hwf q Q v V Hq Hv HVq) as [Hreg _].
  assert (∀ q' i w, w ≠ v → counted (pop_kept h q v Q V c) q' i w = counted h q' i w)
    as Hsame.
  { intros q' i w Hne. apply counted_same_view. simpl. by rewrite lookup_insert_ne. }
  assert (∀ q' i, q' ≠ q → counted (pop_kept h q v Q V c) q' i v = counted h q' i v)
    as Hforeign.
  { intros q' i Hne.
    rewrite (counted_elsewhere h q' i v V), (counted_elsewhere _ q' i v (mkView (m_queue V) (m_idx V + 1)));
      simpl; rewrite ?lookup_insert_eq, ?HVq; congruence. }
  split; simpl.
  - intros q' Q' [[-> <-]|[_ H']]%lookup_insert_Some; eauto using wf_queue_addr.
  - intros w W [[-> <-]|[_ H']]%lookup_insert_Some; eauto using wf_view_addr.
  - intros w W q' [[-> <-]|[_ H']]%lookup_insert_Some Hw; eauto using wf_weak_addr.
  - intros q' Q' w [[-> <-]|[_ H']]%lookup_insert_Some Hw; eauto using wf_reg_addr.
  - intros q' Q' [[-> <-]|[_ H']]%lookup_insert_Some; simpl.
    + rewrite length_insert. by apply (wf_lengths h Hwf q' Q).
    + by apply (wf_lengths h Hwf q').
  - intros q' Q' [[-> <-]|[_ H']]%lookup_insert_Some.
    + apply (wf_max h Hwf q' Q Hq).
    + by apply (wf_max h Hwf q').
  - intros q' Q' w W HQ' [[-> <-]|[Hne HW]]%lookup_insert_Some HWq; simpl in *.
    + assert (q' = q) as -> by congruence.
      rewrite lookup_insert_eq in HQ'. injection HQ' as <-. simpl.
      split; [done|]. unfold queue_size in *. simpl. lia.
    + apply lookup_insert_Some in HQ' as [[-> <-]|[_ HQ']].
      * apply (wf_registered h Hwf q' Q w W); done.
      * apply (wf_registered h Hwf q' Q' w W); done.
  - intros q' Q' i c' [[-> <-]|[Hne HQ']]%lookup_insert_Some Hc'; simpl in *.
    + destruct (decide (i = N.to_nat (m_idx V))) as [->|Hi].
      * rewrite list_lookup_insert_eq in Hc' by (by eapply lookup_lt_Some).
        injection Hc' as <-. split; [lia|].
        destruct (wf_counts h Hwf q' Q _ _ Hq Hc) as [_ Hsize].
        rewrite (size_filter_drop_one
                   (λ w, counted h q' (N.to_nat (m_idx V)) w)
                   (λ w, counted (pop_kept h q' v Q V c) q' (N.to_nat (m_idx V)) w)
                   (m_views Q) v) in Hsize; [lia|done|..].
        -- rewrite (counted_attached h q' _ v V Hv HVq). apply Is_true_true, N.leb_le. lia.
        -- rewrite (counted_attached _ q' _ v (mkView (m_queue V) (m_idx V + 1)));
             simpl; rewrite ?lookup_insert_eq; try done.
           intros Hle%Is_true_true%N.leb_le. lia.
        -- intros w _ Hne. by rewrite Hsame.
      * rewrite list_lookup_insert_ne in Hc' by done.
        destruct (wf_counts h Hwf q' Q _ _ Hq Hc') as [Hpos Hsize].
        split; [done|]. rewrite Hsize. do 2 f_equal.
        apply filter_agree. intros w _.
        destruct (decide (w = v)) as [->|Hne]; [|by rewrite Hsame].
        rewrite (counted_attached h q' _ v V Hv HVq).
        rewrite (counted_attached _ q' _ v (mkView (m_queue V) (m_idx V + 1)));
          simpl; rewrite ?lookup_insert_eq; try done.
        rewrite !Is_true_true, !N.leb_le. lia.
    + destruct (wf_counts h Hwf q' Q' _ _ HQ' Hc') as [Hpos Hsize].
      split; [done|]. rewrite Hsize. do 2 f_equal.
      apply filter_agree. intros w _.
      destruct (decide (w = v)) as [->|Hne']; [by rewrite Hforeign|by rewrite Hsame].
Qed.

(** The views after an evicting pop. *)
Lemma pop_evicted_views h q Q v V :
  wf h → queues h !! q = Some Q → views h !! v = Some V → m_queue V = Some q →
  m_referenceCounter Q !! N.to_nat (m_idx V) = Some 1 →
  m_idx V = 0 ∧ v ∈ m_views Q ∧
  views (pop_evicted h q v Q V) !! v = Some (mkView (Some q) 0) ∧
  (∀ w, w ∈ m_views Q → w ≠ v →
     ∃ W, views h !! w = Some W ∧ m_queue W = Some q ∧ 1 ≤ m_idx W ∧
          views (pop_evicted h q v Q V) !! w = Some (mkView (Some q) (m_idx W - 1))) ∧
  (∀ w, w ∉ m_views Q → views (pop_evicted h q v Q V) !! w = views h !! w).
Proof.
  intros Hwf Hq Hv HVq Hc.
  destruct (wf_registered h Hwf q Q v V Hq Hv HVq) as [Hreg _].
  destruct (wf_last_reader h q Q v V Hwf Hq Hv HVq Hc) as [Hzero Hothers].
  split_and!; try done.
  - simpl. rewrite lookup_shift_views, lookup_insert_eq. simpl.
    rewrite bool_decide_eq_true_2 by done. by rewrite HVq, Hzero.
  - intros w Hw Hne. destruct (Hothers w Hw Hne) as (W & HW & HWq & Hpos).
    exists W. split_and!; try done.
    simpl. rewrite lookup_shift_views, lookup_insert_ne, HW by done. simpl.
    rewrite bool_decide_eq_true_2 by done. by rewrite HWq, decr_pos.
  - intros w Hw. simpl. rewrite lookup_shift_views.
    rewrite lookup_insert_ne by (intros ->; done).
    rewrite bool_decide_eq_false_2 by done. by destruct (views h !! w).
Qed.

Lemma wf_pop_evicted h q Q v V :
  wf h → queues h !! q = Some Q → views h !! v = Some V → m_queue V = Some q →
  m_idx V < queue_size Q →
  m_referenceCounter Q !! N.to_nat (m_idx V) = Some 1 →
  wf (pop_evicted h q v Q V).
Proof.
  intros Hwf Hq Hv HVq Hlt Hc.
  destruct (pop_evicted_views h q Q v V Hwf Hq Hv HVq Hc)
    as (Hzero & Hreg & Hv' & Hin & Hout).
  assert (∀ w W', views (pop_evicted h q v Q V) !! w = Some W' →
            ∃ W, views h !! w = Some W ∧ m_queue W' = m_queue W ∧
                 (w ∉ m_views Q → W' = W) ∧
                 (w ∈ m_views Q → m_queue W = Some q ∧
                    m_idx W' = if decide (w = v) then 0 else m_idx W - 1) ∧
                 (w ∈ m_views Q → w ≠ v → 1 ≤ m_idx W)) as Hback.
  { intros w W' HW'. destruct (decide (w ∈ m_views Q)) as [Hw|Hw].
    - destruct (decide (w = v)) as [->|Hne].
      + rewrite Hv' in HW'. injection HW' as <-. exists V. simpl.
        split_and!; done.
      + destruct (Hin w Hw Hne) as (W & HW & HWq & Hpos & Hnew).
        rewrite Hnew in HW'. injection HW' as <-. exists W. simpl.
        split_and!; done.
    - rewrite (Hout w Hw) in HW'. exists W'. split_and!; done. }
  assert (∀ q' i w, q' ≠ q → counted (pop_evicted h q v Q V) q' i w = counted h q' i w)
    as Hforeign.
  { intros q' i w Hne. unfold counted.
    destruct (views (pop_evicted h q v Q V) !! w) as [W'|] eqn:HW'.
    - destruct (Hback w W' HW') as (W & -> & HWq & Hsame & Hmoved & _).
      rewrite HWq. destruct (decide (m_queue W = Some q')) as [HWq'|]; [|done].
      rewrite Hsame; [done|]. intros Hw. destruct (Hmoved Hw). congruence.
    - destruct (decide (w ∈ m_views Q)) as [Hw|Hw].
      + destruct (decide (w = v)) as [->|Hne']; [congruence|].
        destruct (Hin w Hw Hne') as (W & _ & _ & _ & Hnew). congruence.
      + rewrite (Hout w Hw) in HW'. by rewrite HW'. }
  assert (length (m_impl Q) ≠ 0%nat) as Hlen by (unfold queue_size in Hlt; lia).
  split; simpl.
  - intros q' Q' [[-> <-]|[_ H']]%lookup_insert_Some; eauto using wf_queue_addr.
  - intros w W' HW'. destruct (Hback w W' HW') as (W & HW & _).
    eauto using wf_view_addr.
  - intros w W' q' HW' HWq'. destruct (Hback w W' HW') as (W & HW & HWq & _).
    rewrite HWq in HWq'. eauto using wf_weak_addr.
  - intros q' Q' w [[-> <-]|[_ H']]%lookup_insert_Some Hw; eauto using wf_reg_addr.
  - intros q' Q' [[-> <-]|[_ H']]%lookup_insert_Some; simpl.
    + rewrite !tail_length. by rewrite (wf_lengths h Hwf q' Q).
    + by apply (wf_lengths h Hwf q').
  - intros q' Q' [[-> <-]|[_ H']]%lookup_insert_Some.
    + pose proof (wf_max h Hwf q' Q Hq) as Hmax. unfold queue_size in *. simpl.
      rewrite tail_length. lia.
    + by apply (wf_max h Hwf q').
  - intros q' Q' w W' HQ' HW' HWq'.
    destruct (Hback w W' HW') as (W & HW & HWq & Hsame & Hmoved & Hpos).
    rewrite HWq in HWq'.
    apply lookup_insert_Some in HQ' as [[-> <-]|[Hne HQ']]; simpl.
    + destruct (wf_registered h Hwf q' Q w W Hq HW HWq') as [Hw Hle].
      split; [done|]. destruct (Hmoved Hw) as [_ ->].
      unfold queue_size in *. simpl. rewrite tail_length.
      destruct (decide (w = v)); [lia|]. specialize (Hpos Hw ltac:(done)). lia.
    + rewrite Hsame.
      * by apply (wf_registered h Hwf q' Q' w W).
      * intros Hw. destruct (Hmoved Hw). congruence.
  - intros q' Q' i c' [[-> <-]|[Hne HQ']]%lookup_insert_Some Hc'; simpl in Hc'.
    + rewrite lookup_tail in Hc'.
      destruct (wf_counts h Hwf q' Q _ _ Hq Hc') as [Hpos Hsize].
      split; [done|]. rewrite Hsize. do 2 f_equal.
      apply filter_agree. intros w Hw.
      destruct (decide (w = v)) as [->|Hne].
      * rewrite (counted_attached h q' _ v V Hv HVq).
        rewrite (counted_attached _ q' _ v (mkView (Some q') 0) Hv'); [|done].
        simpl. rewrite !Is_true_true, !N.leb_le. lia.
      * destruct (Hin w Hw Hne) as (W & HW & HWq & Hge & Hnew).
        rewrite (counted_attached h q' _ w W HW HWq).
        rewrite (counted_attached _ q' _ w _ Hnew); [|done].
        simpl. rewrite !Is_true_true, !N.leb_le. lia.
    + destruct (wf_counts h Hwf q' Q' _ _ HQ' Hc') as [Hpos Hsize].
      split; [done|]. rewrite Hsize. do 2 f_equal.
      apply filter_agree. intros w _. by rewrite Hforeign.
Qed.

End PopInvariant.

(** ** [pop] and the covered ranges *)

Section PopCovered.
Context {T : Type}.
Implicit Types (h : heap T) (Q : Queue T) (V : View) (X : gset positive).

Lemma same_wiring_refl h : same_wiring h h.
Proof. by split. Qed.

Lemma same_wiring_trans h1 h2 h3 :
  same_wiring h1 h2 → same_wiring h2 h3 → same_wiring h1 h3.
Proof.
  intros [Hv1 Hq1] [Hv2 Hq2]. split.
  - intros w. by rewrite Hv2, Hv1.
  - intros q. by rewrite Hq2, Hq1.
Qed.

Lemma same_wiring_live h h' v : same_wiring h h' → live_view h v → live_view h' v.
Proof.
  intros [Hv Hq] (V & q & Q & HV & HVq & HQ).
  specialize (Hv v). rewrite HV in Hv. simpl in Hv.
  destruct (views h' !! v) as [V'|] eqn:HV'; [|done].
  injection Hv as Hv. destruct (proj2 (Hq q)) as [Q' HQ']; [eauto|].
  exists V', q, Q'. split_and!; congruence.
Qed.

Lemma covered_cons_inv h v x r :
  covered h v = x :: r →
  ∃ V q Q, views h !! v = Some V ∧ m_queue V = Some q ∧ queues h !! q = Some Q ∧
           m_impl Q !! N.to_nat (m_idx V) = Some x ∧
           r = drop (S (N.to_nat (m_idx V))) (m_impl Q).
Proof.
  unfold covered, lock. intros Hcov.
  destruct (views h !! v) as [V|]; [|done].
  destruct (m_queue V) as [q|] eqn:HVq; [|done].
  destruct (queues h !! q) as [Q|] eqn:HQ; [|done].
  exists V, q, Q. split_and!; try done.
  - destruct (m_impl Q !! N.to_nat (m_idx V)) as [y|] eqn:Hy.
    + rewrite (drop_S _ _ _ Hy) in Hcov. congruence.
    + apply lookup_ge_None in Hy. rewrite drop_ge in Hcov; done.
  - destruct (m_impl Q !! N.to_nat (m_idx V)) as [y|] eqn:Hy.
    + rewrite (drop_S _ _ _ Hy) in Hcov. congruence.
    + apply lookup_ge_None in Hy. rewrite drop_ge in Hcov; done.
Qed.

Lemma covered_live h v V q Q :
  views h !! v = Some V → m_queue V = Some q → queues h !! q = Some Q →
  covered h v = drop (N.to_nat (m_idx V)) (m_impl Q).
Proof. unfold covered, lock. by intros -> -> ->. Qed.

Lemma covered_pop_kept h q Q v V c x :
  wf h → queues h !! q = Some Q → views h !! v = Some V → m_queue V = Some q →
  m_impl Q !! N.to_nat (m_idx V) = Some x →
  covered (pop_kept h q v Q V c) v = drop (S (N.to_nat (m_idx V))) (m_impl Q) ∧
  (∀ w, w ≠ v → covered (pop_kept h q v Q V c) w = covered h w) ∧
  same_wiring h (pop_kept h q v Q V c).
Proof.
  intros Hwf Hq Hv HVq Hx. split_and!.
  - unfold covered, lock. simpl. rewrite lookup_insert_eq. simpl.
    rewrite HVq, lookup_insert_eq. simpl. f_equal. lia.
  - intros w Hne. unfold covered, lock. simpl. rewrite lookup_insert_ne by done.
    destruct (views h !! w) as [W|]; [|done].
    destruct (m_queue W) as [q'|]; [|done].
    destruct (decide (q' = q)) as [->|Hq'].
    + by rewrite lookup_insert_eq, Hq.
    + by rewrite lookup_insert_ne.
  - split.
    + intros w. simpl. destruct (decide (w = v)) as [->|Hne].
      * by rewrite lookup_insert_eq, Hv.
      * by rewrite lookup_insert_ne.
    + intros q'. simpl. destruct (decide (q' = q)) as [->|Hne].
      * rewrite lookup_insert_eq, Hq. split; eauto.
      * by rewrite lookup_insert_ne.
Qed.

Lemma covered_pop_evicted h q Q v V x :
  wf h → queues h !! q = Some Q → views h !! v = Some V → m_queue V = Some q →
  m_impl Q !! N.to_nat (m_idx V) = Some x →
  m_referenceCounter Q !! N.to_nat (m_idx V) = Some 1 →
  covered (pop_evicted h q v Q V) v = drop (S (N.to_nat (m_idx V))) (m_impl Q) ∧
  (∀ w, w ≠ v → covered (pop_evicted h q v Q V) w = covered h w) ∧
  same_wiring h (pop_evicted h q v Q V).
Proof.
  intros Hwf Hq Hv HVq Hx Hc.
  destruct (pop_evicted_views h q Q v V Hwf Hq Hv HVq Hc)
    as (Hzero & Hreg & Hv' & Hin & Hout).
  assert (queues (pop_evicted h q v Q V) !! q =
          Some (mkQueue (tail (m_impl Q)) (tail (m_referenceCounter Q)) (m_views Q)))
    as Hq' by (simpl; by rewrite lookup_insert_eq).
  assert (∀ q', q' ≠ q → queues (pop_evicted h q v Q V) !! q' = queues h !! q')
    as Hqother by (intros q' Hne; simpl; by rewrite lookup_insert_ne).
  split_and!.
  - rewrite (covered_live _ v _ q _ Hv' eq_refl Hq'). simpl.
    rewrite Hzero. simpl. by destruct (m_impl Q).
  - intros w Hne. destruct (decide (w ∈ m_views Q)) as [Hw|Hw].
    + destruct (Hin w Hw Hne) as (W & HW & HWq & Hpos & HW').
      rewrite (covered_live _ w _ q _ HW' eq_refl Hq'), (covered_live h w W q Q HW HWq Hq).
      simpl. replace (N.to_nat (m_idx W)) with (S (N.to_nat (m_idx W - 1))) by lia.
      by destruct (m_impl Q).
    + unfold covered. rewrite (Hout w Hw).
      destruct (views h !! w) as [W|] eqn:HW; [|done].
      destruct (m_queue W) as [q'|] eqn:HWq; [|done].
      destruct (decide (q' = q)) as [->|Hq''].
      * destruct (wf_registered h Hwf q Q w W Hq HW HWq). done.
      * unfold lock. by rewrite Hqother.
  - split.
    + intros w. destruct (decide (w ∈ m_views Q)) as [Hw|Hw].
      * destruct (decide (w = v)) as [->|Hne].
        -- rewrite Hv', Hv. simpl. by rewrite HVq.
        -- destruct (Hin w Hw Hne) as (W & HW & HWq & Hpos & HW').
           rewrite HW', HW. simpl. by rewrite HWq.
      * by rewrite (Hout w Hw).
    + intros q'. destruct (decide (q' = q)) as [->|Hne].
      * rewrite Hq', Hq. split; eauto.
      * by rewrite Hqother.
Qed.

(** A view that covers [x :: r] pops [x] and covers [r] afterwards; the
    other views cover what they covered. *)
Lemma View_pop_covered h v x r :
  wf h → covered h v = x :: r →
  ∃ h', View_pop v h = Ok x h' ∧ wf h' ∧ covered h' v = r ∧
        (∀ w, w ≠ v → covered h' w = covered h w) ∧ same_wiring h h'.
Proof.
  intros Hwf Hcov.
  destruct (covered_cons_inv h v x r Hcov) as (V & q & Q & Hv & HVq & Hq & Hx & ->).
  apply lookup_lt_Some in Hx as Hlt.
  destruct (wf_counter_at h q Q _ Hwf Hq Hlt) as (c & Hc & Hpos & _).
  assert (m_idx V < queue_size Q) as Hlt' by (unfold queue_size; lia).
  destruct (decide (c = 1)) as [->|Hne].
  - exists (pop_evicted h q v Q V).
    destruct (covered_pop_evicted h q Q v V x) as (? & ? & ?); try done.
    split_and!; try done.
    + by apply (View_pop_evicted h q Q v V x).
    + by apply wf_pop_evicted.
  - exists (pop_kept h q v Q V c).
    destruct (covered_pop_kept h q Q v V c x) as (? & ? & ?); try done.
    split_and!; try done.
    + apply (View_pop_kept h q Q v V x c); try done. lia.
    + apply wf_pop_kept; try done. lia.
Qed.

(** A live view of a well-formed state reports the length of its range. *)
Lemma View_size_covered h v :
  wf h → live_view h v → View_size v h = Ok (N.of_nat (length (covered h v))) h.
Proof.
  intros Hwf (V & q & Q & Hv & HVq & Hq).
  destruct (wf_registered h Hwf q Q v V Hq Hv HVq) as [_ Hle].
  unfold View_size. rewrite (bind_ok _ _ _ _ _ (get_view_ok _ _ _ Hv)).
  rewrite HVq, (lock_some _ _ _ Hq). unfold view_begin, view_end.
  destruct (N.leb_spec (m_idx V) (queue_size Q)); [|lia].
  rewrite (covered_live h v V q Q) by done.
  rewrite length_drop. unfold queue_size. f_equal. lia.
Qed.

(** With nothing to cover, [pop] waits. *)
Lemma View_pop_empty h v :
  wf h → live_view h v → covered h v = [] → View_pop v h = Blocked h.
Proof.
  intros Hwf (V & q & Q & Hv & HVq & Hq) Hcov.
  destruct (wf_registered h Hwf q Q v V Hq Hv HVq) as [_ Hle].
  unfold View_pop. rewrite (bind_ok _ _ _ _ _ (get_view_ok _ _ _ Hv)).
  rewrite HVq, (lock_some _ _ _ Hq). unfold view_begin.
  destruct (N.leb_spec (m_idx V) (queue_size Q)); [|lia].
  rewrite (covered_live h v V q Q) in Hcov by done.
  destruct (m_impl Q !! N.to_nat (m_idx V)) as [y|] eqn:Hy; [|done].
  by rewrite (drop_S _ _ _ Hy) in Hcov.
Qed.

End PopCovered.

(** ** [make], [view] and [push] on a well-formed state *)

Section Growth.
Context {T : Type}.
Implicit Types (h : heap T) (Q : Queue T) (V : View) (X : gset positive).

Lemma wf_empty_heap : wf (@empty_heap T).
Proof. split; simpl; intros *; by rewrite ?lookup_empty. Qed.

Lemma make_spec h :
  wf h →
  make h = Ok (brk h) (mkHeap (<[brk h := mkQueue [] [] ∅]> (queues h)) (views h)
                              (Pos.succ (brk h))) ∧
  queues h !! brk h = None ∧
  wf (mkHeap (<[brk h := mkQueue [] [] ∅]> (queues h)) (views h) (Pos.succ (brk h))).
Proof.
  intros Hwf.
  assert (queues h !! brk h = None) as Hfresh.
  { destruct (queues h !! brk h) as [Q|] eqn:HQ; [|done].
    pose proof (wf_queue_addr h Hwf _ _ HQ). lia. }
  split_and!; try done.
  split; simpl.
  - intros q Q [[<- <-]|[_ HQ]]%lookup_insert_Some; [lia|].
    pose proof (wf_queue_addr h Hwf _ _ HQ). lia.
  - intros v V HV. pose proof (wf_view_addr h Hwf _ _ HV). lia.
  - intros v V q HV HVq. pose proof (wf_weak_addr h Hwf _ _ _ HV HVq). lia.
  - intros q Q v [[<- <-]|[_ HQ]]%lookup_insert_Some Hv; [set_solver|].
    pose proof (wf_reg_addr h Hwf _ _ _ HQ Hv). lia.
  - intros q Q [[<- <-]|[_ HQ]]%lookup_insert_Some; [done|].
    by apply (wf_lengths h Hwf q).
  - intros q Q [[<- <-]|[_ HQ]]%lookup_insert_Some; [by compute|].
    by apply (wf_max h Hwf q).
  - intros q Q v V [[<- <-]|[_ HQ]]%lookup_insert_Some HV HVq.
    + pose proof (wf_weak_addr h Hwf _ _ _ HV HVq). lia.
    + by apply (wf_registered h Hwf q Q v V).
  - intros q Q i c [[<- <-]|[_ HQ]]%lookup_insert_Some Hc; [done|].
    destruct (wf_counts h Hwf q Q i c HQ Hc) as [Hpos Hsize].
    split; [done|exact Hsize].
Qed.

Lemma view_unfold h q Q :
  queues h !! q = Some Q → view q h = Ok (brk h) (with_view h q Q).
Proof.
  intros Hq. unfold view, registerView, alloc, set_view, set_queue, ret, get_queue, bind.
  simpl. rewrite Hq. simpl. by rewrite Hq.
Qed.

Lemma wf_with_view h q Q :
  wf h → queues h !! q = Some Q → wf (with_view h q Q).
Proof.
  intros Hwf Hq.
  assert (views h !! brk h = None) as Hfresh.
  { destruct (views h !! brk h) as [V|] eqn:HV; [|done].
    pose proof (wf_view_addr h Hwf _ _ HV). lia. }
  assert (∀ q' Q', queues h !! q' = Some Q' → brk h ∉ m_views Q') as Hunreg.
  { intros q' Q' HQ' Hin. pose proof (wf_reg_addr h Hwf _ _ _ HQ' Hin). lia. }
  assert (∀ q' i w, w ≠ brk h → counted (with_view h q Q) q' i w = counted h q' i w)
    as Hsame.
  { intros q' i w Hne. apply counted_same_view. simpl. by rewrite lookup_insert_ne. }
  split; simpl.
  - intros q' Q' [[-> <-]|[_ HQ']]%lookup_insert_Some.
    + pose proof (wf_queue_addr h Hwf _ _ Hq). lia.
    + pose proof (wf_queue_addr h Hwf _ _ HQ'). lia.
  - intros v V [[<- <-]|[_ HV]]%lookup_insert_Some; [lia|].
    pose proof (wf_view_addr h Hwf _ _ HV). lia.
  - intros v V q' [[<- <-]|[_ HV]]%lookup_insert_Some HVq.
    + simpl in HVq. injection HVq as <-.
      pose proof (wf_queue_addr h Hwf _ _ Hq). lia.
    + pose proof (wf_weak_addr h Hwf _ _ _ HV HVq). lia.
  - intros q' Q' v [[-> <-]|[_ HQ']]%lookup_insert_Some Hv.
    + simpl in Hv. apply elem_of_union in Hv as [->%elem_of_singleton|Hv]; [lia|].
      pose proof (wf_reg_addr h Hwf _ _ _ Hq Hv). lia.
    + pose proof (wf_reg_addr h Hwf _ _ _ HQ' Hv). lia.
  - intros q' Q' [[-> <-]|[_ HQ']]%lookup_insert_Some.
    + apply (wf_lengths h Hwf q' Q Hq).
    + by apply (wf_lengths h Hwf q').
  - intros q' Q' [[-> <-]|[_ HQ']]%lookup_insert_Some.
    + apply (wf_max h Hwf q' Q Hq).
    + by apply (wf_max h Hwf q').
  - intros q' Q' v V HQ' [[<- <-]|[Hne HV]]%lookup_insert_Some HVq.
    + simpl in HVq. injection HVq as <-.
      rewrite lookup_insert_eq in HQ'. injection HQ' as <-. simpl.
      split; [set_solver|]. unfold queue_size. simpl. lia.
    + apply lookup_insert_Some in HQ' as [[-> <-]|[_ HQ']].
      * destruct (wf_registered h Hwf q' Q v V Hq HV HVq). simpl.
        split; [set_solver|done].
      * by apply (wf_registered h Hwf q' Q' v V).
  - intros q' Q' i c [[-> <-]|[Hne HQ']]%lookup_insert_Some Hc; simpl in Hc.
    + destruct (wf_counts h Hwf q' Q i c Hq Hc) as [Hpos Hsize].
      split; [done|]. rewrite Hsize. do 2 f_equal. simpl.
      apply lookup_lt_Some in Hc as Hlt.
      rewrite <- (wf_lengths h Hwf q' Q Hq) in Hlt.
      apply set_eq. intros w. rewrite !elem_of_filter, elem_of_union, elem_of_singleton.
      split.
      * intros [Hcw Hw]. split; [|by right]. rewrite Hsame; [done|].
        intros ->. by apply (Hunreg q' Q).
      * intros [Hcw [->|Hw]].
        -- rewrite (counted_attached _ q' i (brk h) (mkView (Some q') (queue_size Q))) in Hcw;
             simpl; rewrite ?lookup_insert_eq; try done.
           apply Is_true_true, N.leb_le in Hcw. unfold queue_size in Hcw. simpl in Hcw. lia.
        -- split; [|done]. rewrite <- Hsame; [done|].
           intros ->. by apply (Hunreg q' Q).
    + destruct (wf_counts h Hwf q' Q' i c HQ' Hc) as [Hpos Hsize].
      split; [done|]. rewrite Hsize. do 2 f_equal.
      apply filter_agree. intros w Hw. rewrite Hsame; [done|].
      intros ->. by apply (Hunreg q' Q').
Qed.

Lemma covered_with_view h q Q :
  wf h → queues h !! q = Some Q →
  covered (with_view h q Q) (brk h) = [] ∧
  (∀ w, w ≠ brk h → covered (with_view h q Q) w = covered h w).
Proof.
  intros Hwf Hq. split.
  - unfold covered, lock. simpl. rewrite lookup_insert_eq. simpl.
    rewrite lookup_insert_eq. simpl. unfold queue_size.
    rewrite drop_ge; [done|lia].
  - intros w Hne. unfold covered, lock. simpl. rewrite lookup_insert_ne by done.
    destruct (views h !! w) as [W|]; [|done].
    destruct (m_queue W) as [q'|]; [|done].
    destruct (decide (q' = q)) as [->|Hq'].
    + by rewrite lookup_insert_eq, Hq.
    + by rewrite lookup_insert_ne.
Qed.

Lemma push_unfold h q Q value :
  queues h !! q = Some Q →
  push q value h = Ok tt (if decide (m_views Q = ∅) then h else with_slot h q Q value).
Proof.
  intros Hq. unfold push.
  rewrite (bind_ok _ _ _ _ _ (get_queue_ok _ _ _ Hq)).
  destruct (decide (m_views Q = ∅)) as [HX|HX].
  - rewrite bool_decide_eq_true_2 by done. simpl.
    by destruct (N.leb_spec stalenessThreshold (queue_size Q));
      [|unfold stalenessThreshold in *; lia].
  - by rewrite bool_decide_eq_false_2.
Qed.

Lemma wf_with_slot h q Q value :
  wf h → queues h !! q = Some Q → m_views Q ≠ ∅ → queue_size Q < size_t_max →
  wf (with_slot h q Q value).
Proof.
  intros Hwf Hq HX Hroom. split; simpl.
  - intros q' Q' [[-> <-]|[_ HQ']]%lookup_insert_Some; eauto using wf_queue_addr.
  - eauto using wf_view_addr.
  - eauto using wf_weak_addr.
  - intros q' Q' v [[-> <-]|[_ HQ']]%lookup_insert_Some Hv; eauto using wf_reg_addr.
  - intros q' Q' [[-> <-]|[_ HQ']]%lookup_insert_Some; simpl.
    + rewrite !length_app. simpl. by rewrite (wf_lengths h Hwf q' Q).
    + by apply (wf_lengths h Hwf q').
  - intros q' Q' [[-> <-]|[_ HQ']]%lookup_insert_Some.
    + unfold queue_size in *. simpl. rewrite length_app. simpl. lia.
    + by apply (wf_max h Hwf q').
  - intros q' Q' v V [[-> <-]|[_ HQ']]%lookup_insert_Some HV HVq.
    + destruct (wf_registered h Hwf q' Q v V Hq HV HVq). split; [done|].
      unfold queue_size in *. simpl. rewrite length_app. lia.
    + by apply (wf_registered h Hwf q' Q' v V).
  - intros q' Q' i c [[-> <-]|[_ HQ']]%lookup_insert_Some Hc; simpl in Hc.
    + apply lookup_app_Some in Hc as [Hc|[Hge Hc]].
      * destruct (wf_counts h Hwf q' Q i c Hq Hc) as [Hpos Hsize].
        split; [done|exact Hsize].
      * apply list_lookup_singleton_Some in Hc as [Hi <-].
        assert (size (m_views Q) ≠ 0%nat) as Hsz by (by intros ?%size_empty_inv%leibniz_equiv).
        split; [lia|]. do 2 f_equal. simpl.
        apply set_eq. intros w. rewrite elem_of_filter. split; [|tauto].
        intros Hw. split; [|done].
        destruct (counted (with_slot h q' Q value) q' i w) eqn:E; [done|].
        destruct (counted_false _ _ _ _ E) as (W & HW & HWq & Hlt).
        simpl in HW. destruct (wf_registered h Hwf q' Q w W Hq HW HWq) as [_ Hle].
        rewrite <- (wf_lengths h Hwf q' Q Hq) in *.
        unfold queue_size in Hle. lia.
    + destruct (wf_counts h Hwf q' Q' i c HQ' Hc) as [Hpos Hsize].
      split; [done|exact Hsize].
Qed.

Lemma covered_with_slot h q Q value :
  wf h → queues h !! q = Some Q →
  (∀ w, attached h q w → covered (with_slot h q Q value) w = covered h w ++ [value]) ∧
  (∀ w, ¬ attached h q w → covered (with_slot h q Q value) w = covered h w) ∧
  same_wiring h (with_slot h q Q value).
Proof.
  intros Hwf Hq. split_and!.
  - intros w (W & HW & HWq).
    destruct (wf_registered h Hwf q Q w W Hq HW HWq) as [_ Hle].
    unfold covered, lock. simpl. rewrite HW, HWq, lookup_insert_eq, Hq. simpl.
    rewrite drop_app_le; [done|]. unfold queue_size in Hle. lia.
  - intros w Hw. unfold covered, lock. simpl.
    destruct (views h !! w) as [W|] eqn:HW; [|done].
    destruct (m_queue W) as [q'|] eqn:HWq; [|done].
    rewrite lookup_insert_ne; [done|]. intros <-. apply Hw. by exists W.
  - split; [done|]. intros q'. simpl. destruct (decide (q' = q)) as [->|Hne].
    + rewrite lookup_insert_eq, Hq. split; eauto.
    + by rewrite lookup_insert_ne.
Qed.

End Growth.

(** ** Checking the invariant on a concrete state *)

Section Check.
Context {T : Type}.
Implicit Types (h : heap T) (Q : Queue T) (V : View).

Lemma wf_check_sound h : wf_check h = true → wf h.
Proof.
  unfold wf_check. intros [Hqs Hvs]%andb_prop.
  apply bool_decide_eq_true_1 in Hqs, Hvs.
  split.
  - intros q Q HQ. by destruct (Hqs q Q HQ).
  - intros v V HV. by destruct (Hvs v V HV).
  - intros v V q HV HVq. destruct (Hvs v V HV) as [_ Hw]. rewrite HVq in Hw.
    by apply bool_decide_unpack in Hw.
  - intros q Q v HQ Hv. destruct (Hqs q Q HQ) as (_ & Hreg & _). by apply Hreg.
  - intros q Q HQ. by destruct (Hqs q Q HQ) as (_ & _ & ? & _).
  - intros q Q HQ. by destruct (Hqs q Q HQ) as (_ & _ & _ & ? & _).
  - intros q Q v V HQ HV HVq. destruct (Hqs q Q HQ) as (_ & _ & _ & _ & Hr & _).
    by apply (Hr v V).
  - intros q Q i c HQ Hc. destruct (Hqs q Q HQ) as (_ & _ & _ & _ & _ & Hcs).
    rewrite Forall_forall in Hcs. apply (Hcs (i, c)).
    apply list_elem_of_lookup. exists i. by rewrite list_lookup_imap, Hc.
Qed.

End Check.

(** ** [view] and [push], as the callers see them *)

Section ViewPush.
Context {T : Type}.
Implicit Types (h : heap T) (Q : Queue T) (V : View).

Lemma view_spec h q Q :
  wf h → queues h !! q = Some Q →
  ∃ h', view q h = Ok (brk h) h' ∧ wf h' ∧ views h !! brk h = None ∧
        views h' !! brk h = Some (mkView (Some q) (queue_size Q)) ∧
        covered h' (brk h) = [] ∧ View_size (brk h) h' = Ok 0 h' ∧
        (∀ w, w ≠ brk h → covered h' w = covered h w) ∧
        (∀ w, w ≠ brk h → views h' !! w = views h !! w) ∧
        (∀ q', is_Some (queues h' !! q') ↔ is_Some (queues h !! q')).
Proof.
  intros Hwf Hq. exists (with_view h q Q).
  pose proof (wf_with_view h q Q Hwf Hq) as Hwf'.
  destruct (covered_with_view h q Q Hwf Hq) as [Hnew Hold].
  assert (views (with_view h q Q) !! brk h = Some (mkView (Some q) (queue_size Q)))
    as Hv' by (simpl; by rewrite lookup_insert_eq).
  split_and!; try done.
  - by apply view_unfold.
  - destruct (views h !! brk h) as [V|] eqn:HV; [|done].
    pose proof (wf_view_addr h Hwf _ _ HV). lia.
  - rewrite View_size_covered; [by rewrite Hnew|done|].
    eexists _, q, _. split_and!; [done..|]. simpl. by rewrite lookup_insert_eq.
  - intros w Hne. simpl. by rewrite lookup_insert_ne.
  - intros q'. simpl. destruct (decide (q' = q)) as [->|Hne].
    + rewrite lookup_insert_eq, Hq. split; eauto.
    + by rewrite lookup_insert_ne.
Qed.

Lemma push_spec h q Q value :
  wf h → queues h !! q = Some Q → queue_size Q < size_t_max →
  ∃ h', push q value h = Ok tt h' ∧ wf h' ∧ same_wiring h h' ∧
        (∀ w, attached h q w → covered h' w = covered h w ++ [value]) ∧
        (∀ w, ¬ attached h q w → covered h' w = covered h w).
Proof.
  intros Hwf Hq Hroom. rewrite (push_unfold h q Q value Hq).
  destruct (decide (m_views Q = ∅)) as [HX|HX].
  - exists h. split_and!; try done.
    intros w (W & HW & HWq).
    destruct (wf_registered h Hwf q Q w W Hq HW HWq) as [Hw _]. set_solver.
  - exists (with_slot h q Q value).
    destruct (covered_with_slot h q Q value Hwf Hq) as (? & ? & ?).
    split_and!; try done. by apply wf_with_slot.
Qed.

Lemma covered_suffix h q Q w :
  queues h !! q = Some Q → attached h q w → covered h w `suffix_of` m_impl Q.
Proof.
  intros Hq (W & HW & HWq). rewrite (covered_live h w W q Q) by done.
  apply suffix_drop.
Qed.

End ViewPush.

(** ** Popping several views in a row *)

Section PopMany.
Context {T : Type}.
Implicit Types (h : heap T) (Q : Queue T) (V : View).

Lemma ready_size h v :
  wf h → live_view h v →
  ∃ n, View_size v h = Ok n h ∧ (0 <? n) = ready h v.
Proof.
  intros Hwf Hlive. eexists. split; [by apply View_size_covered|].
  unfold ready. by destruct (covered h v).
Qed.

Lemma for_each_pop h pipes :
  wf h → NoDup pipes → Forall (λ v, covered h v ≠ []) pipes →
  ∃ xs h', for_each View_pop pipes h = Ok xs h' ∧ wf h' ∧ same_wiring h h' ∧
           Forall2 (λ v x, covered h v = x :: covered h' v) pipes xs ∧
           (∀ w, w ∉ pipes → covered h' w = covered h w).
Proof.
  intros Hwf Hnd. revert h Hwf.
  induction Hnd as [|v rest Hv Hnd IH]; intros h Hwf Hne.
  - exists [], h. split_and!; done.
  - apply Forall_cons in Hne as [Hhead Hrest].
    destruct (covered h v) as [|x r] eqn:Hcov; [done|].
    destruct (View_pop_covered h v x r Hwf Hcov) as (h1 & Hpop & Hwf1 & Hr & Hframe & Hwire).
    destruct (IH h1 Hwf1) as (xs & h' & Hrun & Hwf' & Hwire' & Hall & Hframe').
    { apply Forall_forall. intros w Hw. rewrite Forall_forall in Hrest.
      rewrite Hframe; [by apply Hrest|]. intros ->. done. }
    exists (x :: xs), h'. split_and!; try done.
    + simpl. rewrite (bind_ok _ _ _ _ _ Hpop), (bind_ok _ _ _ _ _ Hrun). done.
    + by apply (same_wiring_trans h h1 h').
    + constructor.
      * rewrite Hcov, Hframe'; [by rewrite Hr|done].
      * apply Forall2_same_length_lookup_2; [by eapply Forall2_length|].
        intros i w' x' Hw' Hx'.
        rewrite <- (Forall2_lookup_lr _ _ _ _ _ _ Hall Hw' Hx').
        symmetry. apply Hframe. intros ->.
        apply Hv. by eapply list_elem_of_lookup_2.
    + intros w Hw. apply not_elem_of_cons in Hw as [Hwv Hw].
      rewrite Hframe'; [by apply Hframe|done].
Qed.

Lemma allInputsReady_from_spec h b pipes :
  wf h → Forall (live_view h) pipes →
  ConsumerN.allInputsReady_from b pipes h = Ok (b && forallb (ready h) pipes) h.
Proof.
  intros Hwf Hlive. revert b. induction Hlive as [|v rest Hv Hrest IH]; intros b.
  - simpl. by rewrite andb_true_r.
  - simpl. destruct b; [|done].
    destruct (ready_size h v Hwf Hv) as (n & Hsize & Hn).
    rewrite (bind_ok _ _ _ _ _ Hsize), IH, Hn. done.
Qed.

End PopMany.

(** ** The single-input consumer *)

Section SingleInput.
Context {T : Type}.
Implicit Types (h : heap T) (c : Consumer1.t).

Lemma covered_cons_live h v x r : covered h v = x :: r → live_view h v.
Proof.
  intros Hcov. destruct (covered_cons_inv h v x r Hcov) as (V & q & Q & ? & ? & ? & _).
  by exists V, q, Q.
Qed.

Lemma Consumer1_pullInput_ready h c x r :
  wf h → covered h (Consumer1.m_inputPipe c) = x :: r →
  ∃ h', Consumer1.pullInput c h = Ok (Some x) h' ∧ wf h' ∧
        covered h' (Consumer1.m_inputPipe c) = r ∧
        (∀ w, w ≠ Consumer1.m_inputPipe c → covered h' w = covered h w).
Proof.
  intros Hwf Hcov.
  destruct (View_pop_covered h _ x r Hwf Hcov) as (h' & Hpop & Hwf' & Hr & Hframe & _).
  exists h'. split_and!; try done.
  unfold Consumer1.pullInput.
  rewrite (bind_ok _ _ _ _ _ (View_size_covered h _ Hwf (covered_cons_live h _ x r Hcov))).
  rewrite Hcov. simpl. by rewrite (bind_ok _ _ _ _ _ Hpop).
Qed.

Lemma Consumer1_pullInput_empty h c :
  wf h → live_view h (Consumer1.m_inputPipe c) →
  covered h (Consumer1.m_inputPipe c) = [] →
  Consumer1.pullInput c h = Ok None h.
Proof.
  intros Hwf Hlive Hcov. unfold Consumer1.pullInput.
  rewrite (bind_ok _ _ _ _ _ (View_size_covered h _ Hwf Hlive)).
  by rewrite Hcov.
Qed.

End SingleInput.

(** ** The bus consumer *)

Section BusInput.
Context {T : Type}.
Implicit Types (h : heap T) (c : ConsumerBus.t T).

Lemma on_heap_ok {S C A} (m : M S A) (c : C) (s s' : S) a :
  m s = Ok a s' → on_heap m (c, s) = Ok a (c, s').
Proof. unfold on_heap, zoom. simpl. by intros ->. Qed.

Lemma same_wiring_live_all h h' pipes :
  same_wiring h h' → Forall (live_view h) pipes → Forall (live_view h') pipes.
Proof.
  intros Hw Hall. eapply Forall_impl; [exact Hall|].
  intros v. by apply same_wiring_live.
Qed.

(** The loop pops the views in order for as long as each is ready: it ends
    in the state of exactly those pops, with their values appended to the
    accumulator, either past the last view or at a view that covers
    nothing. *)
Lemma pull_loop_spec pipes : ∀ c h,
  wf h → Forall (live_view h) pipes →
  ∃ done xs h',
    ConsumerBus.pull_loop pipes (c, h)
      = Ok done (ConsumerBus.mk (ConsumerBus.m_inputPipes c) (ConsumerBus.m_inputs c ++ xs), h') ∧
    wf h' ∧ same_wiring h h' ∧
    for_each View_pop (take (length xs) pipes) h = Ok xs h' ∧
    if done then length xs = length pipes
    else ∃ pipe, pipes !! length xs = Some pipe ∧ covered h' pipe = [].
Proof.
  induction pipes as [|v rest IH]; intros c h Hwf Hlive.
  - exists true, [], h. rewrite app_nil_r. destruct c. split_and!; try done.
  - apply Forall_cons in Hlive as [Hv Hrest]. simpl.
    rewrite (bind_ok _ _ _ _ _ (on_heap_ok _ c _ _ _ (View_size_covered h v Hwf Hv))).
    destruct (covered h v) as [|x r] eqn:Hcov.
    + exists false, [], h. rewrite app_nil_r. destruct c. simpl.
      split_and!; try done. by exists v.
    + destruct (View_pop_covered h v x r Hwf Hcov)
        as (h1 & Hpop & Hwf1 & Hr & Hframe & Hwire).
      destruct (IH (ConsumerBus.mk (ConsumerBus.m_inputPipes c) (ConsumerBus.m_inputs c ++ [x]))
                  h1 Hwf1 (same_wiring_live_all h h1 rest Hwire Hrest))
        as (done & xs & h' & Hloop & Hwf' & Hwire' & Hpops & Hend).
      exists done, (x :: xs), h'. simpl in *.
      rewrite (bind_ok _ _ _ _ _ (on_heap_ok _ c _ _ _ Hpop)).
      unfold get_self, put_self, bind at 1 2. simpl.
      rewrite <- app_assoc in Hloop. simpl in Hloop.
      split_and!; try done.
      * by apply (same_wiring_trans h h1 h').
      * by rewrite (bind_ok _ _ _ _ _ Hpop), (bind_ok _ _ _ _ _ Hpops).
      * destruct done; [by rewrite Hend|done].
Qed.

Lemma bus_pullInput_spec c h :
  wf h → Forall (live_view h) (ConsumerBus.m_inputPipes c) →
  (length (ConsumerBus.m_inputs c) ≤ length (ConsumerBus.m_inputPipes c))%nat →
  ∃ r c' h' xs,
    ConsumerBus.pullInput (c, h) = Ok r (c', h') ∧ wf h' ∧
    ConsumerBus.m_inputPipes c' = ConsumerBus.m_inputPipes c ∧
    for_each View_pop
      (take (length xs) (drop (length (ConsumerBus.m_inputs c)) (ConsumerBus.m_inputPipes c))) h
      = Ok xs h' ∧
    match r with
    | Some ys =>
        ys = ConsumerBus.m_inputs c ++ xs ∧
        length ys = length (ConsumerBus.m_inputPipes c) ∧
        ConsumerBus.m_inputs c' = []
    | None =>
        ConsumerBus.m_inputs c' = ConsumerBus.m_inputs c ++ xs ∧
        ∃ pipe, ConsumerBus.m_inputPipes c !! length (ConsumerBus.m_inputs c') = Some pipe ∧
                covered h' pipe = []
    end.
Proof.
  intros Hwf Hlive Hlen.
  destruct (pull_loop_spec (drop (length (ConsumerBus.m_inputs c)) (ConsumerBus.m_inputPipes c))
              c h Hwf) as (done & xs & h' & Hloop & Hwf' & _ & Hpops & Hend).
  { by apply Forall_drop. }
  unfold ConsumerBus.pullInput. unfold get_self at 1. unfold bind at 1. simpl.
  rewrite bool_decide_eq_true_2 by done.
  rewrite (bind_ok _ _ _ _ _ Hloop).
  destruct done.
  - exists (Some (ConsumerBus.m_inputs c ++ xs)),
      (ConsumerBus.mk (ConsumerBus.m_inputPipes c) []), h', xs.
    split_and!; try done.
    rewrite length_app, Hend, length_drop. lia.
  - exists None, (ConsumerBus.mk (ConsumerBus.m_inputPipes c) (ConsumerBus.m_inputs c ++ xs)),
      h', xs.
    split_and!; try done.
    destruct Hend as (pipe & Hpipe & Hcov). exists pipe. split; [|done].
    simpl. rewrite lookup_drop in Hpipe. by rewrite length_app.
Qed.

End BusInput.

(** ** The bus producer *)

Section BusOutput.
Context {T : Type}.
Implicit Types (h : heap T) (p : ProducerBus.t) (Q : Queue T).

Lemma wf_queues_allocated h : wf h → queues_allocated h.
Proof. intros Hwf q [Q HQ]. by apply (wf_queue_addr h Hwf q Q). Qed.

Lemma push_pushed h q Q value :
  queues h !! q = Some Q →
  push q value h = Ok tt (set_queue q (pushed Q value) h).
Proof.
  intros Hq. rewrite (push_unfold h q Q value Hq). unfold pushed, with_slot.
  destruct (decide (m_views Q = ∅)); [|done].
  f_equal. destruct h as [qs vs b]. unfold set_queue. simpl in *.
  by rewrite insert_id.
Qed.

Lemma grow_spec n : ∀ p h,
  queues_allocated h →
  ∃ qs h',
    ProducerBus.grow n (p, h) = Ok tt (ProducerBus.mk (ProducerBus.m_outputPipes p ++ qs), h') ∧
    length qs = n ∧ queues_allocated h' ∧ views h' = views h ∧ NoDup qs ∧
    (∀ q, q ∈ qs → queues h !! q = None ∧ queues h' !! q = Some (mkQueue [] [] ∅)) ∧
    (∀ q, q ∉ qs → queues h' !! q = queues h !! q) ∧
    (brk h ≤ brk h')%positive ∧ (wf h → wf h').
Proof.
  induction n as [|n IH]; intros p h Halloc.
  - exists [], h. rewrite app_nil_r. destruct p. split_and!; try done.
    + apply NoDup_nil_2.
    + intros q Hq. by apply not_elem_of_nil in Hq.
  - set (q := brk h).
    set (h1 := mkHeap (<[q := mkQueue [] [] ∅]> (queues h)) (views h) (Pos.succ q)).
    assert (queues h !! q = None) as Hfresh.
    { destruct (queues h !! q) as [Q|] eqn:HQ; [|done].
      assert (q < brk h)%positive by (apply Halloc; eauto). unfold q in *. lia. }
    assert (queues_allocated h1) as Halloc1.
    { intros q' [Q' HQ']. simpl in *.
      apply lookup_insert_Some in HQ' as [[<- _]|[_ HQ']]; [lia|].
      assert (q' < brk h)%positive by (apply Halloc; eauto). unfold q. lia. }
    destruct (IH (ProducerBus.mk (ProducerBus.m_outputPipes p ++ [q])) h1 Halloc1)
      as (qs & h' & Hgrow & Hlen & Halloc' & Hviews & Hnd & Hnew & Hold & Hbrk & Hwf).
    exists (q :: qs), h'. simpl in Hgrow. rewrite <- app_assoc in Hgrow. simpl in Hgrow.
    assert (q ∉ qs) as Hq.
    { intros Hin. destruct (Hnew q Hin) as [Hnone _]. simpl in Hnone.
      by rewrite lookup_insert_eq in Hnone. }
    split_and!; try done.
    + simpl. by rewrite Hlen.
    + by apply NoDup_cons.
    + intros q' [->|Hq']%elem_of_cons.
      * split; [done|]. rewrite (Hold q Hq). simpl. by rewrite lookup_insert_eq.
      * destruct (Hnew q' Hq') as [Hnone Hsome]. split; [|done].
        simpl in Hnone. rewrite lookup_insert_ne in Hnone; [done|].
        intros <-. done.
    + intros q' [Hne Hq']%not_elem_of_cons. rewrite (Hold q' Hq'). simpl.
      by rewrite lookup_insert_ne.
    + simpl in Hbrk. unfold q in *. lia.
    + intros Hwf0. apply Hwf. by apply make_spec.
Qed.

Lemma getOutputPipeSource_spec p h (i : nat) :
  queues_allocated h →
  ∃ q qs h',
    ProducerBus.getOutputPipeSource (Z.of_nat i) (p, h)
      = Ok q (ProducerBus.mk (ProducerBus.m_outputPipes p ++ qs), h') ∧
    (ProducerBus.m_outputPipes p ++ qs) !! i = Some q ∧
    length qs = (S i - length (ProducerBus.m_outputPipes p))%nat ∧
    queues_allocated h' ∧ views h' = views h ∧ NoDup qs ∧
    (∀ q, q ∈ qs → queues h !! q = None ∧ queues h' !! q = Some (mkQueue [] [] ∅)) ∧
    (∀ q, q ∉ qs → queues h' !! q = queues h !! q) ∧
    (brk h ≤ brk h')%positive ∧ (wf h → wf h').
Proof.
  intros Halloc.
  destruct (grow_spec (S i - length (ProducerBus.m_outputPipes p)) p h Halloc)
    as (qs & h' & Hgrow & Hlen & Halloc' & Hviews & Hnd & Hnew & Hold & Hbrk & Hwf).
  destruct (lookup_lt_is_Some_2 (ProducerBus.m_outputPipes p ++ qs) i) as [q Hq].
  { rewrite length_app. lia. }
  exists q, qs, h'. split_and!; try done.
  unfold ProducerBus.getOutputPipeSource.
  destruct (Z.ltb_spec (Z.of_nat i) 0); [lia|].
  unfold get_self at 1. unfold bind at 1. simpl.
  rewrite Nat2Z.id, (bind_ok _ _ _ _ _ Hgrow).
  unfold get_self, bind. simpl. by rewrite Hq.
Qed.

(** The queues made on the way are new: the producer still owns distinct
    live queues. *)
Lemma owned_grown p h qs h' :
  owned p h → NoDup qs →
  (∀ q, q ∈ qs → queues h !! q = None ∧ queues h' !! q = Some (mkQueue [] [] ∅)) →
  (∀ q, q ∉ qs → queues h' !! q = queues h !! q) →
  owned (ProducerBus.mk (ProducerBus.m_outputPipes p ++ qs)) h' ∧
  (∀ q, q ∈ ProducerBus.m_outputPipes p → q ∉ qs).
Proof.
  intros [Hnd Halive] Hndqs Hnew Hold.
  rewrite Forall_forall in Halive.
  assert (∀ q, q ∈ ProducerBus.m_outputPipes p → q ∉ qs) as Hdisj.
  { intros q Hq Hq'. destruct (Hnew q Hq') as [Hnone _].
    destruct (Halive q Hq) as [Q HQ]. congruence. }
  split; [|done]. split; simpl.
  - apply NoDup_app. split_and!; done.
  - apply Forall_app. split; apply Forall_forall; intros q Hq.
    + rewrite (Hold q (Hdisj q Hq)). by apply Halive.
    + destruct (Hnew q Hq) as [_ ->]. eauto.
Qed.

Lemma pushOutput_at_spec p h (i : nat) value :
  queues_allocated h → owned p h →
  ∃ qs h',
    ProducerBus.pushOutput_at (Z.of_nat i) value (p, h)
      = Ok tt (ProducerBus.mk (ProducerBus.m_outputPipes p ++ qs), h') ∧
    length qs = (S i - length (ProducerBus.m_outputPipes p))%nat ∧
    queues_allocated h' ∧ owned (ProducerBus.mk (ProducerBus.m_outputPipes p ++ qs)) h' ∧
    views h' = views h ∧
    (∀ j q Q, ProducerBus.m_outputPipes p !! j = Some q → queues h !! q = Some Q →
       queues h' !! q = Some (if decide (j = i) then pushed Q value else Q)).
Proof.
  intros Halloc Hown.
  destruct (getOutputPipeSource_spec p h i Halloc)
    as (q & qs & h1 & Hsrc & Hq & Hlen & Halloc1 & Hviews & Hnd & Hnew & Hold & _ & _).
  destruct (owned_grown p h qs h1 Hown Hnd Hnew Hold) as [[Hnd1 Halive1] Hdisj].
  simpl in Hnd1, Halive1.
  assert (is_Some (queues h1 !! q)) as [Q1 HQ1].
  { rewrite Forall_forall in Halive1. apply Halive1. by eapply list_elem_of_lookup_2. }
  exists qs, (set_queue q (pushed Q1 value) h1).
  split_and!; try done.
  - unfold ProducerBus.pushOutput_at. rewrite (bind_ok _ _ _ _ _ Hsrc).
    by apply on_heap_ok, push_pushed.
  - intros q' [Q' HQ']. simpl in HQ'. apply Halloc1.
    apply lookup_insert_Some in HQ' as [[<- _]|[_ HQ']]; eauto.
  - split; [done|]. simpl. rewrite Forall_forall in Halive1 |- *.
    intros q' Hq'. destruct (decide (q' = q)) as [->|Hne].
    + rewrite lookup_insert_eq. eauto.
    + rewrite lookup_insert_ne by done. by apply Halive1.
  - intros j q' Q Hj HQ.
    assert (q' ∉ qs) as Hq' by (apply Hdisj; by eapply list_elem_of_lookup_2).
    assert (queues h1 !! q' = Some Q) as HQ1' by (by rewrite (Hold q' Hq')).
    assert ((ProducerBus.m_outputPipes p ++ qs) !! j = Some q') as Hj'
      by (by apply lookup_app_l_Some).
    simpl. destruct (decide (j = i)) as [->|Hne].
    + assert (q' = q) as -> by congruence.
      rewrite lookup_insert_eq. congruence.
    + rewrite lookup_insert_ne; [done|]. intros ->.
      apply Hne. symmetry. by apply (NoDup_lookup _ _ _ _ Hnd1 Hq Hj').
Qed.

Lemma pushOutput_at_optional_spec p h (i : nat) o :
  queues_allocated h → owned p h →
  ∃ qs h',
    ProducerBus.pushOutput_at_optional (Z.of_nat i) o (p, h)
      = Ok tt (ProducerBus.mk (ProducerBus.m_outputPipes p ++ qs), h') ∧
    queues_allocated h' ∧ owned (ProducerBus.mk (ProducerBus.m_outputPipes p ++ qs)) h' ∧
    views h' = views h ∧
    (∀ j q Q, ProducerBus.m_outputPipes p !! j = Some q → queues h !! q = Some Q →
       queues h' !! q = Some (if decide (j = i) then deliver Q o else Q)).
Proof.
  intros Halloc Hown. destruct o as [value|]; simpl.
  - destruct (pushOutput_at_spec p h i value Halloc Hown)
      as (qs & h' & ? & _ & ? & ? & ? & ?).
    exists qs, h'. split_and!; done.
  - exists [], h. rewrite app_nil_r. destruct p. split_and!; try done.
    intros j q Q _ HQ. by destruct (decide (j = i)).
Qed.

(** The loop from index [k] on delivers element [j - k] of the group to the
    queue at index [j], for the queues that exist when it starts. *)
Lemma pushOutput_from_optional_spec values : ∀ (k : nat) p h,
  queues_allocated h → owned p h →
  ∃ qs h',
    ProducerBus.pushOutput_from ProducerBus.pushOutput_at_optional (Z.of_nat k) values (p, h)
      = Ok tt (ProducerBus.mk (ProducerBus.m_outputPipes p ++ qs), h') ∧
    queues_allocated h' ∧ owned (ProducerBus.mk (ProducerBus.m_outputPipes p ++ qs)) h' ∧
    views h' = views h ∧
    (∀ j q Q, ProducerBus.m_outputPipes p !! j = Some q → queues h !! q = Some Q →
       queues h' !! q =
       Some (deliver Q (if decide (k ≤ j)%nat
                        then from_option id None (values !! (j - k)%nat) else None))).
Proof.
  induction values as [|o rest IH]; intros k p h Halloc Hown.
  - exists [], h. rewrite app_nil_r. destruct p. split_and!; try done.
    intros j q Q _ HQ. by destruct (decide (k ≤ j)%nat).
  - simpl.
    destruct (pushOutput_at_optional_spec p h k o Halloc Hown)
      as (qs1 & h1 & Hone & Halloc1 & Hown1 & Hviews1 & Hq1).
    replace (Z.of_nat k + 1)%Z with (Z.of_nat (S k)) by lia.
    destruct (IH (S k) _ h1 Halloc1 Hown1)
      as (qs2 & h' & Hrest & Halloc' & Hown' & Hviews' & Hq').
    simpl in Hrest, Hown'. rewrite <- app_assoc in Hrest, Hown'.
    exists (qs1 ++ qs2), h'. rewrite (bind_ok _ _ _ _ _ Hone).
    split_and!; try done; try congruence.
    intros j q Q Hj HQ.
    rewrite (Hq' j q _ (lookup_app_l_Some _ _ _ _ Hj) (Hq1 j q Q Hj HQ)).
    f_equal. destruct (decide (j = k)) as [->|Hne].
    + rewrite decide_False by lia. rewrite decide_True by lia.
      by rewrite Nat.sub_diag.
    + destruct (decide (k ≤ j)%nat) as [Hle|Hgt].
      * rewrite decide_True by lia.
        replace (j - k)%nat with (S (j - S k)) by lia. done.
      * by rewrite decide_False by lia.
Qed.

Lemma pushOutput_from_plain values : ∀ i (s : ProducerBus.t * heap T),
  ProducerBus.pushOutput_from ProducerBus.pushOutput_at i values s =
  ProducerBus.pushOutput_from ProducerBus.pushOutput_at_optional i (Some <$> values) s.
Proof.
  induction values as [|x rest IH]; intros i s; [done|].
  simpl. unfold bind. destruct (ProducerBus.pushOutput_at i x s); auto.
Qed.

(** Growth of the bus by one [pushOutput] of plain values. *)
Lemma pushOutput_from_length values : ∀ (k : nat) p h,
  queues_allocated h → owned p h →
  ∀ p' h', ProducerBus.pushOutput_from ProducerBus.pushOutput_at (Z.of_nat k) values (p, h)
             = Ok tt (p', h') →
  length (ProducerBus.m_outputPipes p') =
  (length (ProducerBus.m_outputPipes p) `max`
     (match values with [] => 0 | _ => k + length values end))%nat.
Proof.
  induction values as [|x rest IH]; intros k p h Halloc Hown p' h' Hrun.
  - simpl in Hrun. injection Hrun as <- <-. lia.
  - simpl in Hrun.
    destruct (pushOutput_at_spec p h k x Halloc Hown)
      as (qs1 & h1 & Hone & Hlen1 & Halloc1 & Hown1 & _).
    rewrite (bind_ok _ _ _ _ _ Hone) in Hrun.
    replace (Z.of_nat k + 1)%Z with (Z.of_nat (S k)) in Hrun by lia.
    rewrite (IH (S k) _ h1 Halloc1 Hown1 p' h' Hrun). simpl.
    rewrite length_app, Hlen1. destruct rest; simpl; lia.
Qed.

End BusOutput.

Section BusOutputPipe.
Context {T : Type}.
Implicit Types (h : heap T) (p : ProducerBus.t) (Q : Queue T).

Lemma getOutputPipe_spec p h (i : nat) :
  wf h → owned p h →
  ∃ v q qs h' Q',
    ProducerBus.getOutputPipe (Z.of_nat i) (p, h)
      = Ok v (ProducerBus.mk (ProducerBus.m_outputPipes p ++ qs), h') ∧
    length (ProducerBus.m_outputPipes p ++ qs)
      = (length (ProducerBus.m_outputPipes p) `max` S i)%nat ∧
    (ProducerBus.m_outputPipes p ++ qs) !! i = Some q ∧
    (∀ q', q' ∈ qs → queues h !! q' = None) ∧
    views h !! v = None ∧
    queues h' !! q = Some Q' ∧ v ∈ m_views Q' ∧
    views h' !! v = Some (mkView (Some q) (queue_size Q')) ∧
    covered h' v = [] ∧
    (length (ProducerBus.m_outputPipes p) ≤ i → m_impl Q' = [])%nat ∧
    (∀ w, w ≠ v → views h' !! w = views h !! w) ∧
    wf h' ∧ owned (ProducerBus.mk (ProducerBus.m_outputPipes p ++ qs)) h'.
Proof.
  intros Hwf Hown.
  destruct (getOutputPipeSource_spec p h i (wf_queues_allocated h Hwf))
    as (q & qs & h1 & Hsrc & Hq & Hlen & Halloc1 & Hviews & Hnd & Hnew & Hold & Hbrk & Hwf1).
  specialize (Hwf1 Hwf).
  destruct (owned_grown p h qs h1 Hown Hnd Hnew Hold) as [[Hnd1 Halive1] Hdisj].
  simpl in Hnd1, Halive1.
  assert (is_Some (queues h1 !! q)) as [Q1 HQ1].
  { rewrite Forall_forall in Halive1. apply Halive1. by eapply list_elem_of_lookup_2. }
  destruct (view_spec h1 q Q1 Hwf1 HQ1)
    as (h' & Hview & Hwf' & Hfresh & Hv' & Hcov & _ & _ & Hother & Hqueues).
  exists (brk h1), q, qs, h',
    (mkQueue (m_impl Q1) (m_referenceCounter Q1) ({[brk h1]} ∪ m_views Q1)).
  assert (h' = with_view h1 q Q1) as Hh'.
  { rewrite (view_unfold h1 q Q1 HQ1) in Hview. by injection Hview. }
  split_and!; try done.
  - unfold ProducerBus.getOutputPipe. rewrite (bind_ok _ _ _ _ _ Hsrc).
    by apply on_heap_ok.
  - rewrite length_app, Hlen. lia.
  - intros q' Hq'. by destruct (Hnew q' Hq').
  - by rewrite <- Hviews.
  - rewrite Hh'. simpl. by rewrite lookup_insert_eq.
  - simpl. apply elem_of_union_l. by apply elem_of_singleton.
  - intros Hi. simpl.
    assert (q ∈ qs) as Hqs.
    { apply lookup_app_Some in Hq as [Hq|[_ Hq]].
      - apply lookup_lt_Some in Hq. lia.
      - by eapply list_elem_of_lookup_2. }
    destruct (Hnew q Hqs) as [_ Hempty]. rewrite HQ1 in Hempty. by injection Hempty as ->.
  - intros w Hw. rewrite (Hother w Hw). by rewrite Hviews.
  - split; [done|]. simpl. rewrite Forall_forall in Halive1 |- *.
    intros q' Hq'. apply Hqueues. by apply Halive1.
Qed.

End BusOutputPipe.

(** The producer of the test after any number of ticks: the bus has its
    three queues, the views are the three pipes, and the third queue is what
    it was. *)
Lemma bus_producer_ticks n : ∀ (h : heap N),
  queues_allocated h → owned (ProducerBus.mk [1; 3; 5]%positive) h →
  ∃ h', ticks n bus_producer_tick (ProducerBus.mk [1; 3; 5]%positive, h)
          = Ok tt (ProducerBus.mk [1; 3; 5]%positive, h') ∧
        views h' = views h ∧ queues h' !! 5%positive = queues h !! 5%positive.
Proof.
  induction n as [|n IH]; intros h Halloc Hown.
  - by exists h.
  - destruct (pushOutput_from_optional_spec [Some 1; Some 2] 0
                (ProducerBus.mk [1; 3; 5]%positive) h Halloc Hown)
      as (qs & h1 & Hpush & Halloc1 & Hown1 & Hviews1 & Hroute).
    rewrite <- (pushOutput_from_plain [1; 2]) in Hpush.
    pose proof (pushOutput_from_length [1; 2] 0 _ h Halloc Hown _ _ Hpush) as Hlen.
    simpl in Hlen.
    destruct qs; [|simpl in Hlen; lia]. simpl in Hown1.
    assert (bus_producer_tick (ProducerBus.mk [1; 3; 5]%positive, h)
            = Ok tt (ProducerBus.mk [1; 3; 5]%positive, h1)) as Htick by exact Hpush.
    destruct (IH h1 Halloc1 Hown1) as (h' & Hticks & Hviews' & Hq5).
    exists h'. split_and!.
    + simpl. by rewrite (bind_ok _ _ _ _ _ Htick).
    + congruence.
    + rewrite Hq5. destruct Hown as [_ Halive].
      apply Forall_cons in Halive as [_ Halive].
      apply Forall_cons in Halive as [_ Halive].
      apply Forall_cons in Halive as [[Q5 HQ5] _].
      rewrite (Hroute 2%nat 5%positive Q5 eq_refl HQ5), HQ5. done.
Qed.

(** ** The loop of [unregisterView] *)

Section Release.
Context {T : Type}.
Implicit Types (h : heap T) (Q : Queue T) (V : View).

Lemma decreaseReferenceCount_inv h q Q i h' :
  queues h !! q = Some Q → decreaseReferenceCount q i h = Ok tt h' →
  ∃ c, m_referenceCounter Q !! N.to_nat i = Some c ∧
    ((decr c ≠ 0 ∧
      h' = set_queue q (mkQueue (m_impl Q) (<[N.to_nat i := decr c]> (m_referenceCounter Q))
                                (m_views Q)) h) ∨
     (decr c = 0 ∧ m_views Q ⊆ dom (views h) ∧
      h' = mkHeap (<[q := mkQueue (tail (m_impl Q))
                                  (tail (<[N.to_nat i := decr c]> (m_referenceCounter Q)))
                                  (m_views Q)]> (queues h))
                  (shift_views (m_views Q) (views h)) (brk h))).
Proof.
  intros Hq. unfold decreaseReferenceCount.
  rewrite (bind_ok _ _ _ _ _ (get_queue_ok _ _ _ Hq)).
  destruct (m_referenceCounter Q !! N.to_nat i) as [c|]; [|done].
  intros Hrun. exists c. split; [done|].
  destruct (N.eqb_spec (decr c) 0) as [Hz|Hnz].
  - right. destruct (m_impl Q) as [|x impl']; [done|].
    destruct (bool_decide_reflect (m_views Q ⊆ dom (views h))) as [Hsub|]; [|done].
    injection Hrun as <-. done.
  - left. injection Hrun as <-. done.
Qed.

Lemma release_loop_step n q v h V Q :
  views h !! v = Some V → queues h !! q = Some Q →
  release_loop (S n) q v h =
  if m_idx V =? queue_size Q then Ok tt h
  else (decreaseReferenceCount q (m_idx V) ;;' release_loop n q v)
         (set_view v (mkView (m_queue V) (incr (m_idx V))) h).
Proof.
  intros Hv Hq. simpl.
  rewrite (bind_ok _ _ _ _ _ (get_view_ok _ _ _ Hv)).
  rewrite (bind_ok _ _ _ _ _ (get_queue_ok _ _ _ Hq)).
  by destruct (m_idx V =? queue_size Q).
Qed.

(** Past [release_fuel], more fuel changes nothing: the loop has ended, by
    its test, by the exception of [at], or in undefined behaviour of the
    code itself. *)
Lemma release_loop_fuel q v n : ∀ h V Q,
  views h !! v = Some V → queues h !! q = Some Q → v ∈ m_views Q →
  N.of_nat (length (m_referenceCounter Q)) ≤ size_t_max →
  (length (m_referenceCounter Q) - N.to_nat (m_idx V) < n)%nat →
  ∀ n', (n ≤ n')%nat → release_loop n' q v h = release_loop n q v h.
Proof.
  induction n as [|n IH]; intros h V Q Hv Hq Hreg Hmax Hfuel n' Hn'; [lia|].
  destruct n' as [|n']; [lia|].
  rewrite !(release_loop_step _ q v h V Q) by done.
  destruct (m_idx V =? queue_size Q); [done|].
  set (h1 := set_view v (mkView (m_queue V) (incr (m_idx V))) h).
  unfold bind.
  destruct (decreaseReferenceCount q (m_idx V) h1) as [[] h2| | |] eqn:Hdec; try done.
  destruct (decreaseReferenceCount_inv h1 q Q _ h2 Hq Hdec) as (c & Hc & Hcase).
  apply lookup_lt_Some in Hc as Hlt.
  assert (incr (m_idx V) = m_idx V + 1) as Hincr by (apply incr_lt; lia).
  destruct Hcase as [[_ ->]|(_ & _ & ->)].
  - apply (IH _ (mkView (m_queue V) (incr (m_idx V)))
             (mkQueue (m_impl Q) (<[N.to_nat (m_idx V) := decr c]> (m_referenceCounter Q))
                      (m_views Q))); simpl; try done.
    + by rewrite lookup_insert_eq.
    + by rewrite lookup_insert_eq.
    + by rewrite length_insert.
    + rewrite length_insert, Hincr. lia.
    + lia.
  - apply (IH _ (mkView (m_queue V) (m_idx V))
             (mkQueue (tail (m_impl Q))
                      (tail (<[N.to_nat (m_idx V) := decr c]> (m_referenceCounter Q)))
                      (m_views Q))); simpl; try done.
    + rewrite lookup_shift_views, lookup_insert_eq. simpl.
      rewrite bool_decide_eq_true_2 by done. rewrite Hincr. f_equal. f_equal.
      rewrite decr_pos by lia. lia.
    + by rewrite lookup_insert_eq.
    + rewrite tail_length, length_insert. lia.
    + rewrite tail_length, length_insert. lia.
    + lia.
Qed.

(** [unregisterView] on a registered view runs its loop to the end: giving
    the loop more fuel than [release_fuel] gives the same outcome. *)
Lemma unregisterView_fuel h q Q v V n :
  views h !! v = Some V → queues h !! q = Some Q → v ∈ m_views Q →
  N.of_nat (length (m_referenceCounter Q)) ≤ size_t_max →
  (release_fuel Q V ≤ n)%nat →
  release_loop n q v h = release_loop (release_fuel Q V) q v h.
Proof.
  intros Hv Hq Hreg Hmax Hn.
  apply (release_loop_fuel q v (release_fuel Q V) h V Q); try done.
  unfold release_fuel. lia.
Qed.

End Release.

(** ** Copying a view *)

Section Copy.
Context {T : Type}.
Implicit Types (h : heap T) (Q : Queue T) (V : View).

(** Right after the copy, the new view has the queue and the offset of the
    original and covers what it covers; the queue has one more registered
    address and the owed counts it had. *)
Lemma View_copy_spec h o O :
  wf h → views h !! o = Some O →
  ∃ h', View_copy o h = Ok (brk h) h' ∧
        views h' !! brk h = Some (mkView (m_queue O) (m_idx O)) ∧
        views h' !! o = Some O ∧
        covered h' (brk h) = covered h o ∧ covered h' o = covered h o ∧
        (∀ q Q, queues h !! q = Some Q →
           ∃ Q', queues h' !! q = Some Q' ∧ m_impl Q' = m_impl Q ∧
                 m_referenceCounter Q' = m_referenceCounter Q ∧
                 m_views Q' = if decide (m_queue O = Some q)
                              then {[brk h]} ∪ m_views Q else m_views Q).
Proof.
  intros Hwf Ho.
  assert (o ≠ brk h) as Hne.
  { intros ->. pose proof (wf_view_addr h Hwf _ _ Ho). lia. }
  unfold View_copy. rewrite (bind_ok _ _ _ _ _ (get_view_ok _ _ _ Ho)).
  unfold alloc, registerView, set_view, ret, lock, get_queue, set_queue, bind. simpl.
  destruct (m_queue O) as [q|] eqn:HOq.
  - destruct (queues h !! q) as [Q|] eqn:HQ; simpl.
    + rewrite HQ. eexists. split; [done|]. simpl.
      rewrite lookup_insert_eq, lookup_insert_ne by done.
      unfold covered, lock. simpl.
      rewrite lookup_insert_eq, lookup_insert_ne, Ho by done. simpl.
      rewrite HOq, lookup_insert_eq, HQ. simpl. split_and!; try done.
      intros q' Q' HQ'. destruct (decide (Some q = Some q')) as [[= <-]|Hq].
      * rewrite lookup_insert_eq. assert (Q' = Q) as -> by congruence. eauto.
      * rewrite lookup_insert_ne by congruence. eauto.
    + eexists. split; [done|]. simpl.
      rewrite lookup_insert_eq, lookup_insert_ne by done.
      unfold covered, lock. simpl.
      rewrite lookup_insert_eq, lookup_insert_ne, Ho by done. simpl.
      rewrite HOq, HQ. split_and!; try done.
      intros q' Q' HQ'. destruct (decide (Some q = Some q')) as [[= <-]|Hq]; [congruence|].
      eauto.
  - eexists. split; [done|]. simpl.
    rewrite lookup_insert_eq, lookup_insert_ne by done.
    unfold covered, lock. simpl.
    rewrite lookup_insert_eq, lookup_insert_ne, Ho by done. simpl.
    rewrite HOq. split_and!; try done.
    intros q' Q' HQ'. eauto.
Qed.

End Copy.

(** The counts not being raised by a copy, the slot whose count reaches zero
    need not be the front one: here the copy's pop of [20] evicts [10],
    which the first view had not read, and that view's offset wraps. *)
Example copy_then_pop_behind_evicts_unread :
  ∃ h, copy_then_pop_behind empty_heap = Ok (10, 20, 20, [20], [0], size_t_max) h.
Proof. eexists. vm_compute. reflexivity. Qed.

(** The test [producer/bus_optional] for a [Producer<int[]>]: the first pipe
    pops [1], the second, given the absent element, is empty, and so is the
    third. *)
Example bus_producer_optional_test_result :
  ∃ s, bus_producer_optional_test (ProducerBus.ctor, empty_heap) = Ok (1, 0, 0) s.
Proof. eexists. vm_compute. reflexivity. Qed.

(** ** The invariant along the moves of a program *)

Section Reachable.
Context {T : Type}.
Implicit Types (h : heap T) (Q : Queue T) (V : View).

Lemma View_pop_ok_covered h v x h' :
  View_pop v h = Ok x h' → ∃ r, covered h v = x :: r.
Proof.
  unfold View_pop, get_view, bind at 1.
  destruct (views h !! v) as [V|] eqn:HV; [|done].
  unfold covered. rewrite HV.
  destruct (lock (m_queue V) h) as [[q Q]|]; [|done].
  unfold view_begin. destruct (m_idx V <=? queue_size Q); [|done].
  destruct (m_impl Q !! N.to_nat (m_idx V)) as [value|] eqn:Hx; [|done].
  unfold bind, ret.
  destruct (decreaseReferenceCount q (m_idx V) _) as [[] h2| | |]; try done.
  intros [= <- _]. rewrite (drop_S _ _ _ Hx). eauto.
Qed.

Lemma step_wf h h' : wf h → step h h' → wf h'.
Proof.
  intros Hwf Hstep. destruct Hstep as [h q h' Hmake|h q v h' Hview|h q Q value h' HQ Hroom Hpush|h v x h' Hpop].
  - destruct (make_spec h Hwf) as (Hrun & _ & Hwf').
    rewrite Hrun in Hmake. by injection Hmake as _ <-.
  - destruct (queues h !! q) as [Q|] eqn:HQ.
    + rewrite (view_unfold h q Q HQ) in Hview. injection Hview as _ <-.
      by apply wf_with_view.
    + unfold view, get_queue, bind in Hview. by rewrite HQ in Hview.
  - destruct (push_spec h q Q value Hwf HQ Hroom) as (h2 & Hrun & Hwf2 & _).
    rewrite Hrun in Hpush. by injection Hpush as <-.
  - destruct (View_pop_ok_covered h v x h' Hpop) as [r Hcov].
    destruct (View_pop_covered h v x r Hwf Hcov) as (h2 & Hrun & Hwf2 & _).
    rewrite Hrun in Hpop. by injection Hpop as <-.
Qed.

Lemma reachable_wf h : reachable h → wf h.
Proof.
  induction 1 as [|h h' _ IH Hstep]; [apply wf_empty_heap|].
  by apply (step_wf h h').
Qed.

End Reachable.

(** * The claims *)

Section QueueClaims.
Context {T : Type}.
Implicit Types (h : heap T) (Q : Queue T) (V : View).

(** C4.  A [push] on a queue with no registered view discards the value: the
    call returns normally and the state, the buffered elements included, is
    what it was. *)
Theorem push_without_views_discards h q Q value :
  queues h !! q = Some Q → m_views Q = ∅ → push q value h = Ok tt h.
Proof.
  intros Hq HX. rewrite (push_unfold h q Q value Hq). by rewrite decide_True.
Qed.

(** C7.  Once the queue of a view is destroyed, [pop], [waitFor], [size],
    [clear], [begin] and [end] of the view all throw the dangling-view
    error, and the error comes out of a consumer's [pullInput] and of the
    [tick] of its component, and of the circuit that ticks it. *)
Theorem dangling_view_raises h v V q :
  views h !! v = Some V → m_queue V = Some q →
  ∃ h', destroy_queue q h = Ok tt h' ∧
    View_pop v h' = Throw DanglingView h' ∧
    View_waitFor v h' = Throw DanglingView h' ∧
    View_size v h' = Throw DanglingView h' ∧
    View_clear v h' = Throw DanglingView h' ∧
    View_begin v h' = Throw DanglingView h' ∧
    View_end v h' = Throw DanglingView h' ∧
    (∀ c, Consumer1.m_inputPipe c = v →
       Consumer1.pullInput c h' = Throw DanglingView h' ∧
       ∀ impl rest,
         tick_consumer (Consumer1.pullInput c) impl h' = Throw DanglingView h' ∧
         Circuit_tick (tick_consumer (Consumer1.pullInput c) impl :: rest) h'
         = Throw DanglingView h').
Proof.
  intros Hv HVq. eexists. split; [done|].
  set (h' := mkHeap (delete q (queues h)) (views h) (brk h)).
  assert (views h' !! v = Some V) as Hv' by done.
  assert (lock (m_queue V) h' = None) as Hlock.
  { rewrite HVq. apply lock_dead. simpl. apply lookup_delete_eq. }
  destruct (dangling_members h' v V Hv' Hlock) as (? & ? & ? & ? & ? & ?).
  split_and!; try done.
  intros c <-.
  pose proof (dangling_pullInput h' c V Hv' Hlock) as Hpull.
  split; [done|]. intros impl rest.
  assert (tick_consumer (Consumer1.pullInput c) impl h' = Throw DanglingView h') as Htick.
  { unfold tick_consumer. by apply bind_throw. }
  split; [done|]. simpl. by apply bind_throw.
Qed.

(** C10.  A default-constructed view, such as the input pipe of a consumer
    that was never wired, throws the dangling-view error from [pop],
    [waitFor], [size], [clear], [begin] and [end].  Destroying it only ends
    the object; assigning over it releases nothing: no queue loses a slot, a
    count or a registration, and the view takes the source's queue and
    offset.  Unregistering a view that a queue does not have registered
    leaves the state as it is. *)
Theorem default_view_is_dangling h v V :
  views h !! v = Some V → m_queue V = None →
  (View_pop v h = Throw DanglingView h ∧
   View_waitFor v h = Throw DanglingView h ∧
   View_size v h = Throw DanglingView h ∧
   View_clear v h = Throw DanglingView h ∧
   View_begin v h = Throw DanglingView h ∧
   View_end v h = Throw DanglingView h) ∧
  (∀ c, Consumer1.m_inputPipe c = v → Consumer1.pullInput c h = Throw DanglingView h) ∧
  View_destroy v h = Ok tt (free_view v h) ∧
  (∀ other O, views h !! other = Some O →
     let h1 := set_view v (mkView (m_queue O) (m_idx O)) h in
     let h2 := set_view v (mkView (m_queue O) (m_idx O))
                 (set_view other (mkView None (m_idx O)) h) in
     View_assign v other h =
       match lock (m_queue O) h with
       | Some (q, Q) =>
           Ok tt (set_queue q (mkQueue (m_impl Q) (m_referenceCounter Q) ({[v]} ∪ m_views Q)) h1)
       | None => Ok tt h1
       end ∧
     View_move_assign v other h =
       match lock (m_queue O) h with
       | Some (q, Q) =>
           Ok tt (set_queue q (mkQueue (m_impl Q) (m_referenceCounter Q) ({[v]} ∪ m_views Q)) h2)
       | None => Ok tt h2
       end) ∧
  (∀ q Q, queues h !! q = Some Q → v ∉ m_views Q → unregisterView q v h = Ok tt h).
Proof.
  intros Hv HVq.
  assert (lock (m_queue V) h = None) as Hlock by (by rewrite HVq).
  split; [by apply (dangling_members h v V)|].
  split; [intros c <-; by apply (dangling_pullInput h c V)|].
  split; [|split].
  - unfold View_destroy. rewrite (bind_ok _ _ _ _ _ (get_view_ok _ _ _ Hv)).
    unfold bind. by rewrite Hlock.
  - intros other O HO h1 h2. split.
    + unfold View_assign. rewrite (bind_ok _ _ _ _ _ (get_view_ok _ _ _ Hv)).
      unfold bind at 1. rewrite Hlock.
      rewrite (bind_ok _ _ _ _ _ (get_view_ok _ _ _ HO)).
      unfold bind, registerView, get_queue, lock. simpl. fold h1.
      destruct (m_queue O) as [q|]; [|done].
      destruct (queues h !! q) as [Q|] eqn:HQ; [|done].
      unfold bind. subst h1. simpl. by rewrite HQ.
    + unfold View_move_assign. rewrite (bind_ok _ _ _ _ _ (get_view_ok _ _ _ Hv)).
      unfold bind at 1. rewrite Hlock.
      rewrite (bind_ok _ _ _ _ _ (get_view_ok _ _ _ HO)).
      unfold bind, registerView, get_queue, lock. simpl. fold h2.
      destruct (m_queue O) as [q|]; [|done].
      destruct (queues h !! q) as [Q|] eqn:HQ; [|done].
      unfold bind. subst h2. simpl. by rewrite HQ.
  - intros q Q. apply unregisterView_absent.
Qed.

End QueueClaims.

(** Witness of C4: pushing [7] to the queue nobody reads. *)
Lemma push_without_views_discards_witness :
  push 1%positive 7 no_reader_heap = Ok tt no_reader_heap.
Proof.
  apply (push_without_views_discards no_reader_heap 1%positive (mkQueue [] [] ∅));
    reflexivity.
Defined.

(** Witness of C7: the reader of [one_reader_heap], its queue destroyed. *)
Lemma dangling_view_raises_witness :
  ∃ h', destroy_queue 1%positive one_reader_heap = Ok tt h' ∧
        View_pop 2%positive h' = Throw DanglingView h' ∧
        View_size 2%positive h' = Throw DanglingView h'.
Proof.
  destruct (dangling_view_raises one_reader_heap 2%positive
              (mkView (Some 1%positive) 0) 1%positive eq_refl eq_refl)
    as (h' & Hd & Hpop & _ & Hsize & _).
  exists h'. split_and!; done.
Defined.

(** Witness of C10: the input pipe of a consumer that was never wired. *)
Lemma default_view_is_dangling_witness :
  Consumer1.ctor empty_heap = Ok (Consumer1.mk 1) unwired_heap ∧
  Consumer1.pullInput (Consumer1.mk 1) unwired_heap = Throw DanglingView unwired_heap ∧
  View_pop 1%positive unwired_heap = Throw DanglingView unwired_heap ∧
  View_destroy 1%positive unwired_heap = Ok tt (free_view 1%positive unwired_heap).
Proof.
  destruct (default_view_is_dangling unwired_heap 1%positive (mkView None 0)
              eq_refl eq_refl) as ((Hpop & _) & Hpull & Hdestroy & _).
  split; [reflexivity|].
  split; [by apply Hpull|]. split; done.
Defined.

Section PopClaims.
Context {T : Type}.
Implicit Types (h : heap T) (Q : Queue T) (V : View).

(** C1 (amended).  In a well-formed state, [pop] on a view whose queue is
    alive and whose range is not empty returns the element at the view's
    offset and takes one off that slot's owed count.  When the count stays
    positive, the queue keeps its slots, the view's offset goes up by one
    and no other view changes.  When the count reaches zero, the slot is the
    front one: the queue loses exactly its front slot, and the offset of
    every registered view goes down by one, that of the popping view
    included, which so ends at the offset it started from.  The queue loses
    a slot in no other case, and other queues are untouched. *)
Theorem View_pop_spec h v V q Q :
  wf h → views h !! v = Some V → m_queue V = Some q → queues h !! q = Some Q →
  m_idx V < queue_size Q →
  ∃ x c h',
    View_pop v h = Ok x h' ∧
    m_impl Q !! N.to_nat (m_idx V) = Some x ∧
    m_referenceCounter Q !! N.to_nat (m_idx V) = Some c ∧ 1 ≤ c ∧
    (∀ q', q' ≠ q → queues h' !! q' = queues h !! q') ∧
    if decide (c = 1) then
      m_idx V = 0 ∧
      queues h' !! q =
        Some (mkQueue (tail (m_impl Q)) (tail (m_referenceCounter Q)) (m_views Q)) ∧
      views h' !! v = Some (mkView (Some q) (m_idx V)) ∧
      (∀ w, w ∈ m_views Q → w ≠ v →
         ∃ W, views h !! w = Some W ∧ 1 ≤ m_idx W ∧
              views h' !! w = Some (mkView (m_queue W) (m_idx W - 1))) ∧
      (∀ w, w ∉ m_views Q → views h' !! w = views h !! w)
    else
      queues h' !! q =
        Some (mkQueue (m_impl Q)
                      (<[N.to_nat (m_idx V) := c - 1]> (m_referenceCounter Q))
                      (m_views Q)) ∧
      views h' !! v = Some (mkView (Some q) (m_idx V + 1)) ∧
      (∀ w, w ≠ v → views h' !! w = views h !! w).
Proof.
  intros Hwf Hv HVq Hq Hlt.
  assert (N.to_nat (m_idx V) < length (m_impl Q))%nat as Hlt'
    by (unfold queue_size in Hlt; lia).
  destruct (lookup_lt_is_Some_2 _ _ Hlt') as [x Hx].
  destruct (wf_counter_at h q Q _ Hwf Hq Hlt') as (c & Hc & Hpos & _).
  exists x, c. destruct (decide (c = 1)) as [->|Hne].
  - exists (pop_evicted h q v Q V).
    destruct (pop_evicted_views h q Q v V Hwf Hq Hv HVq Hc)
      as (Hzero & Hreg & Hv' & Hin & Hout).
    split_and!; try done.
    + by apply (View_pop_evicted h q Q v V x).
    + intros q' Hq'. simpl. by rewrite lookup_insert_ne.
    + simpl. by rewrite lookup_insert_eq.
    + by rewrite Hzero.
    + intros w Hw Hwv. destruct (Hin w Hw Hwv) as (W & HW & HWq & HWpos & HW').
      exists W. rewrite HWq. done.
  - exists (pop_kept h q v Q V c). split_and!; try done.
    + apply (View_pop_kept h q Q v V x c); try done. lia.
    + intros q' Hq'. simpl. by rewrite lookup_insert_ne.
    + simpl. by rewrite lookup_insert_eq.
    + simpl. by rewrite lookup_insert_eq, HVq.
    + intros w Hw. simpl. by rewrite lookup_insert_ne.
Qed.

End PopClaims.

Lemma wf_one_reader_heap : wf one_reader_heap.
Proof. apply wf_check_sound. vm_compute. reflexivity. Qed.

Example one_reader_script_builds :
  one_reader_script empty_heap = Ok tt one_reader_heap.
Proof. vm_compute. reflexivity. Qed.

(** Witness of C1: the only reader pops the only element. *)
Lemma View_pop_spec_witness :
  ∃ h', View_pop 2%positive one_reader_heap = Ok 7 h' ∧
        queues h' !! 1%positive = Some (mkQueue [] [] {[2%positive]}) ∧
        views h' !! 2%positive = Some (mkView (Some 1%positive) 0).
Proof.
  destruct (View_pop_spec one_reader_heap 2%positive (mkView (Some 1%positive) 0)
              1%positive (mkQueue [7] [1] {[2%positive]})
              wf_one_reader_heap eq_refl eq_refl eq_refl eq_refl)
    as (x & c & h' & Hpop & Hx & Hc & _ & _ & Hcase).
  injection Hx as <-. injection Hc as <-.
  destruct Hcase as (_ & Hq & Hv & _).
  exists h'. split_and!; done.
Defined.

(** Counterexample to C1 as stated: after the only reader has popped the
    only element, its offset is 0, where it started, and not 1. *)
Lemma pop_as_stated_fails : ¬ pop_as_stated one_reader_heap 2%positive.
Proof.
  intros Hclaim.
  destruct (Hclaim (mkView (Some 1%positive) 0) 1%positive
              (mkQueue [7] [1] {[2%positive]}) eq_refl eq_refl eq_refl eq_refl)
    as (x & c & h' & Hpop & _ & _ & Hidx & _).
  vm_compute in Hpop. injection Hpop as <- <-.
  vm_compute in Hidx. discriminate Hidx.
Qed.

(** C2, on the code: a view is copied while it covers [7] and the original
    pops.  The copy covered [7]; the pop returns [7] and, the copy not being
    counted, evicts it: the queue is empty, the copy's offset has wrapped to
    [size_t_max], and its [size()] and [pop()] are undefined.  The copy never
    sees the element. *)
Theorem copy_then_pop_loses_element :
  ∃ h, copy_then_pop empty_heap =
       Ok ([7], 7, [], Some size_t_max, true, true) h.
Proof. eexists. vm_compute. reflexivity. Qed.

Section RegistrationClaims.
Context {T : Type}.
Implicit Types (h : heap T) (Q : Queue T) (V : View).

(** C6.  In a well-formed state with a live queue [q]:
    - a view made by [view()] starts at the current length of the queue,
      covers nothing and reports size 0, and the other views cover what they
      covered;
    - a [push] appends the value to the range of every view of [q] that
      exists at that moment and changes the range of no other view; a view
      made after the push covers nothing, the pushed value included;
    - the range of a view is a suffix of the queue's one sequence, and [pop]
      takes its first element and leaves the ranges of the other views as
      they were: all views go through the elements in the order of the
      pushes. *)
Theorem views_see_what_is_pushed_after_them h q Q value :
  wf h → queues h !! q = Some Q → queue_size Q < size_t_max →
  (∃ v h1, view q h = Ok v h1 ∧ wf h1 ∧ views h !! v = None ∧
      views h1 !! v = Some (mkView (Some q) (queue_size Q)) ∧
      covered h1 v = [] ∧ View_size v h1 = Ok 0 h1 ∧
      (∀ w, w ≠ v → covered h1 w = covered h w)) ∧
  (∃ h2, push q value h = Ok tt h2 ∧ wf h2 ∧
      (∀ w, attached h q w → covered h2 w = covered h w ++ [value]) ∧
      (∀ w, ¬ attached h q w → covered h2 w = covered h w) ∧
      ∃ v h3, view q h2 = Ok v h3 ∧ wf h3 ∧ views h !! v = None ∧
        covered h3 v = [] ∧
        (∀ w, attached h q w → covered h3 w = covered h w ++ [value])) ∧
  (∀ w, attached h q w → covered h w `suffix_of` m_impl Q) ∧
  (∀ w x r, covered h w = x :: r →
     ∃ h4, View_pop w h = Ok x h4 ∧ wf h4 ∧ covered h4 w = r ∧
           ∀ w', w' ≠ w → covered h4 w' = covered h w').
Proof.
  intros Hwf Hq Hroom. split_and!.
  - destruct (view_spec h q Q Hwf Hq) as (h1 & ? & ? & ? & ? & ? & ? & ? & _).
    exists (brk h), h1. split_and!; done.
  - destruct (push_spec h q Q value Hwf Hq Hroom)
      as (h2 & Hpush & Hwf2 & [Hviews Hqueues] & Hatt & Hnatt).
    exists h2. split_and!; try done.
    destruct (proj2 (Hqueues q)) as [Q2 HQ2]; [eauto|].
    destruct (view_spec h2 q Q2 Hwf2 HQ2) as (h3 & ? & ? & Hfresh & _ & ? & _ & Hold & _).
    assert (views h !! brk h2 = None) as Hfresh'.
    { specialize (Hviews (brk h2)). rewrite Hfresh in Hviews.
      by destruct (views h !! brk h2). }
    exists (brk h2), h3. split_and!; try done.
    intros w Hw. rewrite Hold; [by apply Hatt|].
    intros ->. destruct Hw as (W & HW & _). congruence.
  - intros w Hw. by apply (covered_suffix h q Q).
  - intros w x r Hcov.
    destruct (View_pop_covered h w x r Hwf Hcov) as (h4 & ? & ? & ? & ? & _).
    exists h4. split_and!; done.
Qed.

End RegistrationClaims.

(** Witness of C6: a second view and a push of [8] on [one_reader_heap]. *)
Lemma views_see_what_is_pushed_after_them_witness :
  (∃ v h1, view 1%positive one_reader_heap = Ok v h1 ∧ covered h1 v = []) ∧
  (∃ h2, push 1%positive 8 one_reader_heap = Ok tt h2 ∧
         covered h2 2%positive = [7; 8]).
Proof.
  destruct (views_see_what_is_pushed_after_them one_reader_heap 1%positive
              (mkQueue [7] [1] {[2%positive]}) 8
              wf_one_reader_heap eq_refl eq_refl)
    as ((v & h1 & Hview & _ & _ & _ & Hnone & _) & (h2 & Hpush & _ & Hatt & _) & _).
  split.
  - exists v, h1. split; done.
  - exists h2. split; [done|].
    apply (Hatt 2%positive). exists (mkView (Some 1%positive) 0). split; reflexivity.
Defined.

Section JoinClaims.
Context {T : Type}.
Implicit Types (h : heap T) (c : ConsumerN.t).

(** C9.  For a consumer with a fixed number of inputs, in a well-formed state
    where its input views are live: when some input view covers nothing,
    [pullInput] returns nothing and the state is the one it started from;
    when every input view covers something, [pullInput] returns the first
    elements of the ranges, in the order of the inputs, each input view has
    lost exactly its first element, and no other view has lost or gained
    anything. *)
Theorem pullInput_all_or_nothing c h :
  wf h → NoDup (ConsumerN.m_inputPipes c) →
  Forall (live_view h) (ConsumerN.m_inputPipes c) →
  (Exists (λ v, covered h v = []) (ConsumerN.m_inputPipes c) →
     ConsumerN.pullInput c h = Ok None h) ∧
  (Forall (λ v, covered h v ≠ []) (ConsumerN.m_inputPipes c) →
     ∃ xs h', ConsumerN.pullInput c h = Ok (Some xs) h' ∧ wf h' ∧
       Forall2 (λ v x, covered h v = x :: covered h' v) (ConsumerN.m_inputPipes c) xs ∧
       (∀ w, w ∉ ConsumerN.m_inputPipes c → covered h' w = covered h w)).
Proof.
  intros Hwf Hnd Hlive.
  pose proof (allInputsReady_from_spec h true _ Hwf Hlive) as Hready. simpl in Hready.
  split.
  - intros Hempty. unfold ConsumerN.pullInput, ConsumerN.allInputsReady.
    rewrite (bind_ok _ _ _ _ _ Hready).
    assert (forallb (ready h) (ConsumerN.m_inputPipes c) = false) as ->; [|done].
    apply not_true_is_false. intros Hall.
    apply Exists_exists in Hempty as (v & Hv & Hcov).
    apply Is_true_true, forallb_True in Hall.
    rewrite Forall_forall in Hall. specialize (Hall v Hv).
    unfold ready in Hall. by rewrite Hcov in Hall.
  - intros Hfull. unfold ConsumerN.pullInput, ConsumerN.allInputsReady.
    rewrite (bind_ok _ _ _ _ _ Hready).
    assert (forallb (ready h) (ConsumerN.m_inputPipes c) = true) as ->.
    { apply Is_true_true, forallb_True. rewrite Forall_forall in Hfull |- *.
      intros v Hv. specialize (Hfull v Hv). unfold ready.
      by destruct (covered h v). }
    destruct (for_each_pop h _ Hwf Hnd Hfull) as (xs & h' & Hrun & Hwf' & _ & Hall & Hframe).
    exists xs, h'. split_and!; try done.
    unfold ConsumerN.getInputs. by rewrite (bind_ok _ _ _ _ _ Hrun).
Qed.

End JoinClaims.

Lemma wf_join_fed : wf (final join_fed empty_heap).
Proof. apply wf_check_sound. vm_compute. reflexivity. Qed.

Lemma wf_join_half_fed : wf (final join_half_fed empty_heap).
Proof. apply wf_check_sound. vm_compute. reflexivity. Qed.

Lemma join_live_views (h : heap N) :
  (∀ v, v = 3%positive ∨ v = 4%positive → live_view h v) →
  Forall (live_view h) [3%positive; 4%positive].
Proof. intros Hlive. repeat constructor; apply Hlive; auto. Qed.

Lemma join_pipes_distinct : NoDup [3; 4]%positive.
Proof.
  apply NoDup_cons. split; [|apply NoDup_singleton].
  intros Hin%list_elem_of_singleton. discriminate Hin.
Qed.

(** Witness of C9: the two-input consumer wired as in the tests.  With [123]
    in the first queue only it pulls nothing and the state stays; with [456]
    in the second as well it pulls both. *)
Lemma pullInput_all_or_nothing_witness :
  ConsumerN.pullInput (ConsumerN.mk [3; 4]%positive) (final join_half_fed empty_heap)
    = Ok None (final join_half_fed empty_heap) ∧
  ∃ h', ConsumerN.pullInput (ConsumerN.mk [3; 4]%positive) (final join_fed empty_heap)
    = Ok (Some [123; 456]) h'.
Proof.
  split.
  - apply (pullInput_all_or_nothing (ConsumerN.mk [3; 4]%positive)
             (final join_half_fed empty_heap) wf_join_half_fed).
    + exact join_pipes_distinct.
    + apply join_live_views. intros v [-> | ->].
      * exists (mkView (Some 1%positive) 0), 1%positive. eexists.
        split_and!; vm_compute; reflexivity.
      * exists (mkView (Some 2%positive) 0), 2%positive. eexists.
        split_and!; vm_compute; reflexivity.
    + apply Exists_cons_tl, Exists_cons_hd. vm_compute. reflexivity.
  - destruct (pullInput_all_or_nothing (ConsumerN.mk [3; 4]%positive)
                (final join_fed empty_heap) wf_join_fed) as [_ Hfull].
    + exact join_pipes_distinct.
    + apply join_live_views. intros v [-> | ->].
      * exists (mkView (Some 1%positive) 0), 1%positive. eexists.
        split_and!; vm_compute; reflexivity.
      * exists (mkView (Some 2%positive) 0), 2%positive. eexists.
        split_and!; vm_compute; reflexivity.
    + destruct Hfull as (xs & h' & Hpull & _ & Hall & _).
      { repeat constructor; vm_compute; discriminate. }
      exists h'. rewrite Hpull. do 2 f_equal.
      apply Forall2_cons_inv_l in Hall as (x1 & xs1 & H1 & Hall & ->).
      apply Forall2_cons_inv_l in Hall as (x2 & xs2 & H2 & Hall & ->).
      apply Forall2_nil_inv_l in Hall as ->.
      vm_compute in H1. vm_compute in H2. congruence.
Defined.

Section OptionalClaims.
Context {T : Type}.

(** C3.  (1) A single-output [Producer<T>] given an absent [std::optional<T>]
    pushes nothing: the state after the tick is the state the behaviour left.
    (2) A producer whose element type is [std::optional<T>] pushes the absent
    value like any other: every view of the output queue gets it at the end
    of its range.  (3) A consumer whose element type is [std::optional<T>]
    and whose input view has the absent value in front pulls it and invokes
    the behaviour with it. *)
Theorem absent_optional_suppressed_or_delivered :
  (∀ (p : Producer1.t) (impl : M (heap T) (option T)) h h1,
     impl h = Ok None h1 →
     Producer1.pushOutput_optional p None h1 = Ok tt h1 ∧
     tick_producer impl (Producer1.pushOutput_optional p) h = Ok tt h1) ∧
  (∀ (p : Producer1.t) (impl : M (heap (option T)) (option T)) h h1 Q,
     impl h = Ok None h1 → wf h1 →
     queues h1 !! Producer1.m_outputPipe p = Some Q → queue_size Q < size_t_max →
     ∃ h2, tick_producer impl (Producer1.pushOutput p) h = Ok tt h2 ∧ wf h2 ∧
       (m_views Q ≠ ∅ →
          m_impl <$> queues h2 !! Producer1.m_outputPipe p = Some (m_impl Q ++ [None])) ∧
       (∀ w, attached h1 (Producer1.m_outputPipe p) w →
             covered h2 w = covered h1 w ++ [None])) ∧
  (∀ (c : Consumer1.t) (impl : option T → M (heap (option T)) unit) h r,
     wf h → covered h (Consumer1.m_inputPipe c) = None :: r →
     ∃ h', Consumer1.pullInput c h = Ok (Some None) h' ∧
           covered h' (Consumer1.m_inputPipe c) = r ∧
           tick_consumer (Consumer1.pullInput c) impl h = impl None h').
Proof.
  split_and!.
  - intros p impl h h1 Himpl. split; [done|].
    unfold tick_producer. by rewrite (bind_ok _ _ _ _ _ Himpl).
  - intros p impl h h1 Q Himpl Hwf HQ Hroom.
    destruct (push_spec h1 _ Q None Hwf HQ Hroom) as (h2 & Hpush & Hwf2 & _ & Hatt & _).
    exists h2. split_and!; try done.
    + unfold tick_producer. by rewrite (bind_ok _ _ _ _ _ Himpl).
    + intros HX. rewrite (push_unfold h1 _ Q None HQ) in Hpush.
      rewrite decide_False in Hpush by done. injection Hpush as <-.
      simpl. by rewrite lookup_insert_eq.
  - intros c impl h r Hwf Hcov.
    destruct (Consumer1_pullInput_ready h c None r Hwf Hcov) as (h' & Hpull & _ & Hr & _).
    exists h'. split_and!; try done.
    unfold tick_consumer. by rewrite (bind_ok _ _ _ _ _ Hpull).
Qed.

End OptionalClaims.

Lemma wf_optional_consumer_fed :
  wf (final (w ←' optional_consumer_wiring; push w.1 None) empty_heap).
Proof. apply wf_check_sound. vm_compute. reflexivity. Qed.

Lemma wf_optional_producer_wired : wf (final optional_producer_wiring empty_heap).
Proof. apply wf_check_sound. vm_compute. reflexivity. Qed.

(** Witness of C3: a producer of [int] given an absent optional; a producer
    of optionals with one reader, given the absent value; and the consumer
    of optionals of the tests after [push(std::nullopt)]. *)
Lemma absent_optional_suppressed_or_delivered_witness :
  tick_producer (ret None) (Producer1.pushOutput_optional (Producer1.mk 1)) one_reader_heap
    = Ok tt one_reader_heap ∧
  (∃ h2, tick_producer (ret None) (Producer1.pushOutput (Producer1.mk 1))
           (final optional_producer_wiring empty_heap) = Ok tt h2 ∧
         covered h2 2%positive = [None]) ∧
  (∃ h', Consumer1.pullInput (Consumer1.mk 2)
           (final (w ←' optional_consumer_wiring; push w.1 None) empty_heap)
         = Ok (Some None) h').
Proof.
  destruct (@absent_optional_suppressed_or_delivered N) as (Hsupp & Hprod & Hcons).
  split_and!.
  - by apply (Hsupp (Producer1.mk 1) (ret None) one_reader_heap one_reader_heap).
  - destruct (Hprod (Producer1.mk 1) (ret None)
                (final optional_producer_wiring empty_heap)
                (final optional_producer_wiring empty_heap)
                (mkQueue [] [] {[2%positive]}) eq_refl wf_optional_producer_wired)
      as (h2 & Htick & _ & _ & Hatt); [vm_compute; reflexivity..|].
    exists h2. split; [done|].
    apply (Hatt 2%positive). exists (mkView (Some 1%positive) 0).
    split; vm_compute; reflexivity.
  - destruct (Hcons (Consumer1.mk 2) (λ _, ret tt)
                (final (w ←' optional_consumer_wiring; push w.1 None) empty_heap)
                [] wf_optional_consumer_fed) as (h' & Hpull & _).
    + vm_compute. reflexivity.
    + by exists h'.
Defined.

Section BusConsumerClaims.
Context {T : Type}.

(** C5 (amended).  For a bus consumer in a well-formed state with live input
    views, a [pullInput] attempt resumes at the first input view that has
    not contributed to the round and pops the views from there on, in the
    order of the pipes, for as long as each one is ready; it stops at the
    first that is not, and that view and the ones after it are left as they
    are, ready or not.  The values popped are appended to the accumulator.
    The pull succeeds, returning the accumulator and resetting it, exactly
    when the last view has contributed; otherwise it returns nothing and the
    accumulator is kept for the next attempt.  Views that contributed in an
    earlier attempt of the round are not popped again.  In the test with two
    pipes, no tick invokes the behaviour before both pipes have an element;
    the tick after [123] and [456] are there invokes it once, with
    [[123; 456]], and a further tick does not invoke it again. *)
Theorem bus_pullInput_in_order :
  (∀ (c : ConsumerBus.t T) (h : heap T),
     wf h → Forall (live_view h) (ConsumerBus.m_inputPipes c) →
     (length (ConsumerBus.m_inputs c) ≤ length (ConsumerBus.m_inputPipes c))%nat →
     ∃ r c' h' xs,
       ConsumerBus.pullInput (c, h) = Ok r (c', h') ∧ wf h' ∧
       ConsumerBus.m_inputPipes c' = ConsumerBus.m_inputPipes c ∧
       for_each View_pop
         (take (length xs)
            (drop (length (ConsumerBus.m_inputs c)) (ConsumerBus.m_inputPipes c))) h
         = Ok xs h' ∧
       match r with
       | Some ys =>
           ys = ConsumerBus.m_inputs c ++ xs ∧
           length ys = length (ConsumerBus.m_inputPipes c) ∧
           ConsumerBus.m_inputs c' = []
       | None =>
           ConsumerBus.m_inputs c' = ConsumerBus.m_inputs c ++ xs ∧
           ∃ pipe,
             ConsumerBus.m_inputPipes c !! length (ConsumerBus.m_inputs c') = Some pipe ∧
             covered h' pipe = []
       end) ∧
  (∀ realloc1 realloc2,
     ∃ s, bus_test realloc1 realloc2 ([], (ConsumerBus.ctor, empty_heap))
          = Ok [[]; []; [[123; 456]]; [[123; 456]]] s).
Proof.
  split.
  - intros c h. apply bus_pullInput_spec.
  - intros [] []; eexists; vm_compute; reflexivity.
Qed.

End BusConsumerClaims.

Lemma wf_bus_both_fed : wf (final bus_both_fed (ConsumerBus.ctor, empty_heap)).2.
Proof. apply wf_check_sound. vm_compute. reflexivity. Qed.

(** Witness of C5: the two-pipe bus consumer with [123] and [456] waiting. *)
Lemma bus_pullInput_in_order_witness :
  ∃ c' h',
    ConsumerBus.pullInput
      (ConsumerBus.mk [7; 6]%positive [], (final bus_both_fed (ConsumerBus.ctor, empty_heap)).2)
    = Ok (Some [123; 456]) (c', h').
Proof.
  destruct (@bus_pullInput_in_order N) as [Hspec _].
  destruct (Hspec (ConsumerBus.mk [7; 6]%positive [])
              (final bus_both_fed (ConsumerBus.ctor, empty_heap)).2 wf_bus_both_fed)
    as (r & c' & h' & xs & Hpull & _).
  - repeat constructor.
    + exists (mkView (Some 1%positive) 0), 1%positive. eexists.
      split_and!; vm_compute; reflexivity.
    + exists (mkView (Some 2%positive) 0), 2%positive. eexists.
      split_and!; vm_compute; reflexivity.
  - simpl. lia.
  - exists c', h'. rewrite Hpull. vm_compute in Hpull. by injection Hpull as <- _ _.
Defined.

(** Counterexample to C5 as stated: the first pipe is empty and the second
    holds [456].  The attempt returns nothing and leaves [456] where it is:
    the second view was ready and had not contributed, and was not popped. *)
Lemma bus_pull_as_stated_fails :
  ¬ bus_pull_as_stated (ConsumerBus.mk [7; 6]%positive [])
      (final bus_second_fed (ConsumerBus.ctor, empty_heap)).2.
Proof.
  intros Hclaim.
  specialize (Hclaim None (ConsumerBus.mk [7; 6]%positive [])
                (final bus_second_fed (ConsumerBus.ctor, empty_heap)).2
                1%nat 6%positive 456 []).
  assert (covered (final bus_second_fed (ConsumerBus.ctor, empty_heap)).2 6%positive = [])
    as Hcov; [|vm_compute in Hcov; discriminate Hcov].
  apply Hclaim; [vm_compute; reflexivity | simpl; lia | reflexivity | vm_compute; reflexivity].
Qed.

Lemma bus_pipes_distinct : NoDup [1; 3; 5]%positive.
Proof.
  exact (bool_decide_unpack (NoDup [1; 3; 5]%positive) I).
Qed.

Section BusProducerClaims.
Context {T : Type}.

(** C8.  For a bus producer that owns distinct live queues:
    - [getOutputPipe(i)], [i >= 0], grows the list of queues to [i + 1] when
      it is shorter, the added queues being new and empty, and returns a
      new view registered on queue [i], which covers nothing: the index can
      be had before there is any data;
    - pushing a group of optionals gives queue [j] the element [j] when that
      element is present, and leaves the queue as it is when the element is
      absent or the group has no element [j];
    - pushing a group of plain values gives queue [j] the element [j], leaves
      the queues past the group as they are, and grows the list to the
      length of the group when it is shorter;
    - in the test, after one tick the first pipe pops [1], the second pops
      [2] and the third has size 0, and the third has size 0 after any
      number of ticks. *)
Theorem bus_producer_routes_by_index :
  (∀ (p : ProducerBus.t) (h : heap T) (i : nat),
     wf h → owned p h →
     ∃ v q qs h' Q',
       ProducerBus.getOutputPipe (Z.of_nat i) (p, h)
         = Ok v (ProducerBus.mk (ProducerBus.m_outputPipes p ++ qs), h') ∧
       length (ProducerBus.m_outputPipes p ++ qs)
         = (length (ProducerBus.m_outputPipes p) `max` S i)%nat ∧
       (ProducerBus.m_outputPipes p ++ qs) !! i = Some q ∧
       (∀ q', q' ∈ qs → queues h !! q' = None) ∧
       views h !! v = None ∧
       queues h' !! q = Some Q' ∧ v ∈ m_views Q' ∧
       views h' !! v = Some (mkView (Some q) (queue_size Q')) ∧
       covered h' v = [] ∧
       (length (ProducerBus.m_outputPipes p) ≤ i → m_impl Q' = [])%nat ∧
       (∀ w, w ≠ v → views h' !! w = views h !! w) ∧
       wf h' ∧ owned (ProducerBus.mk (ProducerBus.m_outputPipes p ++ qs)) h') ∧
  (∀ (p : ProducerBus.t) (h : heap T) (values : list (option T)),
     queues_allocated h → owned p h →
     ∃ qs h',
       ProducerBus.pushOutput_optional values (p, h)
         = Ok tt (ProducerBus.mk (ProducerBus.m_outputPipes p ++ qs), h') ∧
       views h' = views h ∧
       ∀ j q Q, ProducerBus.m_outputPipes p !! j = Some q → queues h !! q = Some Q →
                queues h' !! q = Some (deliver Q (from_option id None (values !! j)))) ∧
  (∀ (p : ProducerBus.t) (h : heap T) (values : list T),
     queues_allocated h → owned p h →
     ∃ qs h',
       ProducerBus.pushOutput values (p, h)
         = Ok tt (ProducerBus.mk (ProducerBus.m_outputPipes p ++ qs), h') ∧
       views h' = views h ∧
       length (ProducerBus.m_outputPipes p ++ qs)
         = (length (ProducerBus.m_outputPipes p) `max` length values)%nat ∧
       ∀ j q Q, ProducerBus.m_outputPipes p !! j = Some q → queues h !! q = Some Q →
                queues h' !! q = Some (deliver Q (values !! j))) ∧
  (∃ s, bus_producer_test (ProducerBus.ctor, empty_heap) = Ok (1, 2, 0) s) ∧
  (∀ n, ∃ s, bus_producer_idle n (ProducerBus.ctor, empty_heap) = Ok 0 s).
Proof.
  split; [|split; [|split; [|split]]].
  - intros p h i. apply getOutputPipe_spec.
  - intros p h values Halloc Hown.
    destruct (pushOutput_from_optional_spec values 0 p h Halloc Hown)
      as (qs & h' & Hpush & _ & _ & Hviews & Hroute).
    exists qs, h'. split_and!; try done.
    intros j q Q Hj HQ. rewrite (Hroute j q Q Hj HQ).
    rewrite decide_True by lia. by rewrite Nat.sub_0_r.
  - intros p h values Halloc Hown.
    destruct (pushOutput_from_optional_spec (Some <$> values) 0 p h Halloc Hown)
      as (qs & h' & Hpush & _ & _ & Hviews & Hroute).
    rewrite <- pushOutput_from_plain in Hpush.
    exists qs, h'. split_and!; try done.
    + pose proof (pushOutput_from_length values 0 p h Halloc Hown _ _ Hpush) as Hlen.
      simpl in Hlen. rewrite Hlen. by destruct values.
    + intros j q Q Hj HQ. rewrite (Hroute j q Q Hj HQ).
      rewrite decide_True by lia. rewrite Nat.sub_0_r, list_lookup_fmap.
      by destruct (values !! j).
  - eexists. vm_compute. reflexivity.
  - intros n.
    assert (bus_producer_wiring (ProducerBus.ctor, empty_heap)
            = Ok (2, 4, 6)%positive
                 (final bus_producer_wiring (ProducerBus.ctor, empty_heap)))
      as Hwire by (vm_compute; reflexivity).
    assert (wf (final bus_producer_wiring (ProducerBus.ctor, empty_heap)).2) as Hwf0
      by (apply wf_check_sound; vm_compute; reflexivity).
    set (s0 := final bus_producer_wiring (ProducerBus.ctor, empty_heap)) in *.
    destruct (bus_producer_ticks n s0.2) as (h' & Hticks & Hviews & Hq5).
    + by apply wf_queues_allocated.
    + split.
      * apply bus_pipes_distinct.
      * repeat constructor; vm_compute; eauto.
    + exists (ProducerBus.mk [1; 3; 5]%positive, h').
      unfold bus_producer_idle. rewrite (bind_ok _ _ _ _ _ Hwire).
      change s0 with (ProducerBus.mk [1; 3; 5]%positive, s0.2).
      rewrite (bind_ok _ _ _ _ _ Hticks).
      apply on_heap_ok.
      assert (views h' !! 6%positive = Some (mkView (Some 5%positive) 0)) as Hv6
        by (rewrite Hviews; reflexivity).
      assert (queues h' !! 5%positive = Some (mkQueue [] [] {[6%positive]})) as HQ5
        by (rewrite Hq5; reflexivity).
      unfold View_size. rewrite (bind_ok _ _ _ _ _ (get_view_ok _ _ _ Hv6)).
      unfold lock. simpl. by rewrite HQ5.
Qed.

End BusProducerClaims.

(** Witness of C8: the third output pipe of a new bus producer. *)
Lemma bus_producer_routes_by_index_witness :
  ∃ v p' h', ProducerBus.getOutputPipe 2 (ProducerBus.ctor, @empty_heap N) = Ok v (p', h') ∧
             length (ProducerBus.m_outputPipes p') = 3%nat ∧ covered h' v = [].
Proof.
  destruct (@bus_producer_routes_by_index N) as [Hpipe _].
  destruct (Hpipe ProducerBus.ctor empty_heap 2%nat wf_empty_heap)
    as (v & q & qs & h' & Q' & Hget & Hlen & _ & _ & _ & _ & _ & _ & Hcov & _).
  - split; [apply NoDup_nil_2 | apply Forall_nil_2].
  - exists v, (ProducerBus.mk (ProducerBus.m_outputPipes ProducerBus.ctor ++ qs)), h'.
    split_and!; done.
Defined.

(** * Further properties of the code *)

(** ** What a pop leaves of the queues *)

Section PopFrame.
Context {T : Type}.
Implicit Types (h : heap T) (Q : Queue T) (V : View).

(** A pop registers and unregisters nobody, lengthens no queue and
    allocates nothing. *)
Lemma View_pop_queues h v x h' :
  wf h → View_pop v h = Ok x h' →
  brk h' = brk h ∧
  ∀ q Q, queues h !! q = Some Q →
    ∃ Q', queues h' !! q = Some Q' ∧ m_views Q' = m_views Q ∧
          (length (m_impl Q') ≤ length (m_impl Q))%nat.
Proof.
  intros Hwf Hpop.
  destruct (View_pop_ok_covered h v x h' Hpop) as [r Hcov].
  destruct (covered_cons_inv h v x r Hcov) as (V & q & Q & Hv & HVq & Hq & Hx & _).
  apply lookup_lt_Some in Hx as Hlt.
  destruct (wf_counter_at h q Q _ Hwf Hq Hlt) as (c & Hc & Hpos & _).
  destruct (decide (c = 1)) as [->|Hne].
  - rewrite (View_pop_evicted h q Q v V x) in Hpop by done. injection Hpop as <-.
    split; [done|]. intros q' Q' HQ'. simpl.
    destruct (decide (q' = q)) as [->|Hq'].
    + rewrite lookup_insert_eq. eexists. split; [done|]. simpl.
      assert (Q' = Q) as -> by congruence. split; [done|].
      rewrite tail_length. lia.
    + rewrite lookup_insert_ne by done. eauto.
  - rewrite (View_pop_kept h q Q v V x c) in Hpop by (done || lia). injection Hpop as <-.
    split; [done|]. intros q' Q' HQ'. simpl.
    destruct (decide (q' = q)) as [->|Hq'].
    + rewrite lookup_insert_eq. eexists. split; [done|]. simpl.
      assert (Q' = Q) as -> by congruence. done.
    + rewrite lookup_insert_ne by done. eauto.
Qed.

(** In a well-formed state a live view covers nothing exactly when its
    offset is the size of its queue. *)
Lemma covered_nil_idx h v V q Q :
  wf h → views h !! v = Some V → m_queue V = Some q → queues h !! q = Some Q →
  covered h v = [] ↔ m_idx V = queue_size Q.
Proof.
  intros Hwf Hv HVq Hq.
  destruct (wf_registered h Hwf q Q v V Hq Hv HVq) as [_ Hle].
  rewrite (covered_live h v V q Q) by done. unfold queue_size in *. split.
  - intros Hnil. apply (f_equal length) in Hnil. rewrite length_drop in Hnil.
    simpl in Hnil. lia.
  - intros Hidx. apply drop_ge. lia.
Qed.

(** One round of the loop of [unregisterView] is the state change of a
    [pop]. *)
Lemma release_loop_pop n q v h V x h' :
  views h !! v = Some V → m_queue V = Some q → is_Some (queues h !! q) →
  wf h → View_pop v h = Ok x h' →
  release_loop (S n) q v h = release_loop n q v h'.
Proof.
  intros Hv HVq [Q Hq] Hwf Hpop.
  destruct (View_pop_ok_covered h v x h' Hpop) as [r Hcov].
  destruct (covered_cons_inv h v x r Hcov) as (V' & q' & Q' & Hv' & HVq' & Hq' & Hx & _).
  assert (V' = V) as -> by congruence. assert (q' = q) as -> by congruence.
  assert (Q' = Q) as -> by congruence.
  rewrite (release_loop_step n q v h V Q Hv Hq).
  destruct (N.eqb_spec (m_idx V) (queue_size Q)) as [Heq|_].
  { apply lookup_lt_Some in Hx. unfold queue_size in Heq. lia. }
  rewrite (View_pop_unfold h v V q Q x Hv HVq Hq Hx) in Hpop.
  unfold bind in Hpop |- *.
  destruct (decreaseReferenceCount q (m_idx V) _) as [[] h2| | |]; try done.
  unfold ret in Hpop. by injection Hpop as <-.
Qed.

(** The loop pops the view's whole range: it ends with the view at the end
    of its queue, the other views covering what they covered. *)
Lemma release_loop_wf q v : ∀ n h,
  wf h → attached h q v → is_Some (queues h !! q) →
  (length (covered h v) ≤ n)%nat →
  ∃ h', release_loop n q v h = Ok tt h' ∧ wf h' ∧ covered h' v = [] ∧
        (∀ w, w ≠ v → covered h' w = covered h w) ∧ same_wiring h h' ∧
        brk h' = brk h ∧
        ∀ q' Q, queues h !! q' = Some Q →
          ∃ Q', queues h' !! q' = Some Q' ∧ m_views Q' = m_views Q ∧
                (length (m_impl Q') ≤ length (m_impl Q))%nat.
Proof.
  intros n. induction n as [n IH] using lt_wf_ind. intros h Hwf Hatt Hq Hn.
  destruct Hatt as (V & Hv & HVq). destruct Hq as [Q Hq].
  destruct (covered h v) as [|x r] eqn:Hcov.
  - assert (release_loop n q v h = Ok tt h) as Hrun.
    { apply (covered_nil_idx h v V q Q Hwf Hv HVq Hq) in Hcov.
      destruct n as [|n]; simpl;
        rewrite (bind_ok _ _ _ _ _ (get_view_ok _ _ _ Hv)),
                (bind_ok _ _ _ _ _ (get_queue_ok _ _ _ Hq));
        by destruct (N.eqb_spec (m_idx V) (queue_size Q)). }
    exists h. split_and!; try done; eauto.
  - destruct n as [|n]; [simpl in Hn; lia|].
    destruct (View_pop_covered h v x r Hwf Hcov) as (h1 & Hpop & Hwf1 & Hr & Hframe & Hwire).
    destruct (View_pop_queues h v x h1 Hwf Hpop) as [Hbrk1 Hqs1].
    rewrite (release_loop_pop n q v h V x h1 Hv HVq (ex_intro _ Q Hq) Hwf Hpop).
    destruct (IH n ltac:(lia) h1 Hwf1) as (h' & Hloop & Hwf' & Hnil & Hframe' & Hwire' & Hbrk' & Hqs').
    + destruct Hwire as [Hviews _]. specialize (Hviews v). rewrite Hv in Hviews.
      destruct (views h1 !! v) as [V1|] eqn:HV1; [|done].
      exists V1. split; [done|]. simpl in Hviews. congruence.
    + destruct Hwire as [_ Hqueues]. apply Hqueues. eauto.
    + rewrite Hr. simpl in Hn. lia.
    + exists h'. split_and!; try done.
      * intros w Hw. rewrite (Hframe' w Hw). by apply Hframe.
      * by apply (same_wiring_trans h h1 h').
      * congruence.
      * intros q' Q0 HQ0. destruct (Hqs1 q' Q0 HQ0) as (Q1 & HQ1 & HX1 & Hlen1).
        destruct (Hqs' q' Q1 HQ1) as (Q2 & HQ2 & HX2 & Hlen2).
        exists Q2. split_and!; [done|congruence|lia].
Qed.

End PopFrame.

(** ** Dropping and clearing a view *)

Section Unregister.
Context {T : Type}.
Implicit Types (h : heap T) (Q : Queue T) (V : View).

(** [unregisterView] on a view of a live queue, in a well-formed state: the
    loop runs to the end of the queue and the view is taken out of
    [m_views]. *)
Lemma unregisterView_run h q Q v V :
  wf h → views h !! v = Some V → m_queue V = Some q → queues h !! q = Some Q →
  ∃ h1 Q1 V1,
    unregisterView q v h
      = Ok tt (set_queue q (mkQueue (m_impl Q1) (m_referenceCounter Q1) (m_views Q ∖ {[v]})) h1) ∧
    wf h1 ∧ queues h1 !! q = Some Q1 ∧ m_views Q1 = m_views Q ∧
    views h1 !! v = Some V1 ∧ m_queue V1 = Some q ∧ m_idx V1 = queue_size Q1 ∧
    (length (m_impl Q1) ≤ length (m_impl Q))%nat ∧
    (∀ w, w ≠ v → covered h1 w = covered h w) ∧ same_wiring h h1 ∧ brk h1 = brk h ∧
    (∀ q' Q', q' ≠ q → queues h !! q' = Some Q' →
       ∃ Q1', queues h1 !! q' = Some Q1' ∧ m_views Q1' = m_views Q' ∧
              (length (m_impl Q1') ≤ length (m_impl Q'))%nat).
Proof.
  intros Hwf Hv HVq Hq.
  destruct (wf_registered h Hwf q Q v V Hq Hv HVq) as [Hreg Hle].
  destruct (release_loop_wf q v (release_fuel Q V) h Hwf)
    as (h1 & Hloop & Hwf1 & Hnil & Hframe & Hwire & Hbrk & Hqs).
  { by exists V. }
  { eauto. }
  { rewrite (covered_live h v V q Q) by done. rewrite length_drop.
    unfold release_fuel. rewrite <- (wf_lengths h Hwf q Q Hq). lia. }
  destruct (Hqs q Q Hq) as (Q1 & HQ1 & HX1 & Hlen1).
  pose proof Hwire as [Hviews _]. specialize (Hviews v). rewrite Hv in Hviews.
  destruct (views h1 !! v) as [V1|] eqn:HV1; [|done].
  assert (m_queue V1 = Some q) as HV1q by (simpl in Hviews; congruence).
  exists h1, Q1, V1. split_and!; try done.
  - unfold unregisterView.
    rewrite (bind_ok _ _ _ _ _ (get_queue_ok _ _ _ Hq)).
    rewrite bool_decide_eq_true_2 by done.
    rewrite (bind_ok _ _ _ _ _ (get_view_ok _ _ _ Hv)).
    rewrite (bind_ok _ _ _ _ _ Hloop).
    rewrite (bind_ok _ _ _ _ _ (get_queue_ok _ _ _ HQ1)). by rewrite HX1.
  - by apply (covered_nil_idx h1 v V1 q Q1 Hwf1 HV1 HV1q HQ1).
  - intros q' Q' _ HQ'. by apply Hqs.
Qed.

(** Taking the view out of [m_views] once it stands at the end of its queue,
    and ending the object, keeps the invariant. *)
Lemma wf_unregistered h q Q v V :
  wf h → queues h !! q = Some Q → views h !! v = Some V → m_queue V = Some q →
  m_idx V = queue_size Q →
  wf (free_view v (set_queue q (mkQueue (m_impl Q) (m_referenceCounter Q) (m_views Q ∖ {[v]})) h)).
Proof.
  intros Hwf Hq Hv HVq Hidx. split; simpl.
  - intros q' Q' [[-> <-]|[_ H']]%lookup_insert_Some; eauto using wf_queue_addr.
  - intros w W [_ HW]%lookup_delete_Some. eauto using wf_view_addr.
  - intros w W q' [_ HW]%lookup_delete_Some. eauto using wf_weak_addr.
  - intros q' Q' w [[-> <-]|[_ H']]%lookup_insert_Some Hw; simpl in *.
    + apply elem_of_difference in Hw as [Hw _]. eauto using wf_reg_addr.
    + eauto using wf_reg_addr.
  - intros q' Q' [[-> <-]|[_ H']]%lookup_insert_Some.
    + apply (wf_lengths h Hwf q' Q Hq).
    + by apply (wf_lengths h Hwf q').
  - intros q' Q' [[-> <-]|[_ H']]%lookup_insert_Some.
    + apply (wf_max h Hwf q' Q Hq).
    + by apply (wf_max h Hwf q').
  - intros q' Q' w W HQ' [Hne HW]%lookup_delete_Some HWq.
    apply lookup_insert_Some in HQ' as [[-> <-]|[_ HQ']]; simpl.
    + destruct (wf_registered h Hwf q' Q w W Hq HW HWq) as [Hw Hle].
      split; [|done]. apply elem_of_difference. split; [done|].
      by intros ->%elem_of_singleton.
    + by apply (wf_registered h Hwf q' Q' w W).
  - intros q' Q' i c [[-> <-]|[Hne HQ']]%lookup_insert_Some Hc; simpl in Hc.
    + destruct (wf_counts h Hwf q' Q i c Hq Hc) as [Hpos Hsize].
      split; [done|]. rewrite Hsize. do 2 f_equal. simpl.
      apply lookup_lt_Some in Hc as Hlt. rewrite <- (wf_lengths h Hwf q' Q Hq) in Hlt.
      apply set_eq. intros w. rewrite !elem_of_filter, elem_of_difference, elem_of_singleton.
      assert (w ≠ v → counted (free_view v (set_queue q' (mkQueue (m_impl Q) (m_referenceCounter Q)
                                  (m_views Q ∖ {[v]})) h)) q' i w = counted h q' i w) as Hsame.
      { intros Hw. apply counted_same_view. simpl. by rewrite lookup_delete_ne. }
      split.
      * intros [Hcw Hw]. destruct (decide (w = v)) as [->|Hwv].
        -- rewrite (counted_attached h q' i v V Hv HVq) in Hcw.
           apply Is_true_true, N.leb_le in Hcw. unfold queue_size in Hidx. lia.
        -- rewrite Hsame by done. done.
      * intros [Hcw [Hw Hwv]]. rewrite Hsame in Hcw by done. done.
    + destruct (wf_counts h Hwf q' Q' i c HQ' Hc) as [Hpos Hsize].
      split; [done|]. rewrite Hsize. do 2 f_equal.
      apply filter_agree. intros w _.
      destruct (decide (w = v)) as [->|Hwv].
      * rewrite (counted_elsewhere h q' i v V Hv) by congruence.
        rewrite counted_gone; [done|]. simpl. apply lookup_delete_eq.
      * rewrite (counted_same_view h (free_view v (set_queue q
                   (mkQueue (m_impl Q) (m_referenceCounter Q) (m_views Q ∖ {[v]})) h)) q' i w);
          [done|]. simpl. by rewrite lookup_delete_ne.
Qed.

End Unregister.

Section DropClear.
Context {T : Type}.
Implicit Types (h : heap T) (Q : Queue T) (V : View).

(** The destructor on a view of a live queue. *)
Lemma View_destroy_spec h v V q Q :
  wf h → views h !! v = Some V → m_queue V = Some q → queues h !! q = Some Q →
  ∃ h', View_destroy v h = Ok tt h' ∧ wf h' ∧ views h' !! v = None ∧
        (∀ w, w ≠ v → covered h' w = covered h w) ∧
        (∀ q' Q', queues h !! q' = Some Q' →
           ∃ Q1, queues h' !! q' = Some Q1 ∧
                 m_views Q1 = (if decide (q' = q) then m_views Q' ∖ {[v]} else m_views Q') ∧
                 (length (m_impl Q1) ≤ length (m_impl Q'))%nat).
Proof.
  intros Hwf Hv HVq Hq.
  destruct (unregisterView_run h q Q v V Hwf Hv HVq Hq)
    as (h1 & Q1 & V1 & Hun & Hwf1 & HQ1 & HX1 & HV1 & HV1q & Hidx1 & Hlen1 & Hframe & Hwire
        & Hbrk & Hqs).
  eexists. split_and!.
  - unfold View_destroy. rewrite (bind_ok _ _ _ _ _ (get_view_ok _ _ _ Hv)).
    unfold bind at 1. rewrite HVq, (lock_some _ _ _ Hq), Hun. done.
  - rewrite <- HX1. by apply (wf_unregistered h1 q Q1 v V1).
  - simpl. apply lookup_delete_eq.
  - intros w Hw. rewrite <- (Hframe w Hw). unfold covered, lock. simpl.
    rewrite lookup_delete_ne by done.
    destruct (views h1 !! w) as [W|]; [|done].
    destruct (m_queue W) as [q'|]; [|done].
    destruct (decide (q' = q)) as [->|Hq'].
    + by rewrite lookup_insert_eq, HQ1.
    + by rewrite lookup_insert_ne.
  - intros q' Q' HQ'. simpl. destruct (decide (q' = q)) as [->|Hq'].
    + rewrite lookup_insert_eq. eexists. split; [done|]. simpl.
      assert (Q' = Q) as -> by congruence. done.
    + rewrite lookup_insert_ne by done. by apply Hqs.
Qed.

(** X1.  Destroying a view of a live queue, in a well-formed state, returns
    normally and leaves a well-formed state: the view object is gone and no
    longer registered with its queue, the owed counts of the elements it had
    not read are settled (no queue grows, and nobody else is unregistered),
    and every other view covers exactly what it covered. *)
Theorem View_destroy_settles h v V q Q :
  wf h → views h !! v = Some V → m_queue V = Some q → queues h !! q = Some Q →
  ∃ h', View_destroy v h = Ok tt h' ∧ wf h' ∧ views h' !! v = None ∧
        (∀ w, w ≠ v → covered h' w = covered h w) ∧
        (∀ q' Q', queues h !! q' = Some Q' →
           ∃ Q1, queues h' !! q' = Some Q1 ∧
                 m_views Q1 = (if decide (q' = q) then m_views Q' ∖ {[v]} else m_views Q') ∧
                 (length (m_impl Q1) ≤ length (m_impl Q'))%nat).
Proof. apply View_destroy_spec. Qed.

(** [clear] on a view of a live queue. *)
Lemma View_clear_spec h v V q Q :
  wf h → views h !! v = Some V → m_queue V = Some q → queues h !! q = Some Q →
  ∃ h', View_clear v h = Ok tt h' ∧ wf h' ∧ covered h' v = [] ∧
        View_size v h' = Ok 0 h' ∧
        (∀ w, w ≠ v → covered h' w = covered h w) ∧
        (∀ q' Q', queues h !! q' = Some Q' →
           ∃ Q1, queues h' !! q' = Some Q1 ∧ m_views Q1 = m_views Q' ∧
                 (length (m_impl Q1) ≤ length (m_impl Q'))%nat).
Proof.
  intros Hwf Hv HVq Hq.
  destruct (wf_registered h Hwf q Q v V Hq Hv HVq) as [Hreg _].
  destruct (unregisterView_run h q Q v V Hwf Hv HVq Hq)
    as (h1 & Q1 & V1 & Hun & Hwf1 & HQ1 & HX1 & HV1 & HV1q & Hidx1 & Hlen1 & Hframe & Hwire
        & Hbrk & Hqs).
  assert (View_clear v h = Ok tt h1) as Hrun.
  { unfold View_clear. rewrite (bind_ok _ _ _ _ _ (get_view_ok _ _ _ Hv)).
    rewrite HVq, (lock_some _ _ _ Hq). rewrite (bind_ok _ _ _ _ _ Hun).
    unfold registerView, get_queue, bind, set_queue. simpl.
    rewrite lookup_insert_eq. simpl. f_equal.
    destruct h1 as [qs vs b]. simpl in *. f_equal.
    rewrite insert_insert_eq. apply insert_id. rewrite HQ1. f_equal.
    destruct Q1 as [impl counter X]. simpl in *. f_equal.
    rewrite HX1. apply set_eq. intros w.
    rewrite elem_of_union, elem_of_difference, !elem_of_singleton.
    destruct (decide (w = v)) as [->|]; tauto. }
  assert (covered h1 v = []) as Hnil
    by (by apply (covered_nil_idx h1 v V1 q Q1 Hwf1 HV1 HV1q HQ1)).
  exists h1. split_and!; try done.
  - rewrite View_size_covered; [by rewrite Hnil|done|]. by exists V1, q, Q1.
  - intros q' Q' HQ'. destruct (decide (q' = q)) as [->|Hq'].
    + assert (Q' = Q) as -> by congruence. eauto.
    + by apply Hqs.
Qed.

(** X2.  [clear()] on a view of a live queue, in a well-formed state,
    returns normally and leaves a well-formed state in which the view covers
    nothing and reports size 0, is still registered with its queue, and
    every other view covers exactly what it covered. *)
Theorem View_clear_resets h v V q Q :
  wf h → views h !! v = Some V → m_queue V = Some q → queues h !! q = Some Q →
  ∃ h', View_clear v h = Ok tt h' ∧ wf h' ∧ covered h' v = [] ∧
        View_size v h' = Ok 0 h' ∧
        (∀ w, w ≠ v → covered h' w = covered h w) ∧
        (∀ q' Q', queues h !! q' = Some Q' →
           ∃ Q1, queues h' !! q' = Some Q1 ∧ m_views Q1 = m_views Q' ∧
                 (length (m_impl Q1) ≤ length (m_impl Q'))%nat).
Proof. apply View_clear_spec. Qed.

End DropClear.

(** Witness of X1: the only reader of [one_reader_heap] is dropped before it
    has read [7]; the element goes with it. *)
Lemma View_destroy_settles_witness :
  ∃ h', View_destroy 2%positive one_reader_heap = Ok tt h' ∧
        queues h' !! 1%positive = Some (mkQueue [] [] ∅).
Proof.
  destruct (View_destroy_settles one_reader_heap 2%positive (mkView (Some 1%positive) 0)
              1%positive (mkQueue [7] [1] {[2%positive]})
              wf_one_reader_heap eq_refl eq_refl eq_refl)
    as (h' & Hrun & _).
  exists h'. split; [done|].
  vm_compute in Hrun. injection Hrun as <-. reflexivity.
Defined.

(** Witness of X2: the only reader of [one_reader_heap] clears its range. *)
Lemma View_clear_resets_witness :
  ∃ h', View_clear 2%positive one_reader_heap = Ok tt h' ∧ covered h' 2%positive = [] ∧
        queues h' !! 1%positive = Some (mkQueue [] [] {[2%positive]}).
Proof.
  destruct (View_clear_resets one_reader_heap 2%positive (mkView (Some 1%positive) 0)
              1%positive (mkQueue [7] [1] {[2%positive]})
              wf_one_reader_heap eq_refl eq_refl eq_refl)
    as (h' & Hrun & _ & Hnil & _).
  exists h'. split_and!; [done..|].
  vm_compute in Hrun. injection Hrun as <-. reflexivity.
Defined.

(** ** Moving a view *)

Section Move.
Context {T : Type}.
Implicit Types (h : heap T) (Q : Queue T) (V : View) (X : gset positive).

Lemma size_filter_swap (P1 P2 : positive → Prop)
    `{!∀ x, Decision (P1 x)} `{!∀ x, Decision (P2 x)} X o v :
  o ∈ X → v ∉ X → (P2 v ↔ P1 o) → (∀ w, w ∈ X → w ≠ o → P2 w ↔ P1 w) →
  size (filter P2 (({[v]} ∪ X) ∖ {[o]})) = size (filter P1 X).
Proof.
  intros Ho Hv Hov Hrest.
  assert (v ≠ o) as Hne by (intros ->; done).
  destruct (decide (P1 o)) as [Hp|Hp].
  - rewrite (size_filter_drop_one P1 (λ w, P1 w ∧ w ≠ o) X o); [|done|done|tauto|tauto].
    rewrite (size_filter_drop_one P2 (λ w, P2 w ∧ w ≠ v) (({[v]} ∪ X) ∖ {[o]}) v);
      [|apply elem_of_difference; split;
          [by apply elem_of_union_l, elem_of_singleton|by intros ?%elem_of_singleton]
       |tauto|tauto|tauto].
    f_equal. f_equal. apply set_eq. intros w.
    rewrite !elem_of_filter, elem_of_difference, elem_of_union, !elem_of_singleton.
    split.
    + intros ([Hw Hwv] & [[->|Hin] Hwo]); [done|]. split; [|done].
      split; [|done]. by apply Hrest.
    + intros ([Hw Hwo] & Hin). assert (w ≠ v) by (intros ->; done).
      split; [|tauto]. split; [|done]. by apply Hrest.
  - f_equal. apply set_eq. intros w.
    rewrite !elem_of_filter, elem_of_difference, elem_of_union, !elem_of_singleton.
    split.
    + intros (Hw & [[->|Hin] Hwo]); [tauto|]. split; [|done]. by apply Hrest.
    + intros (Hw & Hin). assert (w ≠ o) by (intros ->; done).
      split; [|tauto]. by apply Hrest.
Qed.

(** The move constructor on a view of a live queue. *)
Lemma View_move_spec h o O q Q :
  wf h → views h !! o = Some O → m_queue O = Some q → queues h !! q = Some Q →
  ∃ v h', View_move o h = Ok v h' ∧ wf h' ∧ views h !! v = None ∧
          views h' !! v = Some (mkView (Some q) (m_idx O)) ∧
          views h' !! o = Some (mkView None (m_idx O)) ∧
          covered h' v = covered h o ∧ covered h' o = [] ∧
          (∀ w, w ≠ v → w ≠ o → covered h' w = covered h w) ∧
          queues h' !! q =
            Some (mkQueue (m_impl Q) (m_referenceCounter Q) (({[v]} ∪ m_views Q) ∖ {[o]})) ∧
          (∀ q', q' ≠ q → queues h' !! q' = queues h !! q').
Proof.
  intros Hwf Ho HOq Hq.
  set (v := brk h).
  set (vs := <[v := mkView (Some q) (m_idx O)]> (<[o := mkView None (m_idx O)]> (views h))).
  set (h' := mkHeap (<[q := mkQueue (m_impl Q) (m_referenceCounter Q)
                                    (({[v]} ∪ m_views Q) ∖ {[o]})]> (queues h))
                    vs (Pos.succ (brk h))).
  destruct (wf_registered h Hwf q Q o O Hq Ho HOq) as [Hreg Hle].
  assert (views h !! v = None) as Hfresh.
  { destruct (views h !! v) as [V|] eqn:HV; [|done].
    pose proof (wf_view_addr h Hwf _ _ HV). unfold v in *. lia. }
  assert (∀ q' Q', queues h !! q' = Some Q' → v ∉ m_views Q') as Hunreg.
  { intros q' Q' HQ' Hin. pose proof (wf_reg_addr h Hwf _ _ _ HQ' Hin). unfold v in *. lia. }
  assert (o ≠ v) as Hov by (intros ->; congruence).
  assert (View_move o h = Ok v h') as Hrun.
  { unfold View_move. rewrite (bind_ok _ _ _ _ _ (get_view_ok _ _ _ Ho)).
    unfold alloc, swapView, set_view, set_queue, lock, get_queue, ret, bind. simpl.
    rewrite HOq, Hq. simpl. by rewrite Hq. }
  assert (vs !! v = Some (mkView (Some q) (m_idx O))) as Hv'
    by (unfold vs; by rewrite lookup_insert_eq).
  assert (vs !! o = Some (mkView None (m_idx O))) as Ho'
    by (unfold vs; by rewrite lookup_insert_ne, lookup_insert_eq).
  assert (∀ w, w ≠ v → w ≠ o → vs !! w = views h !! w) as Hother
    by (intros w ??; unfold vs; by rewrite !lookup_insert_ne).
  assert (∀ q' i w, w ≠ v → w ≠ o → counted h' q' i w = counted h q' i w) as Hsame.
  { intros q' i w ??. apply counted_same_view. by apply Hother. }
  assert (∀ q' i, counted h' q' i o = true) as Hcount_o.
  { intros q' i. by rewrite (counted_elsewhere h' q' i o (mkView None (m_idx O))). }
  assert (wf h') as Hwf'.
  { split; simpl.
    - intros q' Q' [[-> <-]|[_ HQ']]%lookup_insert_Some.
      + pose proof (wf_queue_addr h Hwf _ _ Hq). lia.
      + pose proof (wf_queue_addr h Hwf _ _ HQ'). lia.
    - intros w W HW. destruct (decide (w = v)) as [->|Hwv]; [unfold v; lia|].
      destruct (decide (w = o)) as [->|Hwo].
      + pose proof (wf_view_addr h Hwf _ _ Ho). lia.
      + rewrite Hother in HW by done. pose proof (wf_view_addr h Hwf _ _ HW). lia.
    - intros w W q' HW HWq. destruct (decide (w = v)) as [->|Hwv].
      + rewrite Hv' in HW. injection HW as <-. simpl in HWq. injection HWq as <-.
        pose proof (wf_queue_addr h Hwf _ _ Hq). lia.
      + destruct (decide (w = o)) as [->|Hwo].
        * rewrite Ho' in HW. injection HW as <-. done.
        * rewrite Hother in HW by done.
          pose proof (wf_weak_addr h Hwf _ _ _ HW HWq). lia.
    - intros q' Q' w [[-> <-]|[_ HQ']]%lookup_insert_Some Hw; simpl in *.
      + apply elem_of_difference in Hw as [[->%elem_of_singleton|Hw]%elem_of_union _].
        * unfold v. lia.
        * pose proof (wf_reg_addr h Hwf _ _ _ Hq Hw). lia.
      + pose proof (wf_reg_addr h Hwf _ _ _ HQ' Hw). lia.
    - intros q' Q' [[-> <-]|[_ HQ']]%lookup_insert_Some.
      + apply (wf_lengths h Hwf q' Q Hq).
      + by apply (wf_lengths h Hwf q').
    - intros q' Q' [[-> <-]|[_ HQ']]%lookup_insert_Some.
      + apply (wf_max h Hwf q' Q Hq).
      + by apply (wf_max h Hwf q').
    - intros q' Q' w W HQ' HW HWq. destruct (decide (w = v)) as [->|Hwv].
      + rewrite Hv' in HW. injection HW as <-. simpl in HWq. injection HWq as <-.
        rewrite lookup_insert_eq in HQ'. injection HQ' as <-. simpl.
        split; [|done]. set_solver.
      + destruct (decide (w = o)) as [->|Hwo].
        * rewrite Ho' in HW. injection HW as <-. done.
        * rewrite Hother in HW by done.
          apply lookup_insert_Some in HQ' as [[-> <-]|[_ HQ']]; simpl.
          -- destruct (wf_registered h Hwf q' Q w W Hq HW HWq). split; [|done]. set_solver.
          -- by apply (wf_registered h Hwf q' Q' w W).
    - intros q' Q' i c [[-> <-]|[Hne HQ']]%lookup_insert_Some Hc; simpl in Hc.
      + destruct (wf_counts h Hwf q' Q i c Hq Hc) as [Hpos Hsize].
        split; [done|]. rewrite Hsize. f_equal. simpl. symmetry.
        apply (size_filter_swap (λ w, counted h q' i w) (λ w, counted h' q' i w));
          [done|by apply (Hunreg q' Q)|..].
        * rewrite (counted_attached h' q' i v _ Hv' eq_refl).
          by rewrite (counted_attached h q' i o O Ho HOq).
        * intros w Hw Hwo. rewrite Hsame; [done| |done].
          intros ->. by apply (Hunreg q' Q).
      + destruct (wf_counts h Hwf q' Q' i c HQ' Hc) as [Hpos Hsize].
        split; [done|]. rewrite Hsize. do 2 f_equal.
        apply filter_agree. intros w Hw.
        assert (w ≠ v) as Hwv by (intros ->; by apply (Hunreg q' Q')).
        destruct (decide (w = o)) as [->|Hwo]; [|by rewrite Hsame].
        rewrite Hcount_o. by rewrite (counted_elsewhere h q' i o O Ho) by congruence. }
  exists v, h'. split_and!; try done.
  - unfold covered, lock. simpl. rewrite Hv', Ho. simpl.
    by rewrite lookup_insert_eq, HOq, Hq.
  - unfold covered. simpl. by rewrite Ho'.
  - intros w Hwv Hwo. unfold covered, lock. simpl. rewrite Hother by done.
    destruct (views h !! w) as [W|]; [|done].
    destruct (m_queue W) as [q'|]; [|done].
    destruct (decide (q' = q)) as [->|Hq'].
    + by rewrite lookup_insert_eq, Hq.
    + by rewrite lookup_insert_ne.
  - simpl. by rewrite lookup_insert_eq.
  - intros q' Hq'. simpl. by rewrite lookup_insert_ne.
Qed.

(** X3.  Move-constructing a view from a view [o] of a live queue, in a
    well-formed state, makes a new view with the queue, the offset and the
    range of [o], registered in place of [o]; [o] is left without a queue;
    the queue keeps its elements and owed counts, the other queues and the
    ranges of the other views are untouched, and the state stays
    well-formed. *)
Theorem View_move_transfers h o O q Q :
  wf h → views h !! o = Some O → m_queue O = Some q → queues h !! q = Some Q →
  ∃ v h', View_move o h = Ok v h' ∧ wf h' ∧ views h !! v = None ∧
          views h' !! v = Some (mkView (Some q) (m_idx O)) ∧
          views h' !! o = Some (mkView None (m_idx O)) ∧
          covered h' v = covered h o ∧ covered h' o = [] ∧
          (∀ w, w ≠ v → w ≠ o → covered h' w = covered h w) ∧
          queues h' !! q =
            Some (mkQueue (m_impl Q) (m_referenceCounter Q) (({[v]} ∪ m_views Q) ∖ {[o]})) ∧
          (∀ q', q' ≠ q → queues h' !! q' = queues h !! q').
Proof. apply View_move_spec. Qed.

End Move.

(** Witness of X3: the reader of [one_reader_heap] is moved to a new
    object. *)
Lemma View_move_transfers_witness :
  ∃ v h', View_move 2%positive one_reader_heap = Ok v h' ∧ covered h' v = [7] ∧
          covered h' 2%positive = [].
Proof.
  destruct (View_move_transfers one_reader_heap 2%positive (mkView (Some 1%positive) 0)
              1%positive (mkQueue [7] [1] {[2%positive]})
              wf_one_reader_heap eq_refl eq_refl eq_refl)
    as (v & h' & Hrun & _ & _ & _ & _ & Hv & Ho & _).
  exists v, h'. split_and!; done.
Defined.

(** ** Many pushes, many pops *)

Section RoundTrip.
Context {T : Type}.
Implicit Types (h : heap T) (Q : Queue T) (V : View).

Lemma same_wiring_attached h h' q w :
  same_wiring h h' → attached h q w ↔ attached h' q w.
Proof.
  intros [Hv _]. unfold attached. specialize (Hv w).
  destruct (views h !! w) as [W|], (views h' !! w) as [W'|]; simpl in Hv; try done.
  all: try (split; intros (V & ? & _); done).
  injection Hv as Hv.
  split; intros (V & [= <-] & HV); eexists; (split; [done|congruence]).
Qed.

Lemma push_size h q Q value h' :
  queues h !! q = Some Q → push q value h = Ok tt h' →
  ∃ Q', queues h' !! q = Some Q' ∧ queue_size Q' ≤ queue_size Q + 1.
Proof.
  intros Hq. rewrite (push_unfold h q Q value Hq). intros [= <-].
  destruct (decide (m_views Q = ∅)).
  - exists Q. split; [done|lia].
  - eexists. split; [simpl; by rewrite lookup_insert_eq|].
    unfold queue_size. simpl. rewrite length_app. simpl. lia.
Qed.

Lemma for_each_push q values : ∀ h Q,
  wf h → queues h !! q = Some Q →
  queue_size Q + N.of_nat (length values) ≤ size_t_max →
  ∃ h', for_each (push q) values h = Ok (replicate (length values) tt) h' ∧ wf h' ∧
        same_wiring h h' ∧
        (∀ w, attached h q w → covered h' w = covered h w ++ values) ∧
        (∀ w, ¬ attached h q w → covered h' w = covered h w).
Proof.
  induction values as [|value values IH]; intros h Q Hwf Hq Hroom.
  - destruct (same_wiring_refl h).
    exists h. split_and!; try done.
    intros w _. by rewrite app_nil_r.
  - simpl in Hroom.
    destruct (push_spec h q Q value Hwf Hq) as (h1 & Hpush & Hwf1 & Hsame1 & Hin1 & Hout1);
      [lia|].
    destruct (push_size h q Q value h1 Hq Hpush) as (Q1 & Hq1 & Hsize1).
    destruct (IH h1 Q1 Hwf1 Hq1) as (h2 & Hrun & Hwf2 & Hsame2 & Hin2 & Hout2); [lia|].
    destruct (same_wiring_trans h h1 h2 Hsame1 Hsame2).
    exists h2. split_and!; try done.
    + simpl. rewrite (bind_ok _ _ _ _ _ Hpush). by rewrite (bind_ok _ _ _ _ _ Hrun).
    + intros w Hw. rewrite Hin2 by (by apply (same_wiring_attached h h1)).
      rewrite Hin1 by done. by rewrite <- app_assoc.
    + intros w Hw. rewrite Hout2 by (by rewrite <- (same_wiring_attached h h1)).
      by apply Hout1.
Qed.

Lemma for_each_pop_prefix v l1 : ∀ l2 h,
  wf h → covered h v = l1 ++ l2 →
  ∃ h', for_each View_pop (replicate (length l1) v) h = Ok l1 h' ∧ wf h' ∧
        covered h' v = l2 ∧ (∀ w, w ≠ v → covered h' w = covered h w) ∧
        same_wiring h h'.
Proof.
  induction l1 as [|x l1 IH]; intros l2 h Hwf Hcov.
  - destruct (same_wiring_refl h). by exists h.
  - destruct (View_pop_covered h v x (l1 ++ l2) Hwf Hcov)
      as (h1 & Hpop & Hwf1 & Hcov1 & Hframe1 & Hsame1).
    destruct (IH l2 h1 Hwf1 Hcov1) as (h2 & Hrun & Hwf2 & Hcov2 & Hframe2 & Hsame2).
    destruct (same_wiring_trans h h1 h2 Hsame1 Hsame2).
    exists h2. split_and!; try done.
    + simpl. rewrite (bind_ok _ _ _ _ _ Hpop). by rewrite (bind_ok _ _ _ _ _ Hrun).
    + intros w Hw. rewrite Hframe2 by done. by apply Hframe1.
Qed.

(** X4.  In a well-formed state, as many [pop]s on a view as the prefix
    [l1] of its range is long return [l1], in order, and leave the view
    covering the rest of its range; the range of every other view is as it
    was, whether it is a view of the same queue or not, and the state stays
    well-formed. *)
Theorem pops_return_range_in_order h v l1 l2 :
  wf h → covered h v = l1 ++ l2 →
  ∃ h', for_each View_pop (replicate (length l1) v) h = Ok l1 h' ∧ wf h' ∧
        covered h' v = l2 ∧ (∀ w, w ≠ v → covered h' w = covered h w).
Proof.
  intros Hwf Hcov.
  destruct (for_each_pop_prefix v l1 l2 h Hwf Hcov) as (h' & ? & ? & ? & ? & _).
  by exists h'.
Qed.

(** X5.  In a well-formed state, pushing the values of a list one after the
    other to a live queue with room for them appends the list, in order, to
    the range of every view of the queue, changes no other range, and keeps
    the state well-formed. *)
Theorem pushes_extend_every_view h q Q values :
  wf h → queues h !! q = Some Q →
  queue_size Q + N.of_nat (length values) ≤ size_t_max →
  ∃ h', for_each (push q) values h = Ok (replicate (length values) tt) h' ∧ wf h' ∧
        (∀ w, attached h q w → covered h' w = covered h w ++ values) ∧
        (∀ w, ¬ attached h q w → covered h' w = covered h w).
Proof.
  intros Hwf Hq Hroom.
  destruct (for_each_push q values h Q Hwf Hq Hroom) as (h' & ? & ? & _ & ? & ?).
  by exists h'.
Qed.

(** X6.  First in, first out, for every reader on its own: in a well-formed
    state, after the values of a list are pushed to a queue, a view [v] of
    the queue pops what it covered before followed by the list, then covers
    nothing; every other view of the queue still has all of it to read, and
    the views of other queues are not concerned. *)
Theorem pushed_values_are_popped_in_order h q Q v values :
  wf h → queues h !! q = Some Q → attached h q v →
  queue_size Q + N.of_nat (length values) ≤ size_t_max →
  ∃ h1 h2,
    for_each (push q) values h = Ok (replicate (length values) tt) h1 ∧
    for_each View_pop (replicate (length (covered h v ++ values)) v) h1 =
      Ok (covered h v ++ values) h2 ∧
    wf h2 ∧ covered h2 v = [] ∧
    (∀ w, w ≠ v → attached h q w → covered h2 w = covered h w ++ values) ∧
    (∀ w, w ≠ v → ¬ attached h q w → covered h2 w = covered h w).
Proof.
  intros Hwf Hq Hv Hroom.
  destruct (for_each_push q values h Q Hwf Hq Hroom)
    as (h1 & Hpush & Hwf1 & _ & Hin & Hout).
  destruct (for_each_pop_prefix v (covered h v ++ values) [] h1 Hwf1)
    as (h2 & Hpop & Hwf2 & Hcov2 & Hframe & _).
  { rewrite app_nil_r. by apply Hin. }
  exists h1, h2. split_and!; try done.
  - intros w Hne Hw. rewrite Hframe by done. by apply Hin.
  - intros w Hne Hw. rewrite Hframe by done. by apply Hout.
Qed.

End RoundTrip.

(** Witness of X4: the reader of [one_reader_heap] pops the [7] it covers. *)
Lemma pops_return_range_in_order_witness :
  ∃ h', for_each View_pop (replicate (length [7]) 2%positive) one_reader_heap = Ok [7] h' ∧
        wf h' ∧ covered h' 2%positive = [] ∧
        (∀ w, w ≠ 2%positive → covered h' w = covered one_reader_heap w).
Proof.
  apply (pops_return_range_in_order one_reader_heap 2%positive [7] []).
  - apply wf_check_sound. vm_compute. reflexivity.
  - vm_compute. reflexivity.
Defined.

(** Witness of X5: two values pushed to the queue of [one_reader_heap]. *)
Lemma pushes_extend_every_view_witness :
  ∃ h', for_each (push 1%positive) [8; 9] one_reader_heap =
          Ok (replicate (length [8; 9]) tt) h' ∧ wf h' ∧
        (∀ w, attached one_reader_heap 1%positive w →
              covered h' w = covered one_reader_heap w ++ [8; 9]) ∧
        (∀ w, ¬ attached one_reader_heap 1%positive w →
              covered h' w = covered one_reader_heap w).
Proof.
  apply (pushes_extend_every_view one_reader_heap 1%positive (mkQueue [7] [1] {[2%positive]})).
  - apply wf_check_sound. vm_compute. reflexivity.
  - vm_compute. reflexivity.
  - vm_compute. discriminate.
Defined.

(** Witness of X6: the reader of [one_reader_heap] pops [7; 8; 9]. *)
Lemma pushed_values_are_popped_in_order_witness :
  ∃ h1 h2,
    for_each (push 1%positive) [8; 9] one_reader_heap =
      Ok (replicate (length [8; 9]) tt) h1 ∧
    for_each View_pop
      (replicate (length (covered one_reader_heap 2%positive ++ [8; 9])) 2%positive) h1 =
      Ok (covered one_reader_heap 2%positive ++ [8; 9]) h2 ∧
    wf h2 ∧ covered h2 2%positive = [] ∧
    (∀ w, w ≠ 2%positive → attached one_reader_heap 1%positive w →
          covered h2 w = covered one_reader_heap w ++ [8; 9]) ∧
    (∀ w, w ≠ 2%positive → ¬ attached one_reader_heap 1%positive w →
          covered h2 w = covered one_reader_heap w).
Proof.
  apply (pushed_values_are_popped_in_order one_reader_heap 1%positive
           (mkQueue [7] [1] {[2%positive]}) 2%positive [8; 9]).
  - apply wf_check_sound. vm_compute. reflexivity.
  - vm_compute. reflexivity.
  - exists (mkView (Some 1%positive) 0). split; vm_compute; reflexivity.
  - vm_compute. discriminate.
Defined.

(** ** What a queue holds, and for whom *)

Section Owed.
Context {T : Type}.
Implicit Types (h : heap T) (Q : Queue T) (V : View).


Lemma not_attached_counted h q i s : ¬ attached h q s → counted h q i s = true.
Proof.
  intros Hs. unfold counted. destruct (views h !! s) as [S|] eqn:HS; [|done].
  destruct (decide (m_queue S = Some q)) as [HSq|]; [|done].
  destruct Hs. by exists S.
Qed.

Lemma size_two (X : gset positive) x y : x ∈ X → y ∈ X → x ≠ y → (2 ≤ size X)%nat.
Proof.
  intros Hx Hy Hne.
  assert ({[x]} ∪ {[y]} ⊆ X) as Hsub.
  { intros z [->%elem_of_singleton| ->%elem_of_singleton]%elem_of_union; done. }
  apply subseteq_size in Hsub. rewrite size_union in Hsub.
  - by rewrite !size_singleton in Hsub.
  - intros z ->%elem_of_singleton ?%elem_of_singleton. done.
Qed.


(** A [pop] on a queue with a registered address that is not a view of it. *)
Lemma pop_beside_stale_registration h q Q s v x r :
  wf h → queues h !! q = Some Q → s ∈ m_views Q → ¬ attached h q s →
  attached h q v → covered h v = x :: r →
  ∃ h' Q', View_pop v h = Ok x h' ∧ wf h' ∧ covered h' v = r ∧
           queues h' !! q = Some Q' ∧ m_impl Q' = m_impl Q ∧ m_views Q' = m_views Q ∧
           ¬ attached h' q s.
Proof.
  intros Hwf Hq Hs Hstale (V & Hv & HVq) Hcov.
  destruct (covered_cons_inv h v x r Hcov) as (V' & q' & Q' & Hv' & HVq' & Hq' & Hx & ->).
  assert (V' = V) as -> by congruence.
  assert (q' = q) as -> by congruence.
  assert (Q' = Q) as -> by congruence.
  apply lookup_lt_Some in Hx as Hlt.
  destruct (wf_counter_at h q Q _ Hwf Hq Hlt) as (c & Hc & _ & Hsize).
  destruct (wf_registered h Hwf q Q v V Hq Hv HVq) as [Hreg _].
  assert (v ≠ s) as Hvs by (intros ->; apply Hstale; by exists V).
  assert (2 ≤ c) as Hge.
  { pose proof (size_two (filter (λ w, counted h q (N.to_nat (m_idx V)) w) (m_views Q)) v s)
      as Htwo.
    assert (2 ≤ size (filter (λ w, counted h q (N.to_nat (m_idx V)) w) (m_views Q)))%nat;
      [|lia].
    apply Htwo; [| |done].
    - apply elem_of_filter. split; [|done].
      rewrite (counted_attached h q _ v V Hv HVq). apply Is_true_true, N.leb_le. lia.
    - apply elem_of_filter. split; [|done].
      by rewrite not_attached_counted. }
  assert (m_idx V < queue_size Q) as Hlt' by (unfold queue_size; lia).
  destruct (covered_pop_kept h q Q v V c x Hwf Hq Hv HVq Hx) as (Hcov' & _ & _).
  exists (pop_kept h q v Q V c). eexists. split_and!.
  - by apply (View_pop_kept h q Q v V x c).
  - by apply wf_pop_kept.
  - done.
  - simpl. by rewrite lookup_insert_eq.
  - done.
  - done.
  - intros (S & HS & HSq). simpl in HS. rewrite lookup_insert_ne in HS by done.
    apply Hstale. by exists S.
Qed.

(** X8.  An address left in [m_views] that is not a view of the queue (the
    moved-from object of a move assignment, which the source never
    unregisters) is counted in every owed count and never pops: in a
    well-formed state, a [pop] by a view of such a queue returns the head of
    the view's range and evicts nothing; the queue holds the same elements
    afterwards and the address is still registered. *)
Theorem stale_registration_keeps_every_element h q Q s v x r :
  wf h → queues h !! q = Some Q → s ∈ m_views Q → ¬ attached h q s →
  attached h q v → covered h v = x :: r →
  ∃ h' Q', View_pop v h = Ok x h' ∧ wf h' ∧ covered h' v = r ∧
           queues h' !! q = Some Q' ∧ m_impl Q' = m_impl Q ∧ m_views Q' = m_views Q ∧
           ¬ attached h' q s.
Proof. apply pop_beside_stale_registration. Qed.

End Owed.


(** Witness of X8, on [stale_reader_heap]: the reader pops the [7] and the
    queue keeps it. *)
Lemma stale_registration_keeps_every_element_witness :
  ∃ h' Q', View_pop 2%positive stale_reader_heap = Ok 7 h' ∧ wf h' ∧
           covered h' 2%positive = [] ∧
           queues h' !! 1%positive = Some Q' ∧
           m_impl Q' = m_impl (mkQueue [7] [2] {[2%positive; 3%positive]}) ∧
           m_views Q' = m_views (mkQueue [7] [2] {[2%positive; 3%positive]}) ∧
           ¬ attached h' 1%positive 3%positive.
Proof.
  apply (stale_registration_keeps_every_element stale_reader_heap 1%positive
           (mkQueue [7] [2] {[2%positive; 3%positive]}) 3%positive 2%positive 7 []).
  - apply wf_check_sound. vm_compute. reflexivity.
  - vm_compute. reflexivity.
  - simpl. apply elem_of_union. right. apply elem_of_singleton. reflexivity.
  - intros (S & HS & _). vm_compute in HS. discriminate.
  - exists (mkView (Some 1%positive) 0). split; vm_compute; reflexivity.
  - vm_compute. reflexivity.
Defined.

(** ** [Consumer<In>]: wiring and pulling *)

Section SingleConsumer.
Context {T : Type}.
Implicit Types (h : heap T) (Q : Queue T) (V : View) (c : Consumer1.t).

Lemma setInputPipe_run h c D p P q Q :
  views h !! Consumer1.m_inputPipe c = Some D → lock (m_queue D) h = None →
  views h !! p = Some P → m_queue P = Some q → queues h !! q = Some Q →
  Consumer1.setInputPipe c p h = Ok tt (wired h (Consumer1.m_inputPipe c) p q Q (m_idx P)).
Proof.
  intros Hd HD Hp HPq Hq.
  assert (p ≠ Consumer1.m_inputPipe c) as Hne.
  { intros ->. assert (D = P) as -> by congruence.
    by rewrite HPq, (lock_some _ _ _ Hq) in HD. }
  unfold Consumer1.setInputPipe, View_move_assign.
  erewrite bind_ok; [|].
  2:{ rewrite (bind_ok _ _ _ _ _ (get_view_ok _ _ _ Hd)).
      unfold bind at 1. rewrite HD.
      rewrite (bind_ok _ _ _ _ _ (get_view_ok _ _ _ Hp)).
      unfold bind at 1. rewrite HPq.
      unfold lock. simpl. rewrite Hq.
      unfold registerView, bind, get_queue. simpl. rewrite Hq. reflexivity. }
  unfold View_destroy, bind, get_view. simpl.
  rewrite lookup_insert_ne by done. rewrite lookup_insert_eq. simpl.
  reflexivity.
Qed.

Lemma wf_wired h d D p P q Q :
  wf h → views h !! d = Some D → lock (m_queue D) h = None →
  views h !! p = Some P → m_queue P = Some q → queues h !! q = Some Q →
  m_impl Q = [] →
  wf (wired h d p q Q (m_idx P)).
Proof.
  intros Hwf Hd HD Hp HPq Hq Hempty.
  assert (p ≠ d) as Hne.
  { intros ->. assert (D = P) as -> by congruence.
    by rewrite HPq, (lock_some _ _ _ Hq) in HD. }
  destruct (wf_registered h Hwf q Q p P Hq Hp HPq) as [Hreg Hle].
  assert (∀ w, w ≠ d → w ≠ p →
               views (wired h d p q Q (m_idx P)) !! w = views h !! w) as Hother.
  { intros w Hwd Hwp. simpl. rewrite lookup_delete_ne by done.
    rewrite lookup_insert_ne by done. by rewrite lookup_insert_ne. }
  assert (views (wired h d p q Q (m_idx P)) !! d = Some (mkView (Some q) (m_idx P))) as Hd'.
  { simpl. rewrite lookup_delete_ne by done. by rewrite lookup_insert_eq. }
  assert (views (wired h d p q Q (m_idx P)) !! p = None) as Hp'.
  { simpl. by rewrite lookup_delete_eq. }
  assert (∀ q', q' ≠ q →
               queues (wired h d p q Q (m_idx P)) !! q' = queues h !! q') as Hqs.
  { intros q' Hq'. simpl. by rewrite lookup_insert_ne. }
  assert (queues (wired h d p q Q (m_idx P)) !! q =
          Some (mkQueue (m_impl Q) (m_referenceCounter Q) ({[d]} ∪ m_views Q))) as Hq'.
  { simpl. by rewrite lookup_insert_eq. }
  assert (∀ q', is_Some (queues h !! q') → m_queue D ≠ Some q') as HDq.
  { intros q' [Q' HQ'] HDq. by rewrite HDq, (lock_some _ _ _ HQ') in HD. }
  split.
  - intros q' Q'. destruct (decide (q' = q)) as [->|Hq'q].
    + intros _. by apply (wf_queue_addr h Hwf q Q).
    + rewrite Hqs by done. apply (wf_queue_addr h Hwf).
  - intros w W. destruct (decide (w = d)) as [->|Hwd].
    + intros _. by apply (wf_view_addr h Hwf d D).
    + destruct (decide (w = p)) as [->|Hwp]; [by rewrite Hp'|].
      rewrite Hother by done. apply (wf_view_addr h Hwf).
  - intros w W q'. destruct (decide (w = d)) as [->|Hwd].
    + rewrite Hd'. intros [= <-] [= <-]. by apply (wf_queue_addr h Hwf q Q).
    + destruct (decide (w = p)) as [->|Hwp]; [by rewrite Hp'|].
      rewrite Hother by done. apply (wf_weak_addr h Hwf).
  - intros q' Q' w. destruct (decide (q' = q)) as [->|Hq'q].
    + rewrite Hq'. intros [= <-]. simpl.
      intros [->%elem_of_singleton|Hw]%elem_of_union.
      * by apply (wf_view_addr h Hwf d D).
      * by apply (wf_reg_addr h Hwf q Q).
    + rewrite Hqs by done. apply (wf_reg_addr h Hwf).
  - intros q' Q'. destruct (decide (q' = q)) as [->|Hq'q].
    + rewrite Hq'. intros [= <-]. simpl. by apply (wf_lengths h Hwf q Q).
    + rewrite Hqs by done. apply (wf_lengths h Hwf).
  - intros q' Q'. destruct (decide (q' = q)) as [->|Hq'q].
    + rewrite Hq'. intros [= <-]. by apply (wf_max h Hwf q Q).
    + rewrite Hqs by done. apply (wf_max h Hwf).
  - intros q' Q' w W HQ' HW HWq.
    destruct (decide (w = d)) as [->|Hwd].
    + rewrite Hd' in HW. injection HW as <-. simpl in HWq. injection HWq as <-.
      rewrite Hq' in HQ'. injection HQ' as <-. simpl. split.
      * apply elem_of_union. left. by apply elem_of_singleton.
      * done.
    + destruct (decide (w = p)) as [->|Hwp]; [by rewrite Hp' in HW|].
      rewrite Hother in HW by done.
      destruct (decide (q' = q)) as [->|Hq'q].
      * rewrite Hq' in HQ'. injection HQ' as <-.
        destruct (wf_registered h Hwf q Q w W Hq HW HWq) as [Hin Hidx].
        split; [|done]. simpl. apply elem_of_union. by right.
      * rewrite Hqs in HQ' by done. by apply (wf_registered h Hwf q' Q' w W).
  - intros q' Q' i c' HQ' Hc.
    destruct (decide (q' = q)) as [->|Hq'q].
    + rewrite Hq' in HQ'. injection HQ' as <-. simpl in Hc.
      apply lookup_lt_Some in Hc. rewrite <- (wf_lengths h Hwf q Q Hq), Hempty in Hc.
      simpl in Hc. lia.
    + rewrite Hqs in HQ' by done.
      destruct (wf_counts h Hwf q' Q' i c' HQ' Hc) as [Hpos Hsize].
      split; [done|]. rewrite Hsize. do 2 f_equal.
      apply filter_agree. intros w _.
      destruct (decide (w = d)) as [->|Hwd].
      * rewrite (counted_elsewhere h q' i d D Hd) by (apply HDq; eauto).
        rewrite (counted_elsewhere _ q' i d _ Hd'); [done|]. simpl. congruence.
      * destruct (decide (w = p)) as [->|Hwp].
        -- rewrite (counted_elsewhere h q' i p P Hp) by congruence.
           by rewrite (counted_gone _ q' i p Hp').
        -- by rewrite (counted_same_view (wired h d p q Q (m_idx P)) h q' i w)
             by (by rewrite Hother).
Qed.

(** X9.  [setInputPipe] on a consumer whose own view has no live queue, with
    a view [p] of a live queue that holds nothing: the consumer's view
    becomes a view of that queue, at the offset of [p] and covering nothing;
    the state stays well-formed and the ranges of the other views are
    untouched.  The parameter object is gone when the call is over, but its
    address is still in [m_views] next to the consumer's view. *)
Theorem setInputPipe_wires h c D p P q Q :
  wf h → views h !! Consumer1.m_inputPipe c = Some D → lock (m_queue D) h = None →
  views h !! p = Some P → m_queue P = Some q → queues h !! q = Some Q →
  m_impl Q = [] →
  ∃ h', Consumer1.setInputPipe c p h = Ok tt h' ∧ wf h' ∧
        views h' !! Consumer1.m_inputPipe c = Some (mkView (Some q) (m_idx P)) ∧
        covered h' (Consumer1.m_inputPipe c) = [] ∧
        views h' !! p = None ∧
        queues h' !! q =
          Some (mkQueue [] (m_referenceCounter Q) ({[Consumer1.m_inputPipe c]} ∪ m_views Q)) ∧
        p ∈ m_views Q ∧
        (∀ w, w ≠ Consumer1.m_inputPipe c → w ≠ p → covered h' w = covered h w).
Proof.
  intros Hwf Hd HD Hp HPq Hq Hempty.
  assert (p ≠ Consumer1.m_inputPipe c) as Hne.
  { intros ->. assert (D = P) as -> by congruence.
    by rewrite HPq, (lock_some _ _ _ Hq) in HD. }
  destruct (wf_registered h Hwf q Q p P Hq Hp HPq) as [Hreg Hle].
  set (d := Consumer1.m_inputPipe c) in *.
  exists (wired h d p q Q (m_idx P)).
  assert (views (wired h d p q Q (m_idx P)) !! d = Some (mkView (Some q) (m_idx P))) as Hd'.
  { simpl. rewrite lookup_delete_ne by done. by rewrite lookup_insert_eq. }
  assert (queues (wired h d p q Q (m_idx P)) !! q =
          Some (mkQueue (m_impl Q) (m_referenceCounter Q) ({[d]} ∪ m_views Q))) as Hq'.
  { simpl. by rewrite lookup_insert_eq. }
  split; [by apply (setInputPipe_run h c D p P q Q)|].
  split; [by apply (wf_wired h d D p P q Q)|].
  split; [done|].
  split.
  { rewrite (covered_live _ d _ q _ Hd' eq_refl Hq'). simpl. rewrite Hempty.
    by rewrite drop_nil. }
  split; [simpl; by rewrite lookup_delete_eq|].
  split; [by rewrite Hq', Hempty|].
  split; [done|].
  intros w Hwd Hwp. unfold covered, lock. simpl.
  rewrite lookup_delete_ne by done.
  rewrite lookup_insert_ne by done. rewrite lookup_insert_ne by done.
  destruct (views h !! w) as [W|]; [|done].
  destruct (m_queue W) as [q'|]; [|done].
  destruct (decide (q' = q)) as [->|Hq'q].
  - by rewrite lookup_insert_eq, Hq.
  - by rewrite lookup_insert_ne.
Qed.

(** X10.  [pullInput] of a consumer with one input never waits: on a live
    view in a well-formed state it returns nothing and changes nothing when
    the view covers nothing, and otherwise returns the head of the view's
    range, which the view then no longer covers, the other views covering
    what they did. *)
Theorem single_pullInput_takes_head_or_nothing h c :
  wf h → live_view h (Consumer1.m_inputPipe c) →
  match covered h (Consumer1.m_inputPipe c) with
  | [] => Consumer1.pullInput c h = Ok None h
  | x :: r =>
      ∃ h', Consumer1.pullInput c h = Ok (Some x) h' ∧ wf h' ∧
            covered h' (Consumer1.m_inputPipe c) = r ∧
            (∀ w, w ≠ Consumer1.m_inputPipe c → covered h' w = covered h w)
  end.
Proof.
  intros Hwf Hlive.
  destruct (covered h (Consumer1.m_inputPipe c)) as [|x r] eqn:Hcov.
  - by apply Consumer1_pullInput_empty.
  - by apply Consumer1_pullInput_ready.
Qed.

End SingleConsumer.

(** Witness of X9: the consumer of [wiring_heap] is given the view [3] of
    the empty queue [2]. *)
Lemma setInputPipe_wires_witness :
  ∃ h', Consumer1.setInputPipe (Consumer1.mk 1) 3%positive wiring_heap = Ok tt h' ∧ wf h' ∧
        views h' !! Consumer1.m_inputPipe (Consumer1.mk 1) =
          Some (mkView (Some 2%positive) (m_idx (mkView (Some 2%positive) 0))) ∧
        covered h' (Consumer1.m_inputPipe (Consumer1.mk 1)) = [] ∧
        views h' !! 3%positive = None ∧
        queues h' !! 2%positive =
          Some (mkQueue [] (m_referenceCounter (mkQueue ([] : list N) [] {[3%positive]}))
                        ({[Consumer1.m_inputPipe (Consumer1.mk 1)]} ∪
                         m_views (mkQueue ([] : list N) [] {[3%positive]}))) ∧
        3%positive ∈ m_views (mkQueue ([] : list N) [] {[3%positive]}) ∧
        (∀ w, w ≠ Consumer1.m_inputPipe (Consumer1.mk 1) → w ≠ 3%positive →
              covered h' w = covered wiring_heap w).
Proof.
  apply (setInputPipe_wires wiring_heap (Consumer1.mk 1) (mkView None 0) 3%positive
           (mkView (Some 2%positive) 0) 2%positive (mkQueue [] [] {[3%positive]})).
  - apply wf_check_sound. vm_compute. reflexivity.
  - vm_compute. reflexivity.
  - vm_compute. reflexivity.
  - vm_compute. reflexivity.
  - vm_compute. reflexivity.
  - vm_compute. reflexivity.
  - reflexivity.
Defined.

(** Witness of X10: a consumer reading [one_reader_heap] pulls the [7]. *)
Lemma single_pullInput_takes_head_or_nothing_witness :
  ∃ h', Consumer1.pullInput (Consumer1.mk 2) one_reader_heap = Ok (Some 7) h' ∧ wf h' ∧
        covered h' 2%positive = [] ∧
        (∀ w, w ≠ 2%positive → covered h' w = covered one_reader_heap w).
Proof.
  apply (single_pullInput_takes_head_or_nothing one_reader_heap (Consumer1.mk 2)).
  - apply wf_check_sound. vm_compute. reflexivity.
  - exists (mkView (Some 1%positive) 0), 1%positive, (mkQueue [7] [1] {[2%positive]}).
    split_and!; vm_compute; reflexivity.
Defined.

(** ** What a view reports *)

Section Observers.
Context {T : Type}.
Implicit Types (h : heap T) (Q : Queue T) (V : View).

(** X11.  The observers of a live view agree with one another and with
    [pop], and change nothing: in a well-formed state [begin] is at or
    before [end], [size] is their distance and the length of the range the
    view covers, [waitFor] tells whether that is positive; [pop] returns the
    head of the range when it is, and waits when it is not. *)
Theorem view_observers_agree h v :
  wf h → live_view h v →
  ∃ b e, View_begin v h = Ok b h ∧ View_end v h = Ok e h ∧ b ≤ e ∧
         View_size v h = Ok (e - b) h ∧
         e - b = N.of_nat (length (covered h v)) ∧
         View_waitFor v h = Ok (0 <? e - b) h ∧
         match covered h v with
         | [] => View_pop v h = Blocked h
         | x :: _ => ∃ h', View_pop v h = Ok x h'
         end.
Proof.
  intros Hwf Hlive. pose proof Hlive as (V & q & Q & Hv & HVq & Hq).
  destruct (wf_registered h Hwf q Q v V Hq Hv HVq) as [_ Hle].
  pose proof (View_size_covered h v Hwf Hlive) as Hsize.
  exists (m_idx V), (queue_size Q).
  assert (View_size v h = Ok (queue_size Q - m_idx V) h) as Hsize'.
  { unfold View_size. rewrite (bind_ok _ _ _ _ _ (get_view_ok _ _ _ Hv)).
    rewrite HVq, (lock_some _ _ _ Hq). unfold view_begin, view_end.
    by destruct (N.leb_spec (m_idx V) (queue_size Q)); [|lia]. }
  assert (queue_size Q - m_idx V = N.of_nat (length (covered h v))) as Hlen by congruence.
  split_and!; try done.
  - unfold View_begin. rewrite (bind_ok _ _ _ _ _ (get_view_ok _ _ _ Hv)).
    rewrite HVq, (lock_some _ _ _ Hq). unfold view_begin.
    by destruct (N.leb_spec (m_idx V) (queue_size Q)); [|lia].
  - unfold View_end. rewrite (bind_ok _ _ _ _ _ (get_view_ok _ _ _ Hv)).
    by rewrite HVq, (lock_some _ _ _ Hq).
  - unfold View_waitFor. rewrite (bind_ok _ _ _ _ _ (get_view_ok _ _ _ Hv)).
    rewrite HVq, (lock_some _ _ _ Hq). unfold view_begin, view_end.
    destruct (N.leb_spec (m_idx V) (queue_size Q)); [|lia].
    do 2 f_equal.
    destruct (N.eqb_spec (m_idx V) (queue_size Q)), (N.ltb_spec 0 (queue_size Q - m_idx V));
      simpl; try done; lia.
  - destruct (covered h v) as [|x r] eqn:Hcov.
    + by apply View_pop_empty.
    + destruct (View_pop_covered h v x r Hwf Hcov) as (h' & Hpop & _). by exists h'.
Qed.

End Observers.

(** Witness of X11, on the reader of [one_reader_heap]. *)
Lemma view_observers_agree_witness :
  ∃ b e, View_begin 2%positive one_reader_heap = Ok b one_reader_heap ∧
         View_end 2%positive one_reader_heap = Ok e one_reader_heap ∧ b ≤ e ∧
         View_size 2%positive one_reader_heap = Ok (e - b) one_reader_heap ∧
         e - b = N.of_nat (length (covered one_reader_heap 2%positive)) ∧
         View_waitFor 2%positive one_reader_heap = Ok (0 <? e - b) one_reader_heap ∧
         ∃ h', View_pop 2%positive one_reader_heap = Ok 7 h'.
Proof.
  apply (view_observers_agree one_reader_heap 2%positive).
  - apply wf_check_sound. vm_compute. reflexivity.
  - exists (mkView (Some 1%positive) 0), 1%positive, (mkQueue [7] [1] {[2%positive]}).
    split_and!; vm_compute; reflexivity.
Defined.

(** ** Ticks of components *)

Section Ticks.
Context {T : Type}.
Implicit Types (h : heap T) (Q : Queue T) (V : View) (log : list T).

Lemma attached_unique h q q' v : attached h q v → attached h q' v → q = q'.
Proof. intros (V & HV & HVq) (V' & HV' & HVq'). congruence. Qed.

Lemma grown_trans h1 h2 h3 k1 k2 :
  grown h1 h2 k1 → grown h2 h3 k2 → grown h1 h3 (λ q, (k1 q + k2 q)%nat).
Proof.
  intros H12 H23 q Q Hq.
  destruct (H12 q Q Hq) as (Q2 & Hq2 & Hle2).
  destruct (H23 q Q2 Hq2) as (Q3 & Hq3 & Hle3).
  exists Q3. split; [done|lia].
Qed.

Lemma grown_weaken h h' k k' : (∀ q, (k q ≤ k' q)%nat) → grown h h' k → grown h h' k'.
Proof.
  intros Hk Hg q Q Hq. destruct (Hg q Q Hq) as (Q' & Hq' & Hle).
  exists Q'. split; [done|]. specialize (Hk q). lia.
Qed.

Lemma push_grown h q Q value h' :
  queues h !! q = Some Q → push q value h = Ok tt h' → grown h h' (one_at q).
Proof.
  intros Hq. rewrite (push_unfold h q Q value Hq). intros [= <-] q' Q' HQ'.
  destruct (decide (m_views Q = ∅)); [exists Q'; split; [done|lia]|].
  unfold one_at. simpl. destruct (decide (q' = q)) as [->|Hne].
  - rewrite lookup_insert_eq. eexists. split; [done|]. simpl.
    assert (Q' = Q) as -> by congruence. rewrite length_app. simpl. lia.
  - rewrite lookup_insert_ne by done. exists Q'. split; [done|lia].
Qed.

Lemma pop_grown h v x h' :
  wf h → View_pop v h = Ok x h' → grown h h' (λ _, 0%nat).
Proof.
  intros Hwf Hpop q Q Hq.
  destruct (View_pop_queues h v x h' Hwf Hpop) as [_ Hqs].
  destruct (Hqs q Q Hq) as (Q' & Hq' & _ & Hle). exists Q'. split; [done|lia].
Qed.

Lemma pullInput_pop h c x r :
  wf h → covered h (Consumer1.m_inputPipe c) = x :: r →
  ∃ h', View_pop (Consumer1.m_inputPipe c) h = Ok x h' ∧
        Consumer1.pullInput c h = Ok (Some x) h' ∧ wf h' ∧
        covered h' (Consumer1.m_inputPipe c) = r ∧
        (∀ w, w ≠ Consumer1.m_inputPipe c → covered h' w = covered h w) ∧
        same_wiring h h'.
Proof.
  intros Hwf Hcov.
  destruct (View_pop_covered h _ x r Hwf Hcov) as (h' & Hpop & Hwf' & Hr & Hframe & Hsame).
  exists h'. split; [done|]. split; [|done].
  unfold Consumer1.pullInput.
  rewrite (bind_ok _ _ _ _ _ (View_size_covered h _ Hwf (covered_cons_live h _ x r Hcov))).
  rewrite Hcov. simpl. by rewrite (bind_ok _ _ _ _ _ Hpop).
Qed.

(** A tick of the source. *)
Lemma source_tick_spec a p h log Q :
  wf h → queues h !! Producer1.m_outputPipe p = Some Q → queue_size Q < size_t_max →
  ∃ h', source_tick a p (log, h) = Ok tt (log, h') ∧ wf h' ∧ same_wiring h h' ∧
        (∀ w, attached h (Producer1.m_outputPipe p) w → covered h' w = covered h w ++ [a]) ∧
        (∀ w, ¬ attached h (Producer1.m_outputPipe p) w → covered h' w = covered h w) ∧
        grown h h' (one_at (Producer1.m_outputPipe p)).
Proof.
  intros Hwf Hq Hroom.
  destruct (push_spec h _ Q a Hwf Hq Hroom) as (h' & Hpush & Hwf' & Hsame & Hin & Hout).
  exists h'. split; [|split; [done|split; [done|split; [done|split; [done|]]]]].
  - unfold source_tick, tick_producer, Producer1.pushOutput.
    unfold bind at 1. unfold ret at 1.
    by apply (on_heap_ok (push (Producer1.m_outputPipe p) a) log h h' tt).
  - by apply (push_grown h _ Q a h').
Qed.

(** A tick of the transformer with something to pull. *)
Lemma transform_tick_spec f c p h log x r Q :
  wf h → covered h (Consumer1.m_inputPipe c) = x :: r →
  queues h !! Producer1.m_outputPipe p = Some Q → queue_size Q < size_t_max →
  ∃ h', transform_tick f c p (log, h) = Ok tt (log, h') ∧ wf h' ∧ same_wiring h h' ∧
        (∀ w, attached h (Producer1.m_outputPipe p) w →
              covered h' w =
              (if decide (w = Consumer1.m_inputPipe c) then r else covered h w) ++ [f x]) ∧
        (∀ w, ¬ attached h (Producer1.m_outputPipe p) w →
              covered h' w =
              if decide (w = Consumer1.m_inputPipe c) then r else covered h w) ∧
        grown h h' (one_at (Producer1.m_outputPipe p)).
Proof.
  intros Hwf Hcov Hq Hroom.
  destruct (pullInput_pop h c x r Hwf Hcov)
    as (h1 & Hpop & Hpull & Hwf1 & Hr & Hframe & Hsame1).
  pose proof (pop_grown h _ x h1 Hwf Hpop) as Hg1.
  destruct (Hg1 _ Q Hq) as (Q1 & Hq1 & Hle1).
  destruct (push_spec h1 _ Q1 (f x) Hwf1 Hq1) as (h2 & Hpush & Hwf2 & Hsame2 & Hin & Hout).
  { unfold queue_size in *. lia. }
  pose proof (push_grown h1 _ Q1 (f x) h2 Hq1 Hpush) as Hg2.
  exists h2. split; [|split; [done|split; [|split; [|split]]]].
  - unfold transform_tick, tick_consumer_producer.
    rewrite (bind_ok _ _ _ _ _ (on_heap_ok _ log h h1 _ Hpull)).
    unfold bind at 1. unfold ret at 1. unfold Producer1.pushOutput.
    by apply (on_heap_ok (push (Producer1.m_outputPipe p) (f x)) log h1 h2 tt).
  - by apply (same_wiring_trans h h1 h2).
  - intros w Hw. rewrite Hin by (by apply (same_wiring_attached h h1)).
    destruct (decide (w = Consumer1.m_inputPipe c)) as [->|Hne]; [by rewrite Hr|].
    by rewrite Hframe.
  - intros w Hw. rewrite Hout by (by rewrite <- (same_wiring_attached h h1)).
    destruct (decide (w = Consumer1.m_inputPipe c)) as [->|Hne]; [done|].
    by apply Hframe.
  - apply (grown_weaken h h2 (λ q, (0 + one_at (Producer1.m_outputPipe p) q)%nat)).
    + intros q. lia.
    + by apply (grown_trans h h1 h2).
Qed.

(** A tick of the sink with something to pull. *)
Lemma sink_tick_spec c h log x r :
  wf h → covered h (Consumer1.m_inputPipe c) = x :: r →
  ∃ h', sink_tick c (log, h) = Ok tt (log ++ [x], h') ∧ wf h' ∧ same_wiring h h' ∧
        covered h' (Consumer1.m_inputPipe c) = r ∧
        (∀ w, w ≠ Consumer1.m_inputPipe c → covered h' w = covered h w) ∧
        grown h h' (λ _, 0%nat).
Proof.
  intros Hwf Hcov.
  destruct (pullInput_pop h c x r Hwf Hcov)
    as (h1 & Hpop & Hpull & Hwf1 & Hr & Hframe & Hsame1).
  exists h1. split; [|split; [done|split; [done|split; [done|split; [done|]]]]].
  - unfold sink_tick, tick_consumer.
    by rewrite (bind_ok _ _ _ _ _ (on_heap_ok _ log h h1 _ Hpull)).
  - by apply (pop_grown h (Consumer1.m_inputPipe c) x h1).
Qed.

(** A tick of a component with nothing to pull. *)
Lemma idle_ticks f c p h log :
  wf h → live_view h (Consumer1.m_inputPipe c) →
  covered h (Consumer1.m_inputPipe c) = [] →
  transform_tick f c p (log, h) = Ok tt (log, h) ∧
  sink_tick c (log, h) = Ok tt (log, h).
Proof.
  intros Hwf Hlive Hcov.
  pose proof (Consumer1_pullInput_empty h c Hwf Hlive Hcov) as Hpull.
  split.
  - unfold transform_tick, tick_consumer_producer.
    by rewrite (bind_ok _ _ _ _ _ (on_heap_ok _ log h h _ Hpull)).
  - unfold sink_tick, tick_consumer.
    by rewrite (bind_ok _ _ _ _ _ (on_heap_ok _ log h h _ Hpull)).
Qed.

(** X12.  A tick of a component that is a consumer and a producer, with one
    input, one output and a function [f] for behaviour, in a well-formed
    state: with nothing to pull it changes nothing (the behaviour is not
    invoked, nothing is pushed); otherwise it takes the head [x] of its
    input view's range and appends [f x] to the range of every view of its
    output queue, its own input view included when the output queue is the
    one it reads. *)
Theorem transform_tick_maps_head f c p h log Q :
  wf h → live_view h (Consumer1.m_inputPipe c) →
  queues h !! Producer1.m_outputPipe p = Some Q → queue_size Q < size_t_max →
  match covered h (Consumer1.m_inputPipe c) with
  | [] => transform_tick f c p (log, h) = Ok tt (log, h)
  | x :: r =>
      ∃ h', transform_tick f c p (log, h) = Ok tt (log, h') ∧ wf h' ∧
            (∀ w, attached h (Producer1.m_outputPipe p) w →
                  covered h' w =
                  (if decide (w = Consumer1.m_inputPipe c) then r else covered h w) ++ [f x]) ∧
            (∀ w, ¬ attached h (Producer1.m_outputPipe p) w →
                  covered h' w =
                  if decide (w = Consumer1.m_inputPipe c) then r else covered h w)
  end.
Proof.
  intros Hwf Hlive Hq Hroom.
  destruct (covered h (Consumer1.m_inputPipe c)) as [|x r] eqn:Hcov.
  - by apply idle_ticks.
  - destruct (transform_tick_spec f c p h log x r Q Hwf Hcov Hq Hroom)
      as (h' & ? & ? & _ & ? & ? & _).
    by exists h'.
Qed.

(** One tick of the circuit of three. *)
Lemma pipeline_tick a f p1 c1 p2 c2 h log Q1 Q2 :
  wf h →
  attached h (Producer1.m_outputPipe p1) (Consumer1.m_inputPipe c1) →
  attached h (Producer1.m_outputPipe p2) (Consumer1.m_inputPipe c2) →
  Producer1.m_outputPipe p1 ≠ Producer1.m_outputPipe p2 →
  queues h !! Producer1.m_outputPipe p1 = Some Q1 →
  queues h !! Producer1.m_outputPipe p2 = Some Q2 →
  queue_size Q1 < size_t_max → queue_size Q2 < size_t_max →
  covered h (Consumer1.m_inputPipe c1) = [] →
  covered h (Consumer1.m_inputPipe c2) = [] →
  ∃ h', Circuit_tick (pipeline a f p1 c1 p2 c2) (log, h) = Ok tt (log ++ [f a], h') ∧
        wf h' ∧ same_wiring h h' ∧
        covered h' (Consumer1.m_inputPipe c1) = [] ∧
        covered h' (Consumer1.m_inputPipe c2) = [] ∧
        grown h h' (λ _, 1%nat).
Proof.
  intros Hwf Hv1 Hv2 Hq12 Hq1 Hq2 Hroom1 Hroom2 Hcov1 Hcov2.
  set (q1 := Producer1.m_outputPipe p1) in *.
  set (q2 := Producer1.m_outputPipe p2) in *.
  set (v1 := Consumer1.m_inputPipe c1) in *.
  set (v2 := Consumer1.m_inputPipe c2) in *.
  assert (v1 ≠ v2) as Hv12.
  { intros Heq. rewrite Heq in Hv1. by apply Hq12, (attached_unique h q1 q2 v2). }
  assert (¬ attached h q1 v2) as Hv2q1.
  { intros Hv. by apply Hq12, (attached_unique h q1 q2 v2). }
  assert (¬ attached h q2 v1) as Hv1q2.
  { intros Hv. by apply Hq12, (attached_unique h q1 q2 v1). }
  (* the source pushes [a] *)
  destruct (source_tick_spec a p1 h log Q1 Hwf Hq1 Hroom1)
    as (h1 & Hrun1 & Hwf1 & Hsame1 & Hin1 & Hout1 & Hg1).
  fold q1 in Hin1, Hout1, Hg1.
  assert (covered h1 v1 = [a]) as Hc1 by (by rewrite Hin1, Hcov1).
  assert (covered h1 v2 = []) as Hc2 by (by rewrite Hout1, Hcov2).
  destruct (Hg1 q2 Q2 Hq2) as (Q2a & Hq2a & Hle2a).
  unfold one_at in Hle2a. rewrite decide_False in Hle2a by done.
  (* the transformer moves [f a] on *)
  destruct (transform_tick_spec f c1 p2 h1 log a [] Q2a Hwf1 Hc1 Hq2a)
    as (h2 & Hrun2 & Hwf2 & Hsame2 & Hin2 & Hout2 & Hg2).
  { unfold queue_size in *. lia. }
  fold q2 v1 in Hin2, Hout2, Hg2.
  assert (covered h2 v2 = [f a]) as Hc2'.
  { rewrite Hin2 by (by apply (same_wiring_attached h h1)).
    rewrite decide_False by done. by rewrite Hc2. }
  assert (covered h2 v1 = []) as Hc1'.
  { rewrite Hout2 by (by rewrite <- (same_wiring_attached h h1)).
    by rewrite decide_True. }
  (* the sink records it *)
  destruct (sink_tick_spec c2 h2 log (f a) [] Hwf2 Hc2')
    as (h3 & Hrun3 & Hwf3 & Hsame3 & Hc2'' & Hframe3 & Hg3).
  fold v2 in Hc2'', Hframe3.
  exists h3. split; [|split; [done|split; [|split; [|split; [done|]]]]].
  - unfold pipeline. simpl.
    rewrite (bind_ok _ _ _ _ _ Hrun1). rewrite (bind_ok _ _ _ _ _ Hrun2).
    by rewrite (bind_ok _ _ _ _ _ Hrun3).
  - apply (same_wiring_trans h h2 h3); [|done]. by apply (same_wiring_trans h h1 h2).
  - rewrite Hframe3 by done. done.
  - pose proof (grown_trans h h1 h2 _ _ Hg1 Hg2) as Hg12.
    pose proof (grown_trans h h2 h3 _ _ Hg12 Hg3) as Hg123.
    revert Hg123. apply grown_weaken. intros q. unfold one_at.
    destruct (decide (q = q1)) as [Heq1|?], (decide (q = q2)) as [Heq2|?]; simpl; lia.
Qed.

Lemma pipeline_ticks a f p1 c1 p2 c2 n : ∀ h log Q1 Q2,
  wf h →
  attached h (Producer1.m_outputPipe p1) (Consumer1.m_inputPipe c1) →
  attached h (Producer1.m_outputPipe p2) (Consumer1.m_inputPipe c2) →
  Producer1.m_outputPipe p1 ≠ Producer1.m_outputPipe p2 →
  queues h !! Producer1.m_outputPipe p1 = Some Q1 →
  queues h !! Producer1.m_outputPipe p2 = Some Q2 →
  queue_size Q1 + N.of_nat n ≤ size_t_max → queue_size Q2 + N.of_nat n ≤ size_t_max →
  covered h (Consumer1.m_inputPipe c1) = [] →
  covered h (Consumer1.m_inputPipe c2) = [] →
  ∃ h', ticks n (Circuit_tick (pipeline a f p1 c1 p2 c2)) (log, h) =
          Ok tt (log ++ replicate n (f a), h') ∧
        wf h' ∧ same_wiring h h' ∧
        covered h' (Consumer1.m_inputPipe c1) = [] ∧
        covered h' (Consumer1.m_inputPipe c2) = [] ∧
        grown h h' (λ _, n).
Proof.
  induction n as [|n IH]; intros h log Q1 Q2 Hwf Hv1 Hv2 Hq12 Hq1 Hq2 Hroom1 Hroom2 Hcov1 Hcov2.
  - exists h. split; [simpl; by rewrite app_nil_r|].
    split; [done|]. split; [apply same_wiring_refl|]. split; [done|]. split; [done|].
    intros q Q Hq. exists Q. split; [done|lia].
  - destruct (pipeline_tick a f p1 c1 p2 c2 h log Q1 Q2)
      as (h1 & Hrun1 & Hwf1 & Hsame1 & Hc1 & Hc2 & Hg1); try done; try lia.
    destruct (Hg1 _ Q1 Hq1) as (Q1' & Hq1' & Hle1).
    destruct (Hg1 _ Q2 Hq2) as (Q2' & Hq2' & Hle2).
    destruct (IH h1 (log ++ [f a]) Q1' Q2')
      as (h2 & Hrun2 & Hwf2 & Hsame2 & Hc1' & Hc2' & Hg2); try done.
    + by apply (same_wiring_attached h h1).
    + by apply (same_wiring_attached h h1).
    + unfold queue_size in *. lia.
    + unfold queue_size in *. lia.
    + exists h2. split; [|split; [done|split; [|split; [done|split; [done|]]]]].
      * change (ticks (S n) (Circuit_tick (pipeline a f p1 c1 p2 c2)) (log, h))
          with ((Circuit_tick (pipeline a f p1 c1 p2 c2) ;;'
                 ticks n (Circuit_tick (pipeline a f p1 c1 p2 c2))) (log, h)).
        rewrite (bind_ok _ _ _ _ _ Hrun1). cbv beta. rewrite Hrun2.
        simpl. by rewrite <- app_assoc.
      * by apply (same_wiring_trans h h1 h2).
      * pose proof (grown_trans h h1 h2 _ _ Hg1 Hg2) as Hg. revert Hg.
        apply grown_weaken. intros q. lia.
Qed.

(** X13.  A circuit of a source whose behaviour returns [a], a transformer
    with behaviour [f] reading the source's queue, and a sink reading the
    transformer's queue, the two queues being different ones with room for
    [n] elements more and the two readers having nothing left to read: [n]
    ticks of the circuit end with the sink's behaviour invoked [n] times
    more, each time with [f a], the two readers again with nothing left to
    read, and the state well-formed. *)
Theorem pipeline_delivers_each_tick a f p1 c1 p2 c2 n h log Q1 Q2 :
  wf h →
  attached h (Producer1.m_outputPipe p1) (Consumer1.m_inputPipe c1) →
  attached h (Producer1.m_outputPipe p2) (Consumer1.m_inputPipe c2) →
  Producer1.m_outputPipe p1 ≠ Producer1.m_outputPipe p2 →
  queues h !! Producer1.m_outputPipe p1 = Some Q1 →
  queues h !! Producer1.m_outputPipe p2 = Some Q2 →
  queue_size Q1 + N.of_nat n ≤ size_t_max → queue_size Q2 + N.of_nat n ≤ size_t_max →
  covered h (Consumer1.m_inputPipe c1) = [] →
  covered h (Consumer1.m_inputPipe c2) = [] →
  ∃ h', ticks n (Circuit_tick (pipeline a f p1 c1 p2 c2)) (log, h) =
          Ok tt (log ++ replicate n (f a), h') ∧
        wf h' ∧
        covered h' (Consumer1.m_inputPipe c1) = [] ∧
        covered h' (Consumer1.m_inputPipe c2) = [].
Proof.
  intros Hwf Hv1 Hv2 Hq12 Hq1 Hq2 Hroom1 Hroom2 Hcov1 Hcov2.
  destruct (pipeline_ticks a f p1 c1 p2 c2 n h log Q1 Q2)
    as (h' & ? & ? & _ & ? & ? & _); try done.
  by exists h'.
Qed.

End Ticks.

(** Witness of X12: a component reading [one_reader_heap] and writing to the
    queue it reads doubles the [7]. *)
Lemma transform_tick_maps_head_witness :
  ∃ h', transform_tick (N.mul 2) (Consumer1.mk 2) (Producer1.mk 1) ([], one_reader_heap) =
          Ok tt ([], h') ∧ wf h' ∧
        (∀ w, attached one_reader_heap 1%positive w →
              covered h' w =
              (if decide (w = 2%positive) then [] else covered one_reader_heap w) ++ [N.mul 2 7]) ∧
        (∀ w, ¬ attached one_reader_heap 1%positive w →
              covered h' w =
              if decide (w = 2%positive) then [] else covered one_reader_heap w).
Proof.
  apply (transform_tick_maps_head (N.mul 2) (Consumer1.mk 2) (Producer1.mk 1)
           one_reader_heap [] (mkQueue [7] [1] {[2%positive]})).
  - apply wf_check_sound. vm_compute. reflexivity.
  - exists (mkView (Some 1%positive) 0), 1%positive, (mkQueue [7] [1] {[2%positive]}).
    split_and!; vm_compute; reflexivity.
  - vm_compute. reflexivity.
  - vm_compute. reflexivity.
Defined.

(** Witness of X13: three ticks of the circuit wired as [pipeline_heap]. *)
Lemma pipeline_delivers_each_tick_witness :
  ∃ h', ticks 3 (Circuit_tick (pipeline 5 (N.mul 2) (Producer1.mk 1) (Consumer1.mk 3)
                                 (Producer1.mk 2) (Consumer1.mk 4))) ([], pipeline_heap) =
          Ok tt ([] ++ replicate 3 (N.mul 2 5), h') ∧
        wf h' ∧ covered h' 3%positive = [] ∧ covered h' 4%positive = [].
Proof.
  apply (pipeline_delivers_each_tick 5 (N.mul 2) (Producer1.mk 1) (Consumer1.mk 3)
           (Producer1.mk 2) (Consumer1.mk 4) 3 pipeline_heap []
           (mkQueue [] [] {[3%positive]}) (mkQueue [] [] {[4%positive]})).
  - apply wf_check_sound. vm_compute. reflexivity.
  - exists (mkView (Some 1%positive) 0). split; vm_compute; reflexivity.
  - exists (mkView (Some 2%positive) 0). split; vm_compute; reflexivity.
  - discriminate.
  - vm_compute. reflexivity.
  - vm_compute. reflexivity.
  - vm_compute. discriminate.
  - vm_compute. discriminate.
  - vm_compute. reflexivity.
  - vm_compute. reflexivity.
Defined.

(** ** [Circuit::tick] *)

Section Circuits.
Context {S : Type}.
Implicit Types (l : list (M S unit)) (c : M S unit) (s : S).

Lemma Circuit_tick_app l1 l2 s :
  Circuit_tick (l1 ++ l2) s = (Circuit_tick l1 ;;' Circuit_tick l2) s.
Proof.
  revert s. induction l1 as [|c l1 IH]; intros s; [done|].
  simpl. unfold bind. destruct (c s) as [[] s1| | |]; [|done..].
  rewrite IH. done.
Qed.

(** X14.  A circuit ticks its components in the order they were added, each
    on the state the one before left: the tick of two lists of components
    in a row is the tick of the first followed by the tick of the second, a
    component added to a circuit is ticked after those already there, and
    when a component does not return (it throws, waits, or is undefined) the
    tick of the circuit ends there, with that outcome, the components after
    it not being ticked. *)
Theorem Circuit_tick_in_order l1 l2 c s :
  Circuit_tick (l1 ++ l2) s = (Circuit_tick l1 ;;' Circuit_tick l2) s ∧
  Circuit_tick (Circuit_add c l1) s = (Circuit_tick l1 ;;' c) s ∧
  (∀ s1, Circuit_tick l1 s = Ok tt s1 → (∀ s2, c s1 ≠ Ok tt s2) →
         Circuit_tick (l1 ++ c :: l2) s = c s1).
Proof.
  split; [apply Circuit_tick_app|]. split.
  - unfold Circuit_add. rewrite Circuit_tick_app. unfold bind.
    destruct (Circuit_tick l1 s) as [[] s1| | |]; try done.
    simpl. unfold bind, ret. by destruct (c s1) as [[] s2| | |].
  - intros s1 Hrun Hc. rewrite Circuit_tick_app, (bind_ok _ _ _ _ _ Hrun).
    simpl. unfold bind. destruct (c s1) as [[] s2| | |] eqn:E; try done.
    by destruct (Hc s2).
Qed.

End Circuits.

(** ** The invariant over the life of views and queues *)

Section Lifecycle.
Context {T : Type}.
Implicit Types (h : heap T) (Q : Queue T) (V : View).

(** The invariant does not depend on the view objects that have no live
    queue. *)
Lemma wf_views_change h vs' b' :
  wf h → (brk h ≤ b')%positive →
  (∀ v V', vs' !! v = Some V' →
     (v < b')%positive ∧ ∀ q, m_queue V' = Some q → (q < b')%positive) →
  (∀ v, views h !! v = vs' !! v ∨
        ((∀ V, views h !! v = Some V → lock (m_queue V) h = None) ∧
         (∀ V', vs' !! v = Some V' → lock (m_queue V') h = None))) →
  wf (mkHeap (queues h) vs' b').
Proof.
  intros Hwf Hb Haddr Hchange.
  assert (∀ q Q i w, queues h !! q = Some Q →
            counted (mkHeap (queues h) vs' b') q i w = counted h q i w) as Hcount.
  { intros q Q i w Hq. destruct (Hchange w) as [Heq|[Hold Hnew]].
    - by apply counted_same_view.
    - unfold counted. simpl.
      destruct (vs' !! w) as [W'|] eqn:HW'; destruct (views h !! w) as [W|] eqn:HW.
      + destruct (decide (m_queue W' = Some q)) as [E'|].
        { specialize (Hnew W' eq_refl). by rewrite E', (lock_some _ _ _ Hq) in Hnew. }
        destruct (decide (m_queue W = Some q)) as [E|]; [|done].
        specialize (Hold W eq_refl). by rewrite E, (lock_some _ _ _ Hq) in Hold.
      + destruct (decide (m_queue W' = Some q)) as [E'|]; [|done].
        specialize (Hnew W' eq_refl). by rewrite E', (lock_some _ _ _ Hq) in Hnew.
      + destruct (decide (m_queue W = Some q)) as [E|]; [|done].
        specialize (Hold W eq_refl). by rewrite E, (lock_some _ _ _ Hq) in Hold.
      + done. }
  split; simpl.
  - intros q Q Hq. pose proof (wf_queue_addr h Hwf q Q Hq). lia.
  - intros v V' HV'. by destruct (Haddr v V' HV').
  - intros v V' q HV' HVq. destruct (Haddr v V' HV') as [_ Hq]. by apply Hq.
  - intros q Q v Hq Hv. pose proof (wf_reg_addr h Hwf q Q v Hq Hv). lia.
  - apply (wf_lengths h Hwf).
  - apply (wf_max h Hwf).
  - intros q Q v V' Hq HV' HVq. destruct (Hchange v) as [Heq|[_ Hnew]].
    + rewrite <- Heq in HV'. by apply (wf_registered h Hwf q Q v V').
    + specialize (Hnew V' HV'). by rewrite HVq, (lock_some _ _ _ Hq) in Hnew.
  - intros q Q i c Hq Hc.
    destruct (wf_counts h Hwf q Q i c Hq Hc) as [Hpos Hsize].
    split; [done|]. rewrite Hsize. do 2 f_equal.
    apply filter_agree. intros w _. by rewrite (Hcount q Q i w Hq).
Qed.




(** [~View()] *)
Lemma View_destroy_wf h v h' : wf h → View_destroy v h = Ok tt h' → wf h'.
Proof.
  intros Hwf Hrun.
  destruct (views h !! v) as [V|] eqn:Hv.
  2:{ unfold View_destroy, bind, get_view in Hrun. by rewrite Hv in Hrun. }
  destruct (lock (m_queue V) h) as [[q Q]|] eqn:Hlock.
  - assert (m_queue V = Some q ∧ queues h !! q = Some Q) as [HVq Hq].
    { unfold lock in Hlock. destruct (m_queue V) as [q'|]; [|done].
      destruct (queues h !! q') as [Q'|] eqn:HQ'; [|done]. by injection Hlock as -> ->. }
    destruct (View_destroy_spec h v V q Q Hwf Hv HVq Hq) as (h1 & Hrun1 & Hwf1 & _).
    congruence.
  - unfold View_destroy in Hrun. rewrite (bind_ok _ _ _ _ _ (get_view_ok _ _ _ Hv)) in Hrun.
    unfold bind in Hrun. rewrite Hlock in Hrun. injection Hrun as <-.
    apply (wf_views_change h); [done|simpl; lia| |]; simpl.
    + intros w W' [_ HW]%lookup_delete_Some. split.
      * by apply (wf_view_addr h Hwf w W').
      * intros q' Hq'. by apply (wf_weak_addr h Hwf w W' q').
    + intros w. destruct (decide (w = v)) as [->|Hne].
      * right. rewrite Hv, lookup_delete_eq. split; [by intros V' [= <-]|done].
      * left. by rewrite lookup_delete_ne.
Qed.



(** The copy of a view of a live queue that has nothing left to read is
    what [view()] returns. *)
Lemma View_copy_read h o O q Q :
  wf h → views h !! o = Some O → m_queue O = Some q → queues h !! q = Some Q →
  covered h o = [] → View_copy o h = view q h.
Proof.
  intros Hwf Ho HOq Hq Hcov.
  apply (covered_nil_idx h o O q Q Hwf Ho HOq Hq) in Hcov.
  rewrite (view_unfold h q Q Hq).
  unfold View_copy. rewrite (bind_ok _ _ _ _ _ (get_view_ok _ _ _ Ho)).
  unfold alloc, registerView, set_view, ret, lock, get_queue, set_queue, bind. simpl.
  rewrite HOq, Hq. simpl. rewrite Hq. unfold with_view. by rewrite Hcov.
Qed.




(** X16.  Copying a view of a live queue that has nothing left to read is
    the same as asking the queue for a view: the outcome and the state are
    those of [view()], the copy covers nothing, and the state stays
    well-formed. *)
Theorem copy_of_read_view_is_a_new_view h o O q Q :
  wf h → views h !! o = Some O → m_queue O = Some q → queues h !! q = Some Q →
  covered h o = [] →
  View_copy o h = view q h ∧
  ∃ v h', View_copy o h = Ok v h' ∧ wf h' ∧ covered h' v = [] ∧
          (∀ w, w ≠ v → covered h' w = covered h w).
Proof.
  intros Hwf Ho HOq Hq Hcov.
  pose proof (View_copy_read h o O q Q Hwf Ho HOq Hq Hcov) as Heq.
  split; [done|]. rewrite Heq.
  destruct (view_spec h q Q Hwf Hq) as (h' & Hrun & Hwf' & _ & _ & Hnew & _ & Hold & _).
  by exists (brk h), h'.
Qed.

End Lifecycle.


(** Witness of X16: the view [3] of [wiring_heap] is copied. *)
Lemma copy_of_read_view_is_a_new_view_witness :
  View_copy 3%positive wiring_heap = view 2%positive wiring_heap ∧
  ∃ v h', View_copy 3%positive wiring_heap = Ok v h' ∧ wf h' ∧ covered h' v = [] ∧
          (∀ w, w ≠ v → covered h' w = covered wiring_heap w).
Proof.
  apply (copy_of_read_view_is_a_new_view wiring_heap 3%positive (mkView (Some 2%positive) 0)
           2%positive (mkQueue [] [] {[3%positive]})).
  - apply wf_check_sound. vm_compute. reflexivity.
  - vm_compute. reflexivity.
  - reflexivity.
  - vm_compute. reflexivity.
  - vm_compute. reflexivity.
Defined.

(** ** [Consumer<In[]>::addInputPipe] *)

Section BusWiring.
Context {T : Type}.
Implicit Types (h : heap T) (Q : Queue T) (V : View) (c : ConsumerBus.t T).

Lemma lock_inv h o p : lock o h = Some p → o = Some p.1 ∧ queues h !! p.1 = Some p.2.
Proof.
  unfold lock. destruct o as [q|]; [|done].
  destruct (queues h !! q) as [Q|] eqn:HQ; [|done]. by intros [= <-].
Qed.

(** What the move constructor leaves alone. *)
Lemma View_move_frame h o O q Q :
  views h !! o = Some O → m_queue O = Some q → queues h !! q = Some Q →
  ∃ h', View_move o h = Ok (brk h) h' ∧
        (∀ w, w ≠ brk h → w ≠ o → views h' !! w = views h !! w) ∧
        (∀ q', is_Some (queues h' !! q') ↔ is_Some (queues h !! q')).
Proof.
  intros Ho HOq Hq. eexists. split.
  - unfold View_move. rewrite (bind_ok _ _ _ _ _ (get_view_ok _ _ _ Ho)).
    unfold alloc, swapView, set_view, set_queue, lock, get_queue, ret, bind. simpl.
    rewrite HOq, Hq. simpl. by rewrite Hq.
  - simpl. split.
    + intros w ??. by rewrite !lookup_insert_ne.
    + intros q'. destruct (decide (q' = q)) as [->|Hne].
      * rewrite lookup_insert_eq, Hq. split; eauto.
      * by rewrite lookup_insert_ne.
Qed.

(** What the destructor leaves alone. *)
Lemma View_destroy_frame h v V q Q :
  wf h → views h !! v = Some V → m_queue V = Some q → queues h !! q = Some Q →
  ∃ h', View_destroy v h = Ok tt h' ∧ wf h' ∧ views h' !! v = None ∧
        (∀ w, w ≠ v → covered h' w = covered h w) ∧
        (∀ w, w ≠ v → m_queue <$> views h' !! w = m_queue <$> views h !! w) ∧
        (∀ q', is_Some (queues h' !! q') ↔ is_Some (queues h !! q')).
Proof.
  intros Hwf Hv HVq Hq.
  destruct (View_destroy_spec h v V q Q Hwf Hv HVq Hq) as (h' & Hrun & Hwf' & Hgone & Hcov & _).
  exists h'. split; [done|]. split; [done|]. split; [done|]. split; [done|].
  destruct (unregisterView_run h q Q v V Hwf Hv HVq Hq)
    as (h1 & Q1 & V1 & Hun & _ & HQ1 & _ & _ & _ & _ & _ & _ & [Hviews Hqueues] & _).
  assert (h' = free_view v (set_queue q
            (mkQueue (m_impl Q1) (m_referenceCounter Q1) (m_views Q ∖ {[v]})) h1)) as ->.
  { unfold View_destroy in Hrun. rewrite (bind_ok _ _ _ _ _ (get_view_ok _ _ _ Hv)) in Hrun.
    unfold bind at 1 in Hrun. rewrite HVq, (lock_some _ _ _ Hq), Hun in Hrun. congruence. }
  simpl. split.
  - intros w Hne. rewrite lookup_delete_ne by done. apply Hviews.
  - intros q'. rewrite <- Hqueues. destruct (decide (q' = q)) as [->|Hne].
    + rewrite lookup_insert_eq, HQ1. split; eauto.
    + by rewrite lookup_insert_ne.
Qed.

(** The destructor on a view with no live queue. *)
Lemma View_destroy_dangling h v V :
  views h !! v = Some V → lock (m_queue V) h = None →
  View_destroy v h = Ok tt (free_view v h).
Proof.
  intros Hv Hlock. unfold View_destroy. rewrite (bind_ok _ _ _ _ _ (get_view_ok _ _ _ Hv)).
  unfold bind. by rewrite Hlock.
Qed.

Lemma covered_free_view h v w : w ≠ v → covered (free_view v h) w = covered h w.
Proof. intros Hne. unfold covered, lock. simpl. by rewrite lookup_delete_ne. Qed.

(** Copying, one after the other, views that have nothing left to read. *)
Lemma for_each_copy_read ws : ∀ h,
  wf h → Forall (λ w, live_view h w ∧ covered h w = []) ws →
  ∃ copies h', for_each View_copy ws h = Ok copies h' ∧ wf h' ∧
    Forall2 (λ old new, views h !! new = None ∧ covered h' new = [] ∧
                        ∀ q, attached h q old → attached h' q new) ws copies ∧
    (∀ w, is_Some (views h !! w) → views h' !! w = views h !! w) ∧
    (∀ w, is_Some (views h !! w) → covered h' w = covered h w) ∧
    (∀ q, is_Some (queues h' !! q) ↔ is_Some (queues h !! q)).
Proof.
  induction ws as [|o ws IH]; intros h Hwf Hall.
  - exists [], h. split_and!; done.
  - apply Forall_cons in Hall as [[Hlive Hcov] Hall].
    destruct Hlive as (O & q & Q & Ho & HOq & Hq).
    pose proof (View_copy_read h o O q Q Hwf Ho HOq Hq Hcov) as Heq.
    destruct (view_spec h q Q Hwf Hq)
      as (h1 & Hrun1 & Hwf1 & Hfresh & Hnew & Hnil & _ & Hcov1 & Hviews1 & Hqueues1).
    rewrite <- Heq in Hrun1.
    assert (∀ w, is_Some (views h !! w) → w ≠ brk h) as Hold.
    { intros w [W HW] ->. congruence. }
    destruct (IH h1 Hwf1) as (copies & h2 & Hrun2 & Hwf2 & Hall2 & Hviews2 & Hcov2 & Hqueues2).
    { apply Forall_forall. intros w Hw.
      apply (proj1 (Forall_forall _ _) Hall) in Hw as [(W & q' & Q' & HW & HWq & HQ') Hc].
      assert (w ≠ brk h) as Hne by (apply Hold; eauto).
      split.
      - destruct (proj2 (Hqueues1 q')) as [Q1' HQ1']; [eauto|].
        exists W, q', Q1'. split_and!; [|done..]. by rewrite Hviews1.
      - by rewrite Hcov1. }
    assert (is_Some (views h1 !! brk h)) as Hnew1 by eauto.
    exists (brk h :: copies), h2. split_and!; try done.
    + simpl. rewrite (bind_ok _ _ _ _ _ Hrun1). by rewrite (bind_ok _ _ _ _ _ Hrun2).
    + constructor.
      * split; [done|]. split; [by rewrite Hcov2|].
        intros q' (O' & HO' & HO'q). assert (O' = O) as -> by congruence.
        exists (mkView (Some q) (queue_size Q)). split; [by rewrite Hviews2|].
        simpl. congruence.
      * eapply Forall2_impl; [exact Hall2|]. simpl.
        intros old new (Hnone & Hc & Hatt). split; [|split; [done|]].
        -- destruct (decide (new = brk h)) as [->|Hne]; [done|].
           by rewrite <- Hviews1.
        -- intros q' (W & HW & HWq). apply Hatt. exists W. split; [|done].
           rewrite Hviews1; [done|]. apply Hold. eauto.
    + intros w Hw. rewrite Hviews2.
      * apply Hviews1. by apply Hold.
      * rewrite Hviews1; [done|]. by apply Hold.
    + intros w Hw. rewrite Hcov2.
      * apply Hcov1. by apply Hold.
      * rewrite Hviews1; [done|]. by apply Hold.
    + intros q'. by rewrite Hqueues2.
Qed.

(** Destroying, one after the other, different views of live queues. *)
Lemma for_each_destroy ws : ∀ h,
  wf h → NoDup ws → Forall (live_view h) ws →
  ∃ h', for_each View_destroy ws h = Ok (replicate (length ws) tt) h' ∧ wf h' ∧
    (∀ w, w ∉ ws → covered h' w = covered h w) ∧
    (∀ w, w ∉ ws → m_queue <$> views h' !! w = m_queue <$> views h !! w) ∧
    (∀ w, w ∈ ws → views h' !! w = None) ∧
    (∀ q, is_Some (queues h' !! q) ↔ is_Some (queues h !! q)).
Proof.
  induction ws as [|v ws IH]; intros h Hwf Hnd Hall.
  - exists h. split_and!; try done. intros w Hw. by apply elem_of_nil in Hw.
  - apply NoDup_cons in Hnd as [Hv Hnd].
    apply Forall_cons in Hall as [(V & q & Q & HV & HVq & HQ) Hall].
    destruct (View_destroy_frame h v V q Q Hwf HV HVq HQ)
      as (h1 & Hrun1 & Hwf1 & Hgone1 & Hcov1 & Hviews1 & Hqueues1).
    destruct (IH h1 Hwf1 Hnd) as (h2 & Hrun2 & Hwf2 & Hcov2 & Hviews2 & Hgone2 & Hqueues2).
    { apply Forall_forall. intros w Hw.
      apply (proj1 (Forall_forall _ _) Hall) in Hw as Hlive.
      destruct Hlive as (W & q' & Q' & HW & HWq & HQ').
      assert (w ≠ v) as Hne by (intros ->; done).
      specialize (Hviews1 w Hne). rewrite HW in Hviews1.
      destruct (views h1 !! w) as [W1|] eqn:HW1; [|done]. simpl in Hviews1.
      destruct (proj2 (Hqueues1 q')) as [Q1' HQ1']; [eauto|].
      exists W1, q', Q1'. split_and!; [done| |done]. congruence. }
    exists h2. split_and!; try done.
    + simpl. rewrite (bind_ok _ _ _ _ _ Hrun1). by rewrite (bind_ok _ _ _ _ _ Hrun2).
    + intros w Hw. apply not_elem_of_cons in Hw as [Hne Hw].
      rewrite Hcov2 by done. by apply Hcov1.
    + intros w Hw. apply not_elem_of_cons in Hw as [Hne Hw].
      rewrite Hviews2 by done. by apply Hviews1.
    + intros w [->|Hw]%elem_of_cons; [|by apply Hgone2].
      specialize (Hviews2 v Hv). rewrite Hgone1 in Hviews2.
      by destruct (views h2 !! v).
    + intros q'. by rewrite Hqueues2.
Qed.

Lemma attached_views h h' q w :
  m_queue <$> views h' !! w = m_queue <$> views h !! w → attached h q w → attached h' q w.
Proof.
  intros Heq (W & HW & HWq). rewrite HW in Heq.
  destruct (views h' !! w) as [W'|] eqn:HW'; [|done]. simpl in Heq.
  exists W'. split; [done|]. congruence.
Qed.

Lemma addInputPipe_spec realloc c h p P q Q :
  wf h → views h !! p = Some P → m_queue P = Some q → queues h !! q = Some Q →
  p ∉ ConsumerBus.m_inputPipes c → NoDup (ConsumerBus.m_inputPipes c) →
  Forall (live_view h) (ConsumerBus.m_inputPipes c) →
  (realloc = true → Forall (λ w, covered h w = []) (ConsumerBus.m_inputPipes c)) →
  ∃ pipes' v h',
    ConsumerBus.addInputPipe realloc p (c, h)
      = Ok tt (ConsumerBus.mk (pipes' ++ [v]) (ConsumerBus.m_inputs c), h') ∧
    wf h' ∧ covered h' v = covered h p ∧ attached h' q v ∧ views h' !! p = None ∧
    Forall2 (λ old new, covered h' new = covered h old ∧
                        ∀ q', attached h q' old → attached h' q' new)
            (ConsumerBus.m_inputPipes c) pipes' ∧
    (realloc = false → pipes' = ConsumerBus.m_inputPipes c).
Proof.
  intros Hwf Hp HPq Hq Hnotin Hnd Hlive Hread.
  destruct (View_move_spec h p P q Q Hwf Hp HPq Hq)
    as (v & h1 & Hmove & Hwf1 & Hfresh & Hv1 & Hp1 & Hcovv & _ & Hcov1 & _ & _).
  destruct (View_move_frame h p P q Q Hp HPq Hq) as (h1' & Hmove' & Hviews1 & Hqueues1).
  assert (v = brk h ∧ h1' = h1) as [Hv ->] by (split; congruence).
  rewrite <- Hv in Hviews1. clear Hmove'.
  assert (v ≠ p) as Hvp by (intros ->; congruence).
  assert (∀ w, w ∈ ConsumerBus.m_inputPipes c → w ≠ v ∧ w ≠ p) as Hpipes.
  { intros w Hw. split; [|by intros ->].
    apply (proj1 (Forall_forall _ _) Hlive) in Hw as (W & _ & _ & HW & _). congruence. }
  assert (v ∉ ConsumerBus.m_inputPipes c) as Hvnotin.
  { intros Hin. by destruct (Hpipes v Hin). }
  destruct realloc.
  - (* the vector reallocates *)
    destruct (for_each_copy_read (ConsumerBus.m_inputPipes c) h1 Hwf1)
      as (copies & h2 & Hcopy & Hwf2 & Hall2 & Hviews2 & Hcov2 & Hqueues2).
    { apply Forall_forall. intros w Hw. destruct (Hpipes w Hw) as [Hwv Hwp].
      pose proof (proj1 (Forall_forall _ _) Hlive w Hw) as (W & q' & Q' & HW & HWq & HQ').
      pose proof (proj1 (Forall_forall _ _) (Hread eq_refl) w Hw) as Hc. simpl in Hc.
      split; [|by rewrite Hcov1].
      destruct (proj2 (Hqueues1 q')) as [Q1' HQ1']; [eauto|].
      exists W, q', Q1'. split_and!; [|done..]. by rewrite Hviews1. }
    assert (∀ w, w ∈ ConsumerBus.m_inputPipes c → is_Some (views h1 !! w)) as Hin1.
    { intros w Hw. destruct (Hpipes w Hw) as [Hwv Hwp].
      pose proof (proj1 (Forall_forall _ _) Hlive w Hw) as (W & _ & _ & HW & _).
      rewrite Hviews1 by done. eauto. }
    destruct (for_each_destroy (ConsumerBus.m_inputPipes c) h2 Hwf2 Hnd)
      as (h3 & Hdestroy & Hwf3 & Hcov3 & Hviews3 & Hgone3 & Hqueues3).
    { apply Forall_forall. intros w Hw. destruct (Hpipes w Hw) as [Hwv Hwp].
      pose proof (proj1 (Forall_forall _ _) Hlive w Hw) as (W & q' & Q' & HW & HWq & HQ').
      destruct (proj2 (Hqueues1 q')) as [Q1' HQ1']; [eauto|].
      destruct (proj2 (Hqueues2 q')) as [Q2' HQ2']; [eauto|].
      exists W, q', Q2'. split_and!; [|done..].
      rewrite Hviews2 by (by apply Hin1). by rewrite Hviews1. }
    assert (∃ P3, views h3 !! p = Some P3 ∧ m_queue P3 = None) as (P3 & Hp3 & HP3).
    { specialize (Hviews3 p Hnotin). rewrite Hviews2, Hp1 in Hviews3 by eauto.
      destruct (views h3 !! p) as [P3|] eqn:E; [|done]. simpl in Hviews3.
      exists P3. split; [done|]. congruence. }
    assert (View_destroy p h3 = Ok tt (free_view p h3)) as Hdrop.
    { apply (View_destroy_dangling h3 p P3); [done|]. by rewrite HP3. }
    exists copies, v, (free_view p h3).
    split; [|split; [|split; [|split; [|split; [|split]]]]].
    + unfold ConsumerBus.addInputPipe.
      unfold bind at 1. unfold get_self at 1. simpl.
      rewrite (bind_ok _ _ _ _ _ (on_heap_ok _ c h h1 _ Hmove)).
      erewrite bind_ok.
      2:{ rewrite (bind_ok _ _ _ _ _ (on_heap_ok _ c h1 h2 _ Hcopy)).
          rewrite (bind_ok _ _ _ _ _ (on_heap_ok _ c h2 h3 _ Hdestroy)).
          reflexivity. }
      by apply on_heap_ok.
    + by apply (View_destroy_wf h3 p).
    + rewrite covered_free_view by done. rewrite Hcov3 by done.
      rewrite Hcov2 by eauto. done.
    + apply (attached_views h3); [simpl; by rewrite lookup_delete_ne|].
      apply (attached_views h2); [by apply Hviews3|].
      exists (mkView (Some q) (m_idx P)). split; [|done]. rewrite Hviews2 by eauto. done.
    + simpl. apply lookup_delete_eq.
    + apply Forall2_same_length_lookup. split; [by eapply Forall2_length|].
      intros i old new Hold Hnew.
      destruct (Forall2_lookup_lr _ _ _ _ _ _ Hall2 Hold Hnew) as (Hnone & Hc & Hatt).
      apply list_elem_of_lookup_2 in Hold as Hin.
      destruct (Hpipes old Hin) as [Holdv Holdp].
      assert (new ≠ p) as Hnewp by (intros ->; congruence).
      assert (new ∉ ConsumerBus.m_inputPipes c) as Hnewnotin.
      { intros Hnewin. destruct (Hin1 new Hnewin) as [? ?]. congruence. }
      split.
      * rewrite covered_free_view by done. rewrite Hcov3 by done. rewrite Hc.
        symmetry. apply (proj1 (Forall_forall _ _) (Hread eq_refl) old Hin).
      * intros q' Hq'.
        apply (attached_views h3); [simpl; by rewrite lookup_delete_ne|].
        apply (attached_views h2); [by apply Hviews3|].
        apply Hatt. apply (attached_views h); [|done]. by rewrite Hviews1.
    + done.
  - (* the new element is constructed in place *)
    assert (View_destroy p h1 = Ok tt (free_view p h1)) as Hdrop
      by (by apply (View_destroy_dangling h1 p (mkView None (m_idx P)))).
    exists (ConsumerBus.m_inputPipes c), v, (free_view p h1).
    split; [|split; [|split; [|split; [|split; [|split]]]]].
    + unfold ConsumerBus.addInputPipe.
      unfold bind at 1. unfold get_self at 1. simpl.
      rewrite (bind_ok _ _ _ _ _ (on_heap_ok _ c h h1 _ Hmove)).
      erewrite bind_ok; [|reflexivity].
      by apply on_heap_ok.
    + by apply (View_destroy_wf h1 p).
    + by rewrite covered_free_view.
    + exists (mkView (Some q) (m_idx P)). split; [|done].
      simpl. by rewrite lookup_delete_ne.
    + simpl. apply lookup_delete_eq.
    + apply Forall2_same_length_lookup. split; [done|].
      intros i old new Hold Hnew. assert (new = old) as -> by congruence.
      apply list_elem_of_lookup_2 in Hold as Hin.
      destruct (Hpipes old Hin) as [Holdv Holdp].
      split.
      * rewrite covered_free_view by done. by apply Hcov1.
      * intros q' Hq'. apply (attached_views h); [|done].
        simpl. rewrite lookup_delete_ne by done. by rewrite Hviews1.
    + done.
Qed.

(** X17.  [addInputPipe] on a bus of different live views, in a well-formed
    state, with a view [p] of a live queue that is not one of them: whether
    the vector of pipes reallocates or not (its elements are then copied to
    new objects and the old ones destroyed; in that case the pipes are
    required to have nothing left to read), the call returns, the bus has
    one more pipe at the end, which is a view of the queue of [p] covering
    what [p] covered, the pipes before it are, in the same order, views of
    the same queues covering what they covered, [p] is gone, the inputs
    gathered so far are kept, and the state is well-formed. *)
Theorem addInputPipe_appends_view realloc c h p P q Q :
  wf h → views h !! p = Some P → m_queue P = Some q → queues h !! q = Some Q →
  p ∉ ConsumerBus.m_inputPipes c → NoDup (ConsumerBus.m_inputPipes c) →
  Forall (live_view h) (ConsumerBus.m_inputPipes c) →
  (realloc = true → Forall (λ w, covered h w = []) (ConsumerBus.m_inputPipes c)) →
  ∃ pipes' v h',
    ConsumerBus.addInputPipe realloc p (c, h)
      = Ok tt (ConsumerBus.mk (pipes' ++ [v]) (ConsumerBus.m_inputs c), h') ∧
    wf h' ∧ covered h' v = covered h p ∧ attached h' q v ∧ views h' !! p = None ∧
    Forall2 (λ old new, covered h' new = covered h old ∧
                        ∀ q', attached h q' old → attached h' q' new)
            (ConsumerBus.m_inputPipes c) pipes' ∧
    (realloc = false → pipes' = ConsumerBus.m_inputPipes c).
Proof. apply addInputPipe_spec. Qed.

End BusWiring.

(** Witness of X17: a bus holding the view [3] of [pipeline_heap] is given
    the view [4], the vector reallocating. *)
Lemma addInputPipe_appends_view_witness :
  ∃ pipes' v h',
    ConsumerBus.addInputPipe true 4%positive (ConsumerBus.mk [3%positive] [], pipeline_heap)
      = Ok tt (ConsumerBus.mk (pipes' ++ [v])
                 (ConsumerBus.m_inputs (ConsumerBus.mk [3%positive] ([] : list N))), h') ∧
    wf h' ∧ covered h' v = covered pipeline_heap 4%positive ∧
    attached h' 2%positive v ∧ views h' !! 4%positive = None ∧
    Forall2 (λ old new, covered h' new = covered pipeline_heap old ∧
                        ∀ q', attached pipeline_heap q' old → attached h' q' new)
            (ConsumerBus.m_inputPipes (ConsumerBus.mk [3%positive] ([] : list N))) pipes' ∧
    (true = false →
     pipes' = ConsumerBus.m_inputPipes (ConsumerBus.mk [3%positive] ([] : list N))).
Proof.
  apply (addInputPipe_appends_view true (ConsumerBus.mk [3%positive] []) pipeline_heap
           4%positive (mkView (Some 2%positive) 0) 2%positive (mkQueue [] [] {[4%positive]})).
  - apply wf_check_sound. vm_compute. reflexivity.
  - vm_compute. reflexivity.
  - reflexivity.
  - vm_compute. reflexivity.
  - simpl. intros [Heq|Hin]%elem_of_cons; [discriminate|]. by apply elem_of_nil in Hin.
  - apply NoDup_singleton.
  - simpl. apply Forall_singleton.
    exists (mkView (Some 1%positive) 0), 1%positive, (mkQueue [] [] {[3%positive]}).
    split_and!; vm_compute; reflexivity.
  - intros _. simpl. apply Forall_singleton. vm_compute. reflexivity.
Defined.

(** ** A connected consumer *)

Section Connected.
Context {T : Type}.
Implicit Types (h : heap T) (Q : Queue T) (V : View) (c : Consumer1.t).

(** One round of [feed_and_pull] on a queue with a stale registration. *)
Lemma feed_and_pull_round h q Q s c x :
  wf h → queues h !! q = Some Q → s ∈ m_views Q → ¬ attached h q s →
  attached h q (Consumer1.m_inputPipe c) → covered h (Consumer1.m_inputPipe c) = [] →
  queue_size Q < size_t_max →
  ∃ h' Q', (push q x ;;' Consumer1.pullInput c) h = Ok (Some x) h' ∧ wf h' ∧
           queues h' !! q = Some Q' ∧ m_impl Q' = m_impl Q ++ [x] ∧ s ∈ m_views Q' ∧
           ¬ attached h' q s ∧ attached h' q (Consumer1.m_inputPipe c) ∧
           covered h' (Consumer1.m_inputPipe c) = [].
Proof.
  intros Hwf Hq Hs Hstale Hd Hcov Hroom.
  assert (m_views Q ≠ ∅) as HX.
  { intros HX. rewrite HX in Hs. by apply not_elem_of_empty in Hs. }
  pose proof (push_unfold h q Q x Hq) as Hpush. rewrite decide_False in Hpush by done.
  pose proof (wf_with_slot h q Q x Hwf Hq HX Hroom) as Hwf1.
  destruct (covered_with_slot h q Q x Hwf Hq) as (Hin1 & _ & Hsame1).
  set (h1 := with_slot h q Q x) in *.
  assert (queues h1 !! q = Some (mkQueue (m_impl Q ++ [x])
            (m_referenceCounter Q ++ [N.of_nat (size (m_views Q))]) (m_views Q))) as Hq1.
  { unfold h1. simpl. by rewrite lookup_insert_eq. }
  assert (covered h1 (Consumer1.m_inputPipe c) = [x]) as Hcov1.
  { rewrite Hin1 by done. by rewrite Hcov. }
  destruct (pop_beside_stale_registration h1 q _ s (Consumer1.m_inputPipe c) x [] Hwf1 Hq1)
    as (h2 & Q2 & Hpop & Hwf2 & Hcov2 & Hq2 & Himpl2 & HX2 & Hstale2).
  { done. }
  { intros Hatt. apply Hstale. by apply (same_wiring_attached h h1). }
  { by apply (same_wiring_attached h h1). }
  { done. }
  destruct (pullInput_pop h1 c x [] Hwf1 Hcov1) as (h2' & Hpop' & Hpull & _ & _ & _ & Hsame2).
  assert (h2' = h2) as -> by congruence.
  exists h2, Q2. split_and!; try done.
  - by rewrite (bind_ok _ _ _ _ _ Hpush).
  - by rewrite HX2.
  - apply (same_wiring_attached h1 h2); [done|]. by apply (same_wiring_attached h h1).
Qed.

Lemma feed_and_pull_rounds q s c values : ∀ h Q,
  wf h → queues h !! q = Some Q → s ∈ m_views Q → ¬ attached h q s →
  attached h q (Consumer1.m_inputPipe c) → covered h (Consumer1.m_inputPipe c) = [] →
  queue_size Q + N.of_nat (length values) ≤ size_t_max →
  ∃ h' Q', feed_and_pull q c values h = Ok (Some <$> values) h' ∧ wf h' ∧
           queues h' !! q = Some Q' ∧ m_impl Q' = m_impl Q ++ values ∧
           covered h' (Consumer1.m_inputPipe c) = [].
Proof.
  induction values as [|x values IH]; intros h Q Hwf Hq Hs Hstale Hd Hcov Hroom.
  - exists h, Q. split_and!; try done. by rewrite app_nil_r.
  - simpl in Hroom.
    destruct (feed_and_pull_round h q Q s c x Hwf Hq Hs Hstale Hd Hcov)
      as (h1 & Q1 & Hrun1 & Hwf1 & Hq1 & Himpl1 & Hs1 & Hstale1 & Hd1 & Hcov1); [lia|].
    destruct (IH h1 Q1 Hwf1 Hq1 Hs1 Hstale1 Hd1 Hcov1)
      as (h2 & Q2 & Hrun2 & Hwf2 & Hq2 & Himpl2 & Hcov2).
    { unfold queue_size in *. rewrite Himpl1, length_app. simpl. lia. }
    exists h2, Q2. split_and!; try done.
    + unfold feed_and_pull in *. simpl.
      rewrite (bind_ok _ _ _ _ _ Hrun1). by rewrite (bind_ok _ _ _ _ _ Hrun2).
    + rewrite Himpl2, Himpl1. by rewrite <- app_assoc.
Qed.

(** [connect] on a consumer whose view has no live queue and a live queue
    that holds nothing. *)
Lemma connect_spec h c D q Q :
  wf h → views h !! Consumer1.m_inputPipe c = Some D → lock (m_queue D) h = None →
  queues h !! q = Some Q → m_impl Q = [] →
  ∃ h' Q', connect q c h = Ok tt h' ∧ wf h' ∧ queues h' !! q = Some Q' ∧ m_impl Q' = [] ∧
           brk h ∈ m_views Q' ∧ ¬ attached h' q (brk h) ∧
           attached h' q (Consumer1.m_inputPipe c) ∧
           covered h' (Consumer1.m_inputPipe c) = [].
Proof.
  intros Hwf Hd HD Hq Hempty.
  pose proof (view_unfold h q Q Hq) as Hview.
  pose proof (wf_with_view h q Q Hwf Hq) as Hwf0.
  set (h0 := with_view h q Q) in *.
  assert (Consumer1.m_inputPipe c ≠ brk h) as Hne.
  { intros Heq. pose proof (wf_view_addr h Hwf _ _ Hd) as Hlt. rewrite Heq in Hlt. lia. }
  assert (views h0 !! Consumer1.m_inputPipe c = Some D) as Hd0.
  { unfold h0. simpl. by rewrite lookup_insert_ne. }
  assert (lock (m_queue D) h0 = None) as HD0.
  { unfold lock in *. unfold h0. simpl. destruct (m_queue D) as [q'|]; [|done].
    destruct (decide (q' = q)) as [->|Hq']; [by rewrite Hq in HD|].
    by rewrite lookup_insert_ne. }
  assert (views h0 !! brk h = Some (mkView (Some q) (queue_size Q))) as Hv0.
  { unfold h0. simpl. by rewrite lookup_insert_eq. }
  assert (queues h0 !! q =
          Some (mkQueue (m_impl Q) (m_referenceCounter Q) ({[brk h]} ∪ m_views Q))) as Hq0.
  { unfold h0. simpl. by rewrite lookup_insert_eq. }
  pose proof (setInputPipe_run h0 c D (brk h) _ q _ Hd0 HD0 Hv0 eq_refl Hq0) as Hset.
  pose proof (wf_wired h0 _ D (brk h) _ q _ Hwf0 Hd0 HD0 Hv0 eq_refl Hq0 Hempty) as Hwf1.
  simpl in Hset, Hwf1.
  eexists _, _. split; [|split; [exact Hwf1|]].
  { unfold connect. rewrite (bind_ok _ _ _ _ _ Hview). exact Hset. }
  assert (views (wired h0 (Consumer1.m_inputPipe c) (brk h) q
            (mkQueue (m_impl Q) (m_referenceCounter Q) ({[brk h]} ∪ m_views Q))
            (queue_size Q)) !! Consumer1.m_inputPipe c
          = Some (mkView (Some q) (queue_size Q))) as Hd1.
  { simpl. rewrite lookup_delete_ne by done. by rewrite lookup_insert_eq. }
  split; [simpl; by rewrite lookup_insert_eq|]. simpl.
  split; [done|]. split.
  { apply elem_of_union. right. apply elem_of_union. left. by apply elem_of_singleton. }
  split.
  { intros (V & HV & _). simpl in HV. by rewrite lookup_delete_eq in HV. }
  split.
  { eexists. split; [exact Hd1|done]. }
  erewrite covered_live; [|exact Hd1|done|simpl; by rewrite lookup_insert_eq].
  simpl. rewrite Hempty. by rewrite drop_nil.
Qed.

(** X18.  A consumer connected the usual way never lets its queue free
    anything: when a consumer with one input, whose view has no live queue,
    is connected to a live empty queue by [setInputPipe(queue->view())],
    and then, for each value of a list in turn, the value is pushed and the
    consumer pulls, every pull returns the value just pushed, and at the
    end the queue still holds all the values although its only reader has
    nothing left to read.  (The parameter of [setInputPipe] stays registered
    after the move assignment; the state at the end is well-formed.) *)
Theorem connected_consumer_keeps_everything h c D q Q values :
  wf h → views h !! Consumer1.m_inputPipe c = Some D → lock (m_queue D) h = None →
  queues h !! q = Some Q → m_impl Q = [] →
  N.of_nat (length values) ≤ size_t_max →
  ∃ h1 h2 Q2, connect q c h = Ok tt h1 ∧
              feed_and_pull q c values h1 = Ok (Some <$> values) h2 ∧ wf h2 ∧
              queues h2 !! q = Some Q2 ∧ m_impl Q2 = values ∧
              covered h2 (Consumer1.m_inputPipe c) = [].
Proof.
  intros Hwf Hd HD Hq Hempty Hroom.
  destruct (connect_spec h c D q Q Hwf Hd HD Hq Hempty)
    as (h1 & Q1 & Hrun1 & Hwf1 & Hq1 & Himpl1 & Hs1 & Hstale1 & Hd1 & Hcov1).
  destruct (feed_and_pull_rounds q (brk h) c values h1 Q1 Hwf1 Hq1 Hs1 Hstale1 Hd1 Hcov1)
    as (h2 & Q2 & Hrun2 & Hwf2 & Hq2 & Himpl2 & Hcov2).
  { unfold queue_size. rewrite Himpl1. simpl. lia. }
  exists h1, h2, Q2. split_and!; try done. by rewrite Himpl2, Himpl1.
Qed.

End Connected.

(** Witness of X18: the consumer of [unconnected_heap] is connected and fed
    three values. *)
Lemma connected_consumer_keeps_everything_witness :
  ∃ h1 h2 Q2, connect 2%positive (Consumer1.mk 1) unconnected_heap = Ok tt h1 ∧
              feed_and_pull 2%positive (Consumer1.mk 1) [5; 6; 7] h1
                = Ok (Some <$> [5; 6; 7]) h2 ∧ wf h2 ∧
              queues h2 !! 2%positive = Some Q2 ∧ m_impl Q2 = [5; 6; 7] ∧
              covered h2 (Consumer1.m_inputPipe (Consumer1.mk 1)) = [].
Proof.
  apply (connected_consumer_keeps_everything unconnected_heap (Consumer1.mk 1)
           (mkView None 0) 2%positive (mkQueue [] [] ∅) [5; 6; 7]).
  - apply wf_check_sound. vm_compute. reflexivity.
  - vm_compute. reflexivity.
  - reflexivity.
  - vm_compute. reflexivity.
  - reflexivity.
  - vm_compute. discriminate.
Defined.

(** ** [Consumer<Ins...>::setInputPipes] *)

Section FixedWiring.
Context {T : Type}.
Implicit Types (h : heap T) (Q : Queue T) (V : View) (c : ConsumerN.t).

Lemma same_elements_refl h : same_elements h h.
Proof. by intros q. Qed.

Lemma same_elements_trans h1 h2 h3 :
  same_elements h1 h2 → same_elements h2 h3 → same_elements h1 h3.
Proof. intros H12 H23 q. by rewrite H23. Qed.

Lemma same_elements_lock h h' o :
  same_elements h h' → lock o h = None → lock o h' = None.
Proof.
  intros Hsame. unfold lock. destruct o as [q|]; [|done]. specialize (Hsame q).
  destruct (queues h !! q), (queues h' !! q); done.
Qed.

Lemma same_elements_unwired h h' d :
  same_elements h h' → views h' !! d = views h !! d → unwired h d → unwired h' d.
Proof.
  intros Hsame Heq (D & HD & Hlock). exists D. split; [congruence|].
  by apply (same_elements_lock h).
Qed.

Lemma same_elements_fresh h h' p :
  same_elements h h' → views h' !! p = views h !! p → fresh_pipe h p → fresh_pipe h' p.
Proof.
  intros Hsame Heq (P & q & Q & HP & HPq & HQ & Hempty). specialize (Hsame q).
  rewrite HQ in Hsame. destruct (queues h' !! q) as [Q'|] eqn:HQ'; [|done].
  exists P, q, Q'. split_and!; [congruence|done..|]. simpl in Hsame. congruence.
Qed.

Lemma same_elements_covered h h' w :
  same_elements h h' → views h' !! w = views h !! w → covered h' w = covered h w.
Proof.
  intros Hsame Heq. unfold covered, lock. rewrite Heq.
  destruct (views h !! w) as [W|]; [|done].
  destruct (m_queue W) as [q|]; [|done]. specialize (Hsame q).
  destruct (queues h !! q) as [Q|], (queues h' !! q) as [Q'|]; try done.
  simpl in Hsame. congruence.
Qed.

(** The move constructor, for the loops below. *)
Lemma View_move_fresh h p P q Q :
  wf h → views h !! p = Some P → m_queue P = Some q → queues h !! q = Some Q →
  ∃ h', View_move p h = Ok (brk h) h' ∧ wf h' ∧ same_elements h h' ∧
        views h !! brk h = None ∧
        views h' = <[brk h := mkView (Some q) (m_idx P)]>
                     (<[p := mkView None (m_idx P)]> (views h)).
Proof.
  intros Hwf Hp HPq Hq.
  destruct (View_move_spec h p P q Q Hwf Hp HPq Hq) as (v & h1 & Hmove & Hwf1 & Hfresh & _).
  assert (View_move p h = Ok (brk h)
            (mkHeap (<[q := mkQueue (m_impl Q) (m_referenceCounter Q)
                              (({[brk h]} ∪ m_views Q) ∖ {[p]})]> (queues h))
                    (<[brk h := mkView (Some q) (m_idx P)]>
                       (<[p := mkView None (m_idx P)]> (views h)))
                    (Pos.succ (brk h)))) as Hrun.
  { unfold View_move. rewrite (bind_ok _ _ _ _ _ (get_view_ok _ _ _ Hp)).
    unfold alloc, swapView, set_view, set_queue, lock, get_queue, ret, bind. simpl.
    rewrite HPq, Hq. simpl. by rewrite Hq. }
  eexists. split; [exact Hrun|]. rewrite Hrun in Hmove. injection Hmove as <- <-.
  split; [done|]. split; [|done].
  intros q'. simpl. destruct (decide (q' = q)) as [->|Hne].
  - by rewrite lookup_insert_eq, Hq.
  - by rewrite lookup_insert_ne.
Qed.

(** The move assignment to a view with no live queue from a view of an
    empty queue. *)
Lemma View_move_assign_fresh h d p :
  wf h → unwired h d → fresh_pipe h p →
  ∃ P h', views h !! p = Some P ∧ View_move_assign d p h = Ok tt h' ∧ wf h' ∧
          same_elements h h' ∧
          views h' = <[d := mkView (m_queue P) (m_idx P)]>
                       (<[p := mkView None (m_idx P)]> (views h)).
Proof.
  intros Hwf (D & Hd & HD) (P & q & Q & Hp & HPq & Hq & Hempty).
  exists P, (assigned h d p q Q (m_idx P)). split; [done|].
  assert (p ≠ d) as Hne.
  { intros ->. assert (D = P) as -> by congruence.
    by rewrite HPq, (lock_some _ _ _ Hq) in HD. }
  split; [|split; [|split]].
  - unfold View_move_assign.
    rewrite (bind_ok _ _ _ _ _ (get_view_ok _ _ _ Hd)).
    unfold bind at 1. rewrite HD.
    rewrite (bind_ok _ _ _ _ _ (get_view_ok _ _ _ Hp)).
    unfold bind at 1. rewrite HPq.
    unfold lock. simpl. rewrite Hq.
    unfold registerView, bind, get_queue. simpl. by rewrite Hq.
  - pose proof (wf_wired h d D p P q Q Hwf Hd HD Hp HPq Hq Hempty) as Hwired.
    apply (wf_views_change _ (views (assigned h d p q Q (m_idx P))) (brk h)) in Hwired.
    + exact Hwired.
    + simpl. lia.
    + simpl. intros w W'. destruct (decide (w = d)) as [->|Hwd].
      * rewrite lookup_insert_eq. intros [= <-]. split.
        -- by apply (wf_view_addr h Hwf d D).
        -- simpl. intros q' [= <-]. by apply (wf_queue_addr h Hwf q Q).
      * rewrite lookup_insert_ne by done. destruct (decide (w = p)) as [->|Hwp].
        -- rewrite lookup_insert_eq. intros [= <-]. split; [|done].
           by apply (wf_view_addr h Hwf p P).
        -- rewrite lookup_insert_ne by done. intros HW. split.
           ++ by apply (wf_view_addr h Hwf w W').
           ++ intros q' Hq'. by apply (wf_weak_addr h Hwf w W' q').
    + intros w. simpl. destruct (decide (w = p)) as [->|Hwp].
      * right. rewrite lookup_delete_eq, lookup_insert_ne, lookup_insert_eq by done.
        split; [done|]. by intros V' [= <-].
      * left. by rewrite lookup_delete_ne.
  - intros q'. simpl. destruct (decide (q' = q)) as [->|Hq'].
    + by rewrite lookup_insert_eq, Hq.
    + by rewrite lookup_insert_ne.
  - simpl. by rewrite HPq.
Qed.

(** Move-constructing a temporary from each of the parameters. *)
Lemma for_each_move ps : ∀ h,
  wf h → NoDup ps → Forall (fresh_pipe h) ps →
  ∃ tmps h', for_each View_move ps h = Ok tmps h' ∧ wf h' ∧ same_elements h h' ∧
    length tmps = length ps ∧ NoDup tmps ∧ Forall (λ t, views h !! t = None) tmps ∧
    (∀ i p t, ps !! i = Some p → tmps !! i = Some t →
       ∃ P, views h !! p = Some P ∧
            views h' !! t = Some (mkView (m_queue P) (m_idx P)) ∧
            views h' !! p = Some (mkView None (m_idx P))) ∧
    (∀ w, w ∉ ps → w ∉ tmps → views h' !! w = views h !! w).
Proof.
  induction ps as [|p ps IH]; intros h Hwf Hnd Hall.
  - exists [], h. split_and!; try done; constructor.
  - apply NoDup_cons in Hnd as [Hp Hnd].
    apply Forall_cons in Hall as [(P & q & Q & HP & HPq & HQ & Hempty) Hall].
    destruct (View_move_fresh h p P q Q Hwf HP HPq HQ)
      as (h1 & Hrun1 & Hwf1 & Hsame1 & Hfresh & Hviews1).
    assert (p ≠ brk h) as Hpv by (intros ->; congruence).
    assert (∀ w, w ≠ brk h → w ≠ p → views h1 !! w = views h !! w) as Hother1.
    { intros w ??. rewrite Hviews1. by rewrite !lookup_insert_ne. }
    assert (∀ w, w ∈ ps → w ≠ brk h ∧ w ≠ p) as Hps.
    { intros w Hw. split; [|by intros ->].
      apply (proj1 (Forall_forall _ _) Hall) in Hw as (W & _ & _ & HW & _). congruence. }
    destruct (IH h1 Hwf1 Hnd)
      as (tmps & h2 & Hrun2 & Hwf2 & Hsame2 & Hlen & Hndt & Hnone & Hat & Hother2).
    { apply Forall_forall. intros w Hw. destruct (Hps w Hw).
      apply (same_elements_fresh h h1); [done|by apply Hother1|].
      by apply (proj1 (Forall_forall _ _) Hall). }
    assert (∀ t, t ∈ tmps → t ≠ brk h ∧ t ≠ p ∧ views h !! t = None) as Htmps.
    { intros t Ht. apply (proj1 (Forall_forall _ _) Hnone) in Ht.
      assert (t ≠ brk h) as H1.
      { intros ->. rewrite Hviews1, lookup_insert_eq in Ht. done. }
      assert (t ≠ p) as H2.
      { intros ->. rewrite Hviews1, lookup_insert_ne, lookup_insert_eq in Ht; done. }
      split_and!; [done..|]. by rewrite <- Hother1. }
    assert (brk h ∉ ps) as Hvps by (intros Hin; by destruct (Hps _ Hin)).
    assert (brk h ∉ tmps) as Hvtmps by (intros Hin; by destruct (Htmps _ Hin)).
    assert (p ∉ tmps) as Hptmps by (intros Hin; by destruct (Htmps _ Hin) as (_ & ? & _)).
    exists (brk h :: tmps), h2.
    split; [|split; [done|split; [|split; [|split; [|split; [|split]]]]]].
    + simpl. rewrite (bind_ok _ _ _ _ _ Hrun1). by rewrite (bind_ok _ _ _ _ _ Hrun2).
    + by apply (same_elements_trans h h1 h2).
    + simpl. by rewrite Hlen.
    + by apply NoDup_cons.
    + apply Forall_cons. split; [done|].
      apply Forall_forall. intros t Ht. by destruct (Htmps t Ht) as (_ & _ & ?).
    + intros [|i] p' t Hp' Ht; simpl in Hp', Ht.
      * injection Hp' as <-. injection Ht as <-. exists P. split; [done|].
        rewrite !Hother2 by done. rewrite Hviews1.
        rewrite lookup_insert_eq, lookup_insert_ne, lookup_insert_eq by done.
        by rewrite HPq.
      * destruct (Hat i p' t Hp' Ht) as (P' & HP' & Ht' & Hp'').
        exists P'. split; [|done]. rewrite <- Hother1; [done| |].
        -- apply list_elem_of_lookup_2 in Hp'. by destruct (Hps p' Hp').
        -- apply list_elem_of_lookup_2 in Hp'. by destruct (Hps p' Hp').
    + intros w [Hwp Hwps]%not_elem_of_cons [Hwv Hwt]%not_elem_of_cons.
      rewrite Hother2 by done. by apply Hother1.
Qed.

(** The member-by-member move assignment. *)
Lemma move_assign_each_fresh ds : ∀ tmps h,
  wf h → NoDup ds → NoDup tmps → length ds = length tmps →
  (∀ d, d ∈ ds → d ∉ tmps) →
  Forall (unwired h) ds → Forall (fresh_pipe h) tmps →
  ∃ h', ConsumerN.move_assign_each ds tmps h = Ok tt h' ∧ wf h' ∧ same_elements h h' ∧
    (∀ i d t, ds !! i = Some d → tmps !! i = Some t →
       ∃ Tv, views h !! t = Some Tv ∧
             views h' !! d = Some (mkView (m_queue Tv) (m_idx Tv)) ∧
             views h' !! t = Some (mkView None (m_idx Tv))) ∧
    (∀ w, w ∉ ds → w ∉ tmps → views h' !! w = views h !! w).
Proof.
  induction ds as [|d ds IH]; intros tmps h Hwf Hndd Hndt Hlen Hdisj Hds Hts.
  - exists h. destruct tmps; [|done]. split_and!; done.
  - destruct tmps as [|t tmps]; [done|]. simpl in Hlen.
    apply NoDup_cons in Hndd as [Hd Hndd]. apply NoDup_cons in Hndt as [Ht Hndt].
    apply Forall_cons in Hds as [Hud Hds]. apply Forall_cons in Hts as [Hft Hts].
    assert (d ≠ t) as Hdt.
    { intros ->. apply (Hdisj t); apply elem_of_cons; by left. }
    destruct (View_move_assign_fresh h d t Hwf Hud Hft)
      as (Tv & h1 & HTv & Hrun1 & Hwf1 & Hsame1 & Hviews1).
    assert (∀ w, w ≠ d → w ≠ t → views h1 !! w = views h !! w) as Hother1.
    { intros w ??. rewrite Hviews1. by rewrite !lookup_insert_ne. }
    assert (∀ w, w ∈ ds → w ≠ d ∧ w ≠ t) as Hds'.
    { intros w Hw. split; [by intros ->|]. intros ->.
      apply (Hdisj t); apply elem_of_cons; [by right|by left]. }
    assert (∀ w, w ∈ tmps → w ≠ d ∧ w ≠ t) as Hts'.
    { intros w Hw. split; [|by intros ->]. intros ->.
      apply (Hdisj d); apply elem_of_cons; [by left|by right]. }
    destruct (IH tmps h1 Hwf1 Hndd Hndt) as (h2 & Hrun2 & Hwf2 & Hsame2 & Hat & Hother2).
    { lia. }
    { intros w Hw Hw'. apply (Hdisj w); apply elem_of_cons; by right. }
    { apply Forall_forall. intros w Hw. destruct (Hds' w Hw).
      apply (same_elements_unwired h h1); [done|by apply Hother1|].
      by apply (proj1 (Forall_forall _ _) Hds). }
    { apply Forall_forall. intros w Hw. destruct (Hts' w Hw).
      apply (same_elements_fresh h h1); [done|by apply Hother1|].
      by apply (proj1 (Forall_forall _ _) Hts). }
    assert (d ∉ tmps) as Hdtmps by (intros Hin; by destruct (Hts' _ Hin)).
    assert (t ∉ ds) as Htds by (intros Hin; by destruct (Hds' _ Hin)).
    exists h2. split; [|split; [done|split; [|split]]].
    + simpl. by rewrite (bind_ok _ _ _ _ _ Hrun1).
    + by apply (same_elements_trans h h1 h2).
    + intros [|i] d' t' Hd' Ht'; simpl in Hd', Ht'.
      * injection Hd' as <-. injection Ht' as <-. exists Tv. split; [done|].
        rewrite !Hother2 by done. rewrite Hviews1.
        by rewrite lookup_insert_eq, lookup_insert_ne, lookup_insert_eq.
      * destruct (Hat i d' t' Hd' Ht') as (Tv' & HTv' & Hd'' & Ht'').
        exists Tv'. split; [|done]. rewrite <- Hother1; [done| |].
        -- apply list_elem_of_lookup_2 in Ht'. by destruct (Hts' t' Ht').
        -- apply list_elem_of_lookup_2 in Ht'. by destruct (Hts' t' Ht').
    + intros w [Hwd Hwds]%not_elem_of_cons [Hwt Hwts]%not_elem_of_cons.
      rewrite Hother2 by done. by apply Hother1.
Qed.

(** Destroying, one after the other, different views that were moved
    from. *)
Lemma for_each_destroy_moved ws : ∀ h,
  wf h → NoDup ws → Forall (λ w, ∃ W, views h !! w = Some W ∧ m_queue W = None) ws →
  ∃ h', for_each View_destroy ws h = Ok (replicate (length ws) tt) h' ∧ wf h' ∧
    same_elements h h' ∧ (∀ w, w ∈ ws → views h' !! w = None) ∧
    (∀ w, w ∉ ws → views h' !! w = views h !! w).
Proof.
  induction ws as [|v ws IH]; intros h Hwf Hnd Hall.
  - exists h. split_and!; try done.
    intros w Hw. by apply elem_of_nil in Hw.
  - apply NoDup_cons in Hnd as [Hv Hnd].
    apply Forall_cons in Hall as [(V & HV & HVq) Hall].
    assert (View_destroy v h = Ok tt (free_view v h)) as Hrun1.
    { apply (View_destroy_dangling h v V); [done|]. by rewrite HVq. }
    pose proof (View_destroy_wf h v _ Hwf Hrun1) as Hwf1.
    destruct (IH (free_view v h) Hwf1 Hnd) as (h2 & Hrun2 & Hwf2 & Hsame2 & Hgone & Hother).
    { apply Forall_forall. intros w Hw.
      apply (proj1 (Forall_forall _ _) Hall) in Hw as Hw'.
      simpl. rewrite lookup_delete_ne; [done|]. by intros ->. }
    exists h2. split; [|split; [done|split; [|split]]].
    + simpl. rewrite (bind_ok _ _ _ _ _ Hrun1). by rewrite (bind_ok _ _ _ _ _ Hrun2).
    + apply (same_elements_trans h (free_view v h) h2); [|done]. by intros q.
    + intros w [->|Hw]%elem_of_cons; [|by apply Hgone].
      rewrite Hother by done. simpl. apply lookup_delete_eq.
    + intros w [Hwv Hw]%not_elem_of_cons. rewrite Hother by done.
      simpl. by rewrite lookup_delete_ne.
Qed.

Lemma setInputPipes_spec h c ps :
  wf h → NoDup (ConsumerN.m_inputPipes c) → NoDup ps →
  length (ConsumerN.m_inputPipes c) = length ps →
  (∀ d, d ∈ ConsumerN.m_inputPipes c → d ∉ ps) →
  Forall (unwired h) (ConsumerN.m_inputPipes c) → Forall (fresh_pipe h) ps →
  ∃ h', ConsumerN.setInputPipes c ps h = Ok tt h' ∧ wf h' ∧ same_elements h h' ∧
    (∀ i d p, ConsumerN.m_inputPipes c !! i = Some d → ps !! i = Some p →
       ∃ P, views h !! p = Some P ∧
            views h' !! d = Some (mkView (m_queue P) (m_idx P)) ∧ covered h' d = []) ∧
    (∀ p, p ∈ ps → views h' !! p = None) ∧
    (∀ w, w ∉ ConsumerN.m_inputPipes c → w ∉ ps → is_Some (views h !! w) →
          views h' !! w = views h !! w ∧ covered h' w = covered h w).
Proof.
  intros Hwf Hndd Hndp Hlen Hdisj Hds Hps.
  set (ds := ConsumerN.m_inputPipes c) in *.
  (* the temporaries *)
  destruct (for_each_move ps h Hwf Hndp Hps)
    as (tmps & h1 & Hrun1 & Hwf1 & Hsame1 & Hlen1 & Hndt & Hnone & Hat1 & Hother1).
  assert (∀ w, is_Some (views h !! w) → w ∉ tmps) as Hold.
  { intros w [W HW] Hin. apply (proj1 (Forall_forall _ _) Hnone) in Hin. congruence. }
  assert (∀ d, d ∈ ds → is_Some (views h !! d)) as Hdsome.
  { intros d Hd. apply (proj1 (Forall_forall _ _) Hds) in Hd as (D & HD & _). eauto. }
  assert (∀ p, p ∈ ps → is_Some (views h !! p)) as Hpsome.
  { intros p Hp. apply (proj1 (Forall_forall _ _) Hps) in Hp as (P & _ & _ & HP & _). eauto. }
  assert (∀ t, t ∈ tmps → ∃ i p P, ps !! i = Some p ∧ tmps !! i = Some t ∧
             views h !! p = Some P ∧
             views h1 !! t = Some (mkView (m_queue P) (m_idx P))) as Htmps.
  { intros t Ht. apply list_elem_of_lookup_1 in Ht as [i Hi].
    destruct (lookup_lt_is_Some_2 ps i) as [p Hp].
    { rewrite <- Hlen1. by apply lookup_lt_Some in Hi. }
    destruct (Hat1 i p t Hp Hi) as (P & HP & Ht1 & _). by exists i, p, P. }
  (* the member-by-member assignment *)
  destruct (move_assign_each_fresh ds tmps h1 Hwf1 Hndd Hndt)
    as (h2 & Hrun2 & Hwf2 & Hsame2 & Hat2 & Hother2).
  { by rewrite Hlen1. }
  { intros d Hd. apply Hold. by apply Hdsome. }
  { apply Forall_forall. intros d Hd.
    apply (same_elements_unwired h h1); [done| |by apply (proj1 (Forall_forall _ _) Hds)].
    apply Hother1; [by apply Hdisj|]. apply Hold. by apply Hdsome. }
  { apply Forall_forall. intros t Ht.
    destruct (Htmps t Ht) as (i & p & P & Hp & Hi & HP & Ht1).
    apply list_elem_of_lookup_2 in Hp as Hpin.
    destruct (proj1 (Forall_forall _ _) Hps p Hpin) as (P' & q & Q & HP' & HPq & HQ & Hempty).
    assert (P' = P) as -> by congruence.
    pose proof (Hsame1 q) as Hq1. rewrite HQ in Hq1.
    destruct (queues h1 !! q) as [Q1|] eqn:HQ1; [|done]. simpl in Hq1.
    exists (mkView (m_queue P) (m_idx P)), q, Q1. split_and!; [done..|congruence]. }
  (* the temporaries end *)
  destruct (for_each_destroy_moved tmps h2 Hwf2 Hndt)
    as (h3 & Hrun3 & Hwf3 & Hsame3 & Hgone3 & Hother3).
  { apply Forall_forall. intros t Ht. apply list_elem_of_lookup_1 in Ht as [i Hi].
    destruct (lookup_lt_is_Some_2 ds i) as [d Hd].
    { rewrite Hlen, <- Hlen1. by apply lookup_lt_Some in Hi. }
    destruct (Hat2 i d t Hd Hi) as (Tv & _ & _ & Ht2). eauto. }
  (* the parameters end *)
  assert (∀ p, p ∈ ps → p ∉ ds) as Hdisj'.
  { intros p Hp Hd. by apply (Hdisj p). }
  assert (∀ p, p ∈ ps → ∃ idx, views h3 !! p = Some (mkView None idx)) as Hmoved.
  { intros p Hp. apply list_elem_of_lookup_1 in Hp as Hi. destruct Hi as [i Hi].
    destruct (lookup_lt_is_Some_2 tmps i) as [t Ht].
    { rewrite Hlen1. by apply lookup_lt_Some in Hi. }
    destruct (Hat1 i p t Hi Ht) as (P & _ & _ & Hp1).
    exists (m_idx P). rewrite Hother3 by (apply Hold; by apply Hpsome).
    rewrite Hother2; [done|by apply Hdisj'|]. apply Hold. by apply Hpsome. }
  destruct (for_each_destroy_moved ps h3 Hwf3 Hndp)
    as (h4 & Hrun4 & Hwf4 & Hsame4 & Hgone4 & Hother4).
  { apply Forall_forall. intros p Hp. destruct (Hmoved p Hp) as [idx Hidx]. eauto. }
  assert (same_elements h h4) as Hsame.
  { apply (same_elements_trans h h3 h4); [|done].
    apply (same_elements_trans h h2 h3); [|done].
    by apply (same_elements_trans h h1 h2). }
  exists h4. split; [|split; [done|split; [done|split; [|split]]]].
  - unfold ConsumerN.setInputPipes. fold ds.
    rewrite (bind_ok _ _ _ _ _ Hrun1). rewrite (bind_ok _ _ _ _ _ Hrun2).
    rewrite (bind_ok _ _ _ _ _ Hrun3). by rewrite (bind_ok _ _ _ _ _ Hrun4).
  - intros i d p Hd Hp.
    destruct (lookup_lt_is_Some_2 tmps i) as [t Ht].
    { rewrite Hlen1. by apply lookup_lt_Some in Hp. }
    destruct (Hat1 i p t Hp Ht) as (P & HP & Ht1 & _).
    destruct (Hat2 i d t Hd Ht) as (Tv & HTv & Hd2 & _).
    assert (Tv = mkView (m_queue P) (m_idx P)) as -> by congruence. simpl in Hd2.
    apply list_elem_of_lookup_2 in Hd as Hdin. apply list_elem_of_lookup_2 in Hp as Hpin.
    assert (views h4 !! d = Some (mkView (m_queue P) (m_idx P))) as Hd4.
    { rewrite Hother4 by (by apply Hdisj). rewrite Hother3; [done|].
      apply Hold. by apply Hdsome. }
    exists P. split; [done|]. split; [done|].
    destruct (proj1 (Forall_forall _ _) Hps p Hpin) as (P' & q & Q & HP' & HPq & HQ & Hempty).
    assert (P' = P) as -> by congruence.
    pose proof (Hsame q) as Hq4. rewrite HQ in Hq4.
    destruct (queues h4 !! q) as [Q4|] eqn:HQ4; [|done]. simpl in Hq4.
    rewrite (covered_live h4 d _ q Q4 Hd4 HPq HQ4).
    assert (m_impl Q4 = []) as -> by congruence. by rewrite drop_nil.
  - done.
  - intros w Hwd Hwp Hw.
    assert (views h4 !! w = views h !! w) as Heq.
    { rewrite Hother4 by done. rewrite Hother3 by (by apply Hold).
      rewrite Hother2; [|done|by apply Hold]. apply Hother1; [done|by apply Hold]. }
    split; [done|]. by apply same_elements_covered.
Qed.

(** X19.  [setInputPipes] on a consumer with a fixed number of inputs whose
    own views have no live queue, with as many different views of live
    queues that hold nothing: the call returns; the consumer's i-th view is
    then a view of the queue of the i-th parameter, at the parameter's
    offset and covering nothing; the parameters are gone; no queue has
    gained or lost an element; every other view is what it was and covers
    what it covered; and the state is well-formed. *)
Theorem setInputPipes_wires_each h c ps :
  wf h → NoDup (ConsumerN.m_inputPipes c) → NoDup ps →
  length (ConsumerN.m_inputPipes c) = length ps →
  (∀ d, d ∈ ConsumerN.m_inputPipes c → d ∉ ps) →
  Forall (unwired h) (ConsumerN.m_inputPipes c) → Forall (fresh_pipe h) ps →
  ∃ h', ConsumerN.setInputPipes c ps h = Ok tt h' ∧ wf h' ∧ same_elements h h' ∧
    (∀ i d p, ConsumerN.m_inputPipes c !! i = Some d → ps !! i = Some p →
       ∃ P, views h !! p = Some P ∧
            views h' !! d = Some (mkView (m_queue P) (m_idx P)) ∧ covered h' d = []) ∧
    (∀ p, p ∈ ps → views h' !! p = None) ∧
    (∀ w, w ∉ ConsumerN.m_inputPipes c → w ∉ ps → is_Some (views h !! w) →
          views h' !! w = views h !! w ∧ covered h' w = covered h w).
Proof. apply setInputPipes_spec. Qed.

End FixedWiring.

(** Witness of X19: the two views of the consumer of [join_wiring_heap] are
    given the views [5] and [6]. *)
Lemma setInputPipes_wires_each_witness :
  ∃ h', ConsumerN.setInputPipes (ConsumerN.mk [1%positive; 2%positive])
          [5%positive; 6%positive] join_wiring_heap = Ok tt h' ∧ wf h' ∧
    same_elements join_wiring_heap h' ∧
    (∀ i d p, ConsumerN.m_inputPipes (ConsumerN.mk [1%positive; 2%positive]) !! i = Some d →
       [5%positive; 6%positive] !! i = Some p →
       ∃ P, views join_wiring_heap !! p = Some P ∧
            views h' !! d = Some (mkView (m_queue P) (m_idx P)) ∧ covered h' d = []) ∧
    (∀ p, p ∈ [5%positive; 6%positive] → views h' !! p = None) ∧
    (∀ w, w ∉ ConsumerN.m_inputPipes (ConsumerN.mk [1%positive; 2%positive]) →
          w ∉ [5%positive; 6%positive] → is_Some (views join_wiring_heap !! w) →
          views h' !! w = views join_wiring_heap !! w ∧
          covered h' w = covered join_wiring_heap w).
Proof.
  apply (setInputPipes_wires_each join_wiring_heap (ConsumerN.mk [1%positive; 2%positive])
           [5%positive; 6%positive]).
  - apply wf_check_sound. vm_compute. reflexivity.
  - exact (bool_decide_unpack (NoDup [1%positive; 2%positive]) I).
  - exact (bool_decide_unpack (NoDup [5%positive; 6%positive]) I).
  - reflexivity.
  - simpl. intros d Hd Hp.
    apply elem_of_cons in Hd as [->|Hd]; [|apply elem_of_cons in Hd as [->|Hd]].
    + apply elem_of_cons in Hp as [Hp|Hp]; [discriminate|].
      apply elem_of_cons in Hp as [Hp|Hp]; [discriminate|]. by apply elem_of_nil in Hp.
    + apply elem_of_cons in Hp as [Hp|Hp]; [discriminate|].
      apply elem_of_cons in Hp as [Hp|Hp]; [discriminate|]. by apply elem_of_nil in Hp.
    + by apply elem_of_nil in Hd.
  - simpl. apply Forall_cons. split; [|apply Forall_singleton].
    + exists (mkView None 0). split; vm_compute; reflexivity.
    + exists (mkView None 0). split; vm_compute; reflexivity.
  - apply Forall_cons. split; [|apply Forall_singleton].
    + exists (mkView (Some 3%positive) 0), 3%positive, (mkQueue [] [] {[5%positive]}).
      split_and!; vm_compute; reflexivity.
    + exists (mkView (Some 4%positive) 0), 4%positive, (mkQueue [] [] {[6%positive]}).
      split_and!; vm_compute; reflexivity.
Defined.

(** ** Copy assignment *)

Section Assign.
Context {T : Type}.
Implicit Types (h : heap T) (Q : Queue T) (V : View).

(** Registering a view at the end of a queue under an address that is not
    in use and not registered with the queue. *)
Lemma wf_view_at h a q Q :
  wf h → queues h !! q = Some Q → views h !! a = None → (a < brk h)%positive →
  a ∉ m_views Q → wf (view_at h a q Q).
Proof.
  intros Hwf Hq Hfresh Ha Hunreg.
  assert (∀ q' i w, w ≠ a → counted (view_at h a q Q) q' i w = counted h q' i w) as Hsame.
  { intros q' i w Hne. apply counted_same_view. simpl. by rewrite lookup_insert_ne. }
  split; simpl.
  - intros q' Q' [[-> <-]|[_ HQ']]%lookup_insert_Some.
    + by apply (wf_queue_addr h Hwf q' Q).
    + by apply (wf_queue_addr h Hwf q' Q').
  - intros v V [[<- <-]|[_ HV]]%lookup_insert_Some; [done|].
    by apply (wf_view_addr h Hwf v V).
  - intros v V q' [[<- <-]|[_ HV]]%lookup_insert_Some HVq.
    + simpl in HVq. injection HVq as <-. by apply (wf_queue_addr h Hwf q Q).
    + by apply (wf_weak_addr h Hwf v V q').
  - intros q' Q' v [[-> <-]|[_ HQ']]%lookup_insert_Some Hv.
    + simpl in Hv. apply elem_of_union in Hv as [->%elem_of_singleton|Hv]; [done|].
      by apply (wf_reg_addr h Hwf q' Q).
    + by apply (wf_reg_addr h Hwf q' Q').
  - intros q' Q' [[-> <-]|[_ HQ']]%lookup_insert_Some.
    + apply (wf_lengths h Hwf q' Q Hq).
    + by apply (wf_lengths h Hwf q').
  - intros q' Q' [[-> <-]|[_ HQ']]%lookup_insert_Some.
    + apply (wf_max h Hwf q' Q Hq).
    + by apply (wf_max h Hwf q').
  - intros q' Q' v V HQ' [[<- <-]|[Hne HV]]%lookup_insert_Some HVq.
    + simpl in HVq. injection HVq as <-.
      rewrite lookup_insert_eq in HQ'. injection HQ' as <-. simpl.
      split; [|unfold queue_size; simpl; lia].
      apply elem_of_union. left. by apply elem_of_singleton.
    + apply lookup_insert_Some in HQ' as [[-> <-]|[_ HQ']].
      * destruct (wf_registered h Hwf q' Q v V Hq HV HVq). simpl.
        split; [|done]. apply elem_of_union. by right.
      * by apply (wf_registered h Hwf q' Q' v V).
  - intros q' Q' i c [[-> <-]|[Hne HQ']]%lookup_insert_Some Hc; simpl in Hc.
    + destruct (wf_counts h Hwf q' Q i c Hq Hc) as [Hpos Hsize].
      split; [done|]. rewrite Hsize. do 2 f_equal. simpl.
      apply lookup_lt_Some in Hc as Hlt.
      rewrite <- (wf_lengths h Hwf q' Q Hq) in Hlt.
      apply set_eq. intros w. rewrite !elem_of_filter, elem_of_union, elem_of_singleton.
      split.
      * intros [Hcw Hw]. split; [|by right]. rewrite Hsame; [done|]. by intros ->.
      * intros [Hcw [->|Hw]].
        -- rewrite (counted_attached _ q' i a (mkView (Some q') (queue_size Q))) in Hcw;
             simpl; rewrite ?lookup_insert_eq; try done.
           apply Is_true_true, N.leb_le in Hcw. unfold queue_size in Hcw. simpl in Hcw. lia.
        -- split; [|done]. rewrite <- Hsame; [done|]. by intros ->.
    + destruct (wf_counts h Hwf q' Q' i c HQ' Hc) as [Hpos Hsize].
      split; [done|]. rewrite Hsize. do 2 f_equal.
      apply filter_agree. intros w Hw.
      destruct (decide (w = a)) as [->|Hwa]; [|by rewrite Hsame].
      rewrite (counted_gone h q' i a Hfresh).
      rewrite (counted_elsewhere _ q' i a (mkView (Some q) (queue_size Q))); [done| |].
      * simpl. by rewrite lookup_insert_eq.
      * simpl. congruence.
Qed.

Lemma covered_view_at h a q Q :
  queues h !! q = Some Q →
  covered (view_at h a q Q) a = [] ∧
  (∀ w, w ≠ a → covered (view_at h a q Q) w = covered h w).
Proof.
  intros Hq. split.
  - unfold covered, lock. simpl. rewrite lookup_insert_eq. simpl.
    rewrite lookup_insert_eq. simpl. unfold queue_size.
    rewrite drop_ge; [done|lia].
  - intros w Hne. unfold covered, lock. simpl. rewrite lookup_insert_ne by done.
    destruct (views h !! w) as [W|]; [|done].
    destruct (m_queue W) as [q'|]; [|done].
    destruct (decide (q' = q)) as [->|Hq'].
    + by rewrite lookup_insert_eq, Hq.
    + by rewrite lookup_insert_ne.
Qed.

(** Changing who is registered with a queue changes no range. *)
Lemma covered_set_views h q Q X w :
  queues h !! q = Some Q →
  covered (set_queue q (mkQueue (m_impl Q) (m_referenceCounter Q) X) h) w = covered h w.
Proof.
  intros Hq. unfold covered, lock. simpl.
  destruct (views h !! w) as [W|]; [|done].
  destruct (m_queue W) as [q'|]; [|done].
  destruct (decide (q' = q)) as [->|Hq'].
  - by rewrite lookup_insert_eq, Hq.
  - by rewrite lookup_insert_ne.
Qed.

Lemma View_assign_spec h this other V q Q O :
  wf h → views h !! this = Some V → m_queue V = Some q → queues h !! q = Some Q →
  views h !! other = Some O →
  (other = this ∨ covered h other = []) →
  (∀ qo Qo, m_queue O = Some qo → qo ≠ q → queues h !! qo = Some Qo → this ∉ m_views Qo) →
  ∃ h', View_assign this other h = Ok tt h' ∧ wf h' ∧ covered h' this = [] ∧
        m_queue <$> views h' !! this = Some (m_queue O) ∧
        (∀ w, w ≠ this → covered h' w = covered h w).
Proof.
  intros Hwf Hv HVq Hq Ho Hread Hunreg.
  destruct (unregisterView_run h q Q this V Hwf Hv HVq Hq)
    as (h1 & Q1 & V1 & Hun & Hwf1 & HQ1 & HX1 & HV1 & HV1q & Hidx1 & _ & Hframe & Hwire
        & Hbrk & Hqs).
  set (QU := mkQueue (m_impl Q1) (m_referenceCounter Q1) (m_views Q ∖ {[this]})) in *.
  set (hU := set_queue q QU h1) in *.
  assert (wf (free_view this hU)) as HwfF.
  { unfold hU, QU. rewrite <- HX1. by apply (wf_unregistered h1 q Q1 this V1). }
  assert (∀ w, covered hU w = covered h1 w) as HcovU.
  { intros w. by apply covered_set_views. }
  assert (∃ O1, views h1 !! other = Some O1 ∧ m_queue O1 = m_queue O) as (O1 & HO1 & HO1q).
  { destruct Hwire as [Hviews _]. specialize (Hviews other). rewrite Ho in Hviews.
    destruct (views h1 !! other) as [O1|] eqn:E; [|done]. simpl in Hviews.
    exists O1. split; [done|congruence]. }
  assert (View_assign this other h =
          match lock (m_queue O1) hU with
          | Some (q0, _) =>
              registerView q0 this (set_view this (mkView (m_queue O1) (m_idx O1)) hU)
          | None => Ok tt (set_view this (mkView (m_queue O1) (m_idx O1)) hU)
          end) as Hrun.
  { unfold View_assign. rewrite (bind_ok _ _ _ _ _ (get_view_ok _ _ _ Hv)).
    erewrite bind_ok; [|by rewrite HVq, (lock_some _ _ _ Hq)].
    erewrite bind_ok; [|by apply get_view_ok].
    unfold bind at 1. done. }
  assert ((this < brk h1)%positive) as Hthis by (by apply (wf_view_addr h1 Hwf1 this V1)).
  destruct (lock (m_queue O1) hU) as [[qo QoU]|] eqn:Hlock.
  - (* the view assigned from has a live queue *)
    apply lock_inv in Hlock as [HO1qo HQoU]. simpl in HO1qo, HQoU.
    assert (m_idx O1 = queue_size QoU ∧ this ∉ m_views QoU) as [Hidx HthisU].
    { destruct (decide (qo = q)) as [->|Hqo].
      - assert (QoU = QU) as ->.
        { unfold hU in HQoU. simpl in HQoU. rewrite lookup_insert_eq in HQoU. congruence. }
        split; [|simpl; intros [_ Hn]%elem_of_difference; apply Hn; by apply elem_of_singleton].
        destruct Hread as [->|Hread].
        + assert (O1 = V1) as -> by congruence. done.
        + destruct (decide (other = this)) as [->|Hne].
          * assert (O1 = V1) as -> by congruence. done.
          * rewrite <- Hframe in Hread by done.
            by apply (covered_nil_idx h1 other O1 q Q1 Hwf1 HO1 HO1qo HQ1) in Hread.
      - assert (queues h1 !! qo = Some QoU) as HQo1.
        { unfold hU in HQoU. simpl in HQoU. by rewrite lookup_insert_ne in HQoU. }
        assert (other ≠ this) as Hne by (intros ->; congruence).
        split.
        + destruct Hread as [?|Hread]; [done|].
          rewrite <- Hframe in Hread by done.
          by apply (covered_nil_idx h1 other O1 qo QoU Hwf1 HO1 HO1qo HQo1) in Hread.
        + destruct (proj1 (proj2 Hwire qo)) as [Qo HQo]; [eauto|].
          destruct (Hqs qo Qo Hqo HQo) as (Qo1' & HQo1' & HXo & _).
          assert (Qo1' = QoU) as -> by congruence. rewrite HXo.
          apply (Hunreg qo Qo); [congruence|done..]. }
    assert (queues (free_view this hU) !! qo = Some QoU) as HQoF by done.
    assert (views (free_view this hU) !! this = None) as HnoneF
      by (simpl; apply lookup_delete_eq).
    pose proof (wf_view_at (free_view this hU) this qo QoU HwfF HQoF HnoneF Hthis HthisU)
      as Hwf'.
    destruct (covered_view_at (free_view this hU) this qo QoU HQoF) as [Hnil Hold].
    assert (View_assign this other h = Ok tt (view_at (free_view this hU) this qo QoU))
      as Hrun'.
    { rewrite Hrun. unfold registerView, bind, get_queue. simpl. rewrite HQoU.
      unfold view_at, set_queue. simpl. rewrite insert_delete_eq.
      by rewrite Hidx, HO1qo. }
    exists (view_at (free_view this hU) this qo QoU).
    split; [done|]. split; [done|]. split; [done|]. split.
    + simpl. rewrite lookup_insert_eq. simpl. congruence.
    + intros w Hw. rewrite Hold by done. rewrite covered_free_view by done.
      rewrite HcovU. by apply Hframe.
  - (* the view assigned from has none *)
    exists (set_view this (mkView (m_queue O1) (m_idx O1)) hU).
    split; [done|]. split; [|split; [|split]].
    + apply (wf_views_change (free_view this hU)
               (<[this := mkView (m_queue O1) (m_idx O1)]> (views hU)) (brk hU)) in HwfF.
      * exact HwfF.
      * simpl. lia.
      * intros w W'. destruct (decide (w = this)) as [->|Hne].
        -- rewrite lookup_insert_eq. intros [= <-]. split; [done|]. simpl.
           intros q' Hq'. by apply (wf_weak_addr h1 Hwf1 other O1 q').
        -- rewrite lookup_insert_ne by done. simpl. intros HW. split.
           ++ by apply (wf_view_addr h1 Hwf1 w W').
           ++ intros q' Hq'. by apply (wf_weak_addr h1 Hwf1 w W' q').
      * intros w. destruct (decide (w = this)) as [->|Hne].
        -- right. simpl. rewrite lookup_delete_eq, lookup_insert_eq.
           split; [done|]. by intros V' [= <-].
        -- left. simpl. by rewrite lookup_delete_ne, lookup_insert_ne.
    + unfold covered. simpl. rewrite lookup_insert_eq. simpl.
      change (lock (m_queue O1) _) with (lock (m_queue O1) hU). by rewrite Hlock.
    + simpl. rewrite lookup_insert_eq. simpl. congruence.
    + intros w Hw. rewrite <- Hframe, <- HcovU by done.
      unfold covered, lock. simpl. by rewrite lookup_insert_ne.
Qed.

(** X20.  The copy assignment [this = other] on a view [this] of a live
    queue, in a well-formed state, when [other] has nothing left to read
    (or is [this] itself) and [this] is not registered with the queue of
    [other] unless it is its own: the call returns, [this] becomes a view
    of the queue of [other] (or of none, when [other] has none) covering
    nothing, every other view covers what it covered, and the state stays
    well-formed. *)
Theorem copy_assign_of_read_view h this other V q Q O :
  wf h → views h !! this = Some V → m_queue V = Some q → queues h !! q = Some Q →
  views h !! other = Some O →
  (other = this ∨ covered h other = []) →
  (∀ qo Qo, m_queue O = Some qo → qo ≠ q → queues h !! qo = Some Qo → this ∉ m_views Qo) →
  ∃ h', View_assign this other h = Ok tt h' ∧ wf h' ∧ covered h' this = [] ∧
        m_queue <$> views h' !! this = Some (m_queue O) ∧
        (∀ w, w ≠ this → covered h' w = covered h w).
Proof. apply View_assign_spec. Qed.

End Assign.

(** Witness of X20: in [two_reader_heap] the reader [2], which has [7] to
    read, is assigned the reader [3], which has read it. *)
Lemma copy_assign_of_read_view_witness :
  ∃ h', View_assign 2%positive 3%positive two_reader_heap = Ok tt h' ∧ wf h' ∧
        covered h' 2%positive = [] ∧
        m_queue <$> views h' !! 2%positive = Some (m_queue (mkView (Some 1%positive) 1)) ∧
        (∀ w, w ≠ 2%positive → covered h' w = covered two_reader_heap w).
Proof.
  apply (copy_assign_of_read_view two_reader_heap 2%positive 3%positive
           (mkView (Some 1%positive) 0) 1%positive
           (mkQueue [7] [1] {[2%positive; 3%positive]}) (mkView (Some 1%positive) 1)).
  - apply wf_check_sound. vm_compute. reflexivity.
  - vm_compute. reflexivity.
  - reflexivity.
  - vm_compute. reflexivity.
  - vm_compute. reflexivity.
  - right. vm_compute. reflexivity.
  - intros qo Qo [= <-] Hne. done.
Defined.

(** ** What a pop leaves alone *)

Section PopNever.
Context {T : Type}.
Implicit Types (h : heap T) (Q : Queue T) (V : View).

(** X21.  A [pop] that returns, in a well-formed state, allocates nothing,
    registers and unregisters nobody, lets no queue die and lengthens none,
    and ends no view object nor changes the queue a view points to. *)
Theorem pop_registers_nobody h v x h' :
  wf h → View_pop v h = Ok x h' →
  brk h' = brk h ∧ same_wiring h h' ∧
  ∀ q Q, queues h !! q = Some Q →
    ∃ Q', queues h' !! q = Some Q' ∧ m_views Q' = m_views Q ∧
          (length (m_impl Q') ≤ length (m_impl Q))%nat.
Proof.
  intros Hwf Hpop.
  destruct (View_pop_queues h v x h' Hwf Hpop) as [Hbrk Hqs].
  destruct (View_pop_ok_covered h v x h' Hpop) as [r Hcov].
  destruct (View_pop_covered h v x r Hwf Hcov) as (h'' & Hpop' & _ & _ & _ & Hsame).
  assert (h'' = h') as -> by congruence.
  done.
Qed.

End PopNever.

(** Witness of X21: the reader of [one_reader_heap] pops. *)
Lemma pop_registers_nobody_witness :
  ∃ h', View_pop 2%positive one_reader_heap = Ok 7 h' ∧
        brk h' = brk one_reader_heap ∧ same_wiring one_reader_heap h' ∧
        ∀ q Q, queues one_reader_heap !! q = Some Q →
          ∃ Q', queues h' !! q = Some Q' ∧ m_views Q' = m_views Q ∧
                (length (m_impl Q') ≤ length (m_impl Q))%nat.
Proof.
  eexists. split; [vm_compute; reflexivity|].
  apply (pop_registers_nobody one_reader_heap 2%positive 7).
  - apply wf_check_sound. vm_compute. reflexivity.
  - vm_compute. reflexivity.
Defined.
